(** * Boggle: the word-finding core of boggle.cpp

    A shallow embedding of the search functions of [boggle.cpp]
    ([AreNeighbors], [NotDuplicated], [Findable], [WordIsValid],
    [putWordOnBoard], [FindAllWords], [ComputerTurn]) and the properties
    of the specification that concern them.

    Conventions of the embedding:
    - a C++ [int] coordinate is a [Z]; the board coordinates handled by the
      searches range over [-1 .. numRows-1] and [-1 .. numCols-1], so no
      machine arithmetic leaves the [int] range;
    - [std::string] is [string]; [Vector<T>] is [list T], [add] appending at
      the end; [Set<string>] is [gset string];
    - a call that can raise (a [Grid] access out of bounds, [substr] past the
      end, [removeAt] out of range) returns an [outcome];
    - recursion that is not structural takes a [fuel] argument, one unit per
      nested call; running out of it is the outcome [OutOfFuel], and the
      termination theorems give the fuel that always suffices. *)

From Stdlib Require Import ZArith Lia Ascii.
From Stdlib Require String.
From stdpp Require Import base gmap sets list strings.

Local Open Scope Z_scope.

Set Warnings "-clear-no-such-hyp".

(** ** Outcomes of calls that can raise *)

Inductive outcome (A : Type) : Type :=
| Ret (a : A)
| Fault
| OutOfFuel.

Arguments Ret {A} a.
Arguments Fault {A}.
Arguments OutOfFuel {A}.

Global Instance outcome_ret : MRet outcome := fun A a => Ret a.

Global Instance outcome_bind : MBind outcome := fun A B k m =>
  match m with
  | Ret a => k a
  | Fault => Fault
  | OutOfFuel => OutOfFuel
  end.

(** A [for] loop over the elements of [l], threading the loop state. *)
Fixpoint foldM {A S : Type} (body : A → S → outcome S) (l : list A) (s : S)
  : outcome S :=
  match l with
  | [] => Ret s
  | x :: l' => s' ← body x s; foldM body l' s'
  end.

(** ** Data model *)

(** [struct locationT { int numRow; int numCol; }] *)
Record locationT : Type := mkLoc { numRow : Z; numCol : Z }.

Global Instance locationT_eq_dec : EqDecision locationT.
Proof. solve_decision. Defined.

(** [Vector<T>] is [list T]. *)
Abbreviation Vector := list (only parsing).

(** [Grid<string>]: its dimensions and its element at a row and a column.
    [gridAt] is the bounds-checked [operator()] of the container. *)
Record Grid : Type := mkGrid {
  numRows : nat;
  numCols : nat;
  cell : Z → Z → string
}.

Definition inBounds (board : Grid) (row col : Z) : bool :=
  (0 <=? row) && (row <? Z.of_nat (numRows board)) &&
  (0 <=? col) && (col <? Z.of_nat (numCols board)).

Definition gridAt (board : Grid) (row col : Z) : outcome string :=
  if inBounds board row col then Ret (cell board row col) else Fault.

(** A grid given by its rows, for concrete boards. *)
Definition gridOfRows (nr nc : nat) (rows : list (list string)) : Grid :=
  mkGrid nr nc
    (fun r c => nth (Z.to_nat c) (nth (Z.to_nat r) rows []) EmptyString).

(** The values [0 .. n-1] taken by a loop counter [for (int i = 0; i < n; i++)]. *)
Definition upto (n : nat) : list Z := map Z.of_nat (seq 0 n).

(** The doubly nested loop over all rows and columns of the board. *)
Definition forGrid {S : Type} (board : Grid) (body : Z → Z → S → outcome S)
  (s : S) : outcome S :=
  foldM (fun i s => foldM (fun j s => body i j s) (upto (numCols board)) s)
        (upto (numRows board)) s.

(** The cells of the board in the row-major order of that loop. *)
Definition allCells (board : Grid) : list locationT :=
  flat_map (fun i => map (fun j => mkLoc i j) (upto (numCols board)))
           (upto (numRows board)).

(** ** AreNeighbors *)

Definition AreNeighbors (row1 col1 row2 col2 : Z) : bool :=
  if (row2 =? -1) && (col2 =? -1) then true
  else if (row1 - row2 >? 1) || (row2 - row1 >? 1)
          || (col1 - col2 >? 1) || (col2 - col1 >? 1) then false
  else if (row1 =? row2) && (col1 =? col2) then false
  else true.

(** ** NotDuplicated *)

Fixpoint NotDuplicated (row col : Z) (locations : Vector locationT) : bool :=
  match locations with
  | [] => true
  | l :: rest =>
      if (numRow l =? row) && (numCol l =? col) then false
      else NotDuplicated row col rest
  end.

(** ** Strings *)

(** [toupper] of the C locale, and [ConvertToUpperCase] of strutils.h, which
    applies it to every character. *)
Definition toupper (c : ascii) : ascii :=
  let n := nat_of_ascii c in
  if ((97 <=? n) && (n <=? 122))%nat then ascii_of_nat (n - 32) else c.

Fixpoint ConvertToUpperCase (s : string) : string :=
  match s with
  | EmptyString => EmptyString
  | String c s' => String (toupper c) (ConvertToUpperCase s')
  end.

(** [s.substr(pos, len)] and [s.substr(pos)] of [std::string]: both raise
    [std::out_of_range] when [pos > s.size()]. *)
Definition substr (s : string) (pos len : nat) : outcome string :=
  if (pos <=? String.length s)%nat then Ret (String.substring pos len s) else Fault.

Definition substrFrom (s : string) (pos : nat) : outcome string :=
  if (pos <=? String.length s)%nat
  then Ret (String.substring pos (String.length s - pos) s)
  else Fault.

(** ** Vectors *)

Definition add {A : Type} (v : Vector A) (x : A) : Vector A := v ++ [x].

(** [v.removeAt(i)] and [v[i]] are bounds-checked. *)
Definition removeAt {A : Type} (v : Vector A) (i : Z) : outcome (Vector A) :=
  if (0 <=? i) && (i <? Z.of_nat (length v))
  then Ret (delete (Z.to_nat i) v) else Fault.

Definition getAt {A : Type} (v : Vector A) (i : Z) : outcome A :=
  if (0 <=? i) && (i <? Z.of_nat (length v))
  then match v !! Z.to_nat i with Some x => Ret x | None => Fault end
  else Fault.

(** ** The lexicon, the players and the display *)

(** The [Lexicon] class is used through its two queries only. *)
Record Lexicon : Type := mkLexicon {
  containsWord : string → bool;
  containsPrefix : string → bool
}.

Inductive playerT : Type := Human | Computer.

Global Instance playerT_eq_dec : EqDecision playerT.
Proof. solve_decision. Defined.

(** The calls made to the graphics module gboggle.h. *)
Inductive event : Type :=
| RecordWordForPlayer (word : string) (player : playerT)
| HighlightCube (row col : Z) (flag : bool)
| Pause.

(** The objects the game functions receive by reference: the board, the set
    of the words claimed so far, and the display they draw on. *)
Record game : Type := mkGame {
  board : Grid;
  wordsSeen : gset string;
  display : list event
}.

Definition emit (evs : list event) (g : game) : game :=
  mkGame (board g) (wordsSeen g) (display g ++ evs).

Definition addSeen (word : string) (g : game) : game :=
  mkGame (board g) ({[word]} ∪ wordsSeen g) (display g).

(** ** Findable *)

Fixpoint Findable (fuel : nat) (board : Grid) (word : string) (row col : Z)
  (locations : Vector locationT) (answers : Vector (Vector locationT))
  : outcome (Vector (Vector locationT)) :=
  match fuel with
  | O => OutOfFuel
  | S fuel' =>
      let word := ConvertToUpperCase word in
      let answers :=
        if (String.length word =? 0)%nat then add answers locations
        else answers in
      st ← forGrid board (fun i j st =>
              let '(locations, answers) := st in
              tok ← gridAt board i j;
              first ← substr word 0 1;
              if String.eqb tok first && AreNeighbors i j row col
                 && NotDuplicated i j locations
              then
                let locations := add locations (mkLoc i j) in
                rest ← substrFrom word 1;
                answers ← Findable fuel' board rest i j locations answers;
                locations ←
                  (if negb (String.length word =? 0)%nat
                   then removeAt locations (Z.of_nat (length locations) - 1)
                   else Ret locations);
                Ret (locations, answers)
              else Ret (locations, answers))
            (locations, answers);
      Ret (snd st)
  end.

(** The body of the loop of [Findable] at the cell [l], with the recursive
    call as a parameter: [Findable_unfold] shows [Findable] is this loop. *)
Definition FindableCell
  (recur : string → Z → Z → Vector locationT → Vector (Vector locationT)
           → outcome (Vector (Vector locationT)))
  (board : Grid) (word : string) (row col : Z) (l : locationT)
  (st : Vector locationT * Vector (Vector locationT))
  : outcome (Vector locationT * Vector (Vector locationT)) :=
  let '(locations, answers) := st in
  tok ← gridAt board (numRow l) (numCol l);
  first ← substr word 0 1;
  if String.eqb tok first && AreNeighbors (numRow l) (numCol l) row col
     && NotDuplicated (numRow l) (numCol l) locations
  then
    let locations := add locations (mkLoc (numRow l) (numCol l)) in
    rest ← substrFrom word 1;
    answers ← recur rest (numRow l) (numCol l) locations answers;
    locations ←
      (if negb (String.length word =? 0)%nat
       then removeAt locations (Z.of_nat (length locations) - 1)
       else Ret locations);
    Ret (locations, answers)
  else Ret (locations, answers).

(** ** WordIsValid *)

Definition WordIsValid (fuel : nat) (word : string) (lex : Lexicon) (g : game)
  : outcome (bool * game) :=
  if (String.length word <? 4)%nat then Ret (false, g)
  else if bool_decide (word ∈ wordsSeen g) then Ret (false, g)
  else if negb (containsWord lex word) then Ret (false, g)
  else
    results ← Findable fuel (board g) word (-1) (-1) [] [];
    if (length results =? 0)%nat then Ret (false, g)
    else
      answer ← getAt results 0;
      Ret (true,
           emit (map (fun l => HighlightCube (numRow l) (numCol l) true) answer
                 ++ [Pause]
                 ++ map (fun l => HighlightCube (numRow l) (numCol l) false) answer)
                g).

(** ** putWordOnBoard *)

Definition putWordOnBoard (word : string) (g : game) : game :=
  emit [RecordWordForPlayer word Human] (addSeen word g).

(** ** FindAllWords *)

Fixpoint FindAllWords (fuel : nat) (row col : Z) (lex : Lexicon)
  (soFar : string) (visited : Vector locationT) (g : game) : outcome game :=
  match fuel with
  | O => OutOfFuel
  | S fuel' =>
      let here := mkLoc row col in
      let visited := add visited here in
      tok ← gridAt (board g) row col;
      let soFar := (soFar +:+ tok)%string in
      if negb (containsPrefix lex soFar) then Ret g
      else
        let g :=
          if containsWord lex soFar && negb (bool_decide (soFar ∈ wordsSeen g))
             && (3 <? String.length soFar)%nat
          then addSeen soFar (emit [RecordWordForPlayer soFar Computer] g)
          else g in
        forGrid (board g) (fun i j g =>
          if AreNeighbors row col i j && NotDuplicated i j visited
          then FindAllWords fuel' i j lex soFar visited g
          else Ret g) g
  end.

(** ** ComputerTurn *)

Definition ComputerTurn (fuel : nat) (lex : Lexicon) (g : game) : outcome game :=
  forGrid (board g) (fun i j g => FindAllWords fuel i j lex EmptyString [] g) g.

(** ** The enumeration without prefix pruning

    The enumeration as the specification describes its unpruned variant:
    [FindAllWords] with the [containsPrefix] test removed, so that it always
    records and recurses. *)

Fixpoint FindAllWords_unpruned (fuel : nat) (row col : Z) (lex : Lexicon)
  (soFar : string) (visited : Vector locationT) (g : game) : outcome game :=
  match fuel with
  | O => OutOfFuel
  | S fuel' =>
      let here := mkLoc row col in
      let visited := add visited here in
      tok ← gridAt (board g) row col;
      let soFar := (soFar +:+ tok)%string in
      let g :=
        if containsWord lex soFar && negb (bool_decide (soFar ∈ wordsSeen g))
           && (3 <? String.length soFar)%nat
        then addSeen soFar (emit [RecordWordForPlayer soFar Computer] g)
        else g in
      forGrid (board g) (fun i j g =>
        if AreNeighbors row col i j && NotDuplicated i j visited
        then FindAllWords_unpruned fuel' i j lex soFar visited g
        else Ret g) g
  end.

Definition ComputerTurn_unpruned (fuel : nat) (lex : Lexicon) (g : game)
  : outcome game :=
  forGrid (board g)
    (fun i j g => FindAllWords_unpruned fuel i j lex EmptyString [] g) g.

(** ** The enumeration with the predecessor as the second pair

    [FindAllWords] as it would read if it passed the cell it stands on to
    [AreNeighbors] as the second pair, the way [Findable] passes its
    predecessor. *)

Fixpoint FindAllWords_predecessor_second (fuel : nat) (row col : Z)
  (lex : Lexicon) (soFar : string) (visited : Vector locationT) (g : game)
  : outcome game :=
  match fuel with
  | O => OutOfFuel
  | S fuel' =>
      let here := mkLoc row col in
      let visited := add visited here in
      tok ← gridAt (board g) row col;
      let soFar := (soFar +:+ tok)%string in
      if negb (containsPrefix lex soFar) then Ret g
      else
        let g :=
          if containsWord lex soFar && negb (bool_decide (soFar ∈ wordsSeen g))
             && (3 <? String.length soFar)%nat
          then addSeen soFar (emit [RecordWordForPlayer soFar Computer] g)
          else g in
        forGrid (board g) (fun i j g =>
          if AreNeighbors i j row col && NotDuplicated i j visited
          then FindAllWords_predecessor_second fuel' i j lex soFar visited g
          else Ret g) g
  end.

(** ** Vocabulary of the properties *)

Definition tokenAt (board : Grid) (l : locationT) : string :=
  cell board (numRow l) (numCol l).

Definition onBoard (board : Grid) (l : locationT) : bool :=
  inBounds board (numRow l) (numCol l).

(** The word spelled by a path: its tokens, concatenated in order. *)
Fixpoint spell (board : Grid) (path : list locationT) : string :=
  match path with
  | [] => EmptyString
  | l :: rest => (tokenAt board l +:+ spell board rest)%string
  end.

(** Every cell of [path] passes [AreNeighbors] against its predecessor, the
    first one against [(prevRow, prevCol)]. *)
Fixpoint chained (prevRow prevCol : Z) (path : list locationT) : bool :=
  match path with
  | [] => true
  | l :: rest =>
      AreNeighbors (numRow l) (numCol l) prevRow prevCol
      && chained (numRow l) (numCol l) rest
  end.

(** The test of [Findable] a cell has to pass to extend the path. *)
Definition cellGuard (board : Grid) (word : string) (row col : Z)
  (locations : Vector locationT) (l : locationT) : bool :=
  String.eqb (tokenAt board l) (String.substring 0 1 word)
  && AreNeighbors (numRow l) (numCol l) row col
  && NotDuplicated (numRow l) (numCol l) locations.

(** Boards whose tokens all satisfy a test. *)
Definition allTokens (test : string → bool) (board : Grid) : bool :=
  forallb (fun l => test (tokenAt board l)) (allCells board).

Definition nonEmpty (tok : string) : bool :=
  negb (String.eqb tok EmptyString).

(** A token made of one character that [toupper] leaves alone. *)
Definition singleUpper (tok : string) : bool :=
  match tok with
  | String ch EmptyString => bool_decide (toupper ch = ch)
  | _ => false
  end.

(** The contract of the lexicon's prefix query, "is this string a prefix of
    some word": it accepts every prefix of every word the lexicon contains.
    (Only this half of the contract is needed below.) *)
Definition prefixClosed (lex : Lexicon) : Prop :=
  ∀ p s : string, containsWord lex (p +:+ s) = true → containsPrefix lex p = true.

(** The lexicon with the same words whose prefix query accepts everything. *)
Definition withoutPruning (lex : Lexicon) : Lexicon :=
  mkLexicon (containsWord lex) (fun _ => true).

(** A lexicon holding the words of a list, insensitive to case. *)
Definition lexiconOfWords (ws : list string) : Lexicon :=
  mkLexicon
    (fun s => existsb (String.eqb (ConvertToUpperCase s))
                      (map ConvertToUpperCase ws))
    (fun s => existsb (String.prefix (ConvertToUpperCase s))
                      (map ConvertToUpperCase ws)).

(** The words the display has recorded for a player. *)
Definition recordedFor (p : playerT) (d : list event) : list string :=
  omap (fun e => match e with
                 | RecordWordForPlayer w q =>
                     if bool_decide (p = q) then Some w else None
                 | _ => None
                 end) d.

(** The characters of a string. *)
Fixpoint chars (s : string) : list ascii :=
  match s with
  | EmptyString => []
  | String c s' => c :: chars s'
  end.

(** The paths [Findable] adds: [traces board w row col locations p] holds
    when [p] extends [locations] cell by cell, each cell bearing the next
    character of [w], passing [AreNeighbors] against the previous one (the
    first against [(row, col)]) and [NotDuplicated] against the path so far. *)
Inductive traces (board : Grid)
  : string → Z → Z → list locationT → list locationT → Prop :=
| traces_done row col locations :
    traces board EmptyString row col locations locations
| traces_step ch w row col locations i j p :
    inBounds board i j = true →
    cell board i j = String ch EmptyString →
    AreNeighbors i j row col = true →
    NotDuplicated i j locations = true →
    traces board w i j (locations ++ [mkLoc i j]) p →
    traces board (String ch w) row col locations p.

(** The words [FindAllWords] reaches from a cell: [reaches board lex soFar
    visited row col w] holds when some walk from [(row, col)] through
    neighbouring cells outside [visited], every prefix of which the lexicon
    accepts as a prefix, extends [soFar] to the word [w] of the lexicon, of
    more than three characters. *)
Inductive reaches (board : Grid) (lex : Lexicon)
  : string → list locationT → Z → Z → string → Prop :=
| reaches_here soFar visited row col :
    inBounds board row col = true →
    containsPrefix lex (soFar +:+ cell board row col) = true →
    containsWord lex (soFar +:+ cell board row col) = true →
    (3 < String.length (soFar +:+ cell board row col))%nat →
    reaches board lex soFar visited row col (soFar +:+ cell board row col)
| reaches_next soFar visited row col i j w :
    inBounds board row col = true →
    containsPrefix lex (soFar +:+ cell board row col) = true →
    inBounds board i j = true →
    AreNeighbors row col i j = true →
    NotDuplicated i j (visited ++ [mkLoc row col]) = true →
    reaches board lex (soFar +:+ cell board row col)
            (visited ++ [mkLoc row col]) i j w →
    reaches board lex soFar visited row col w.

(** The recording step of [FindAllWords] on the string built so far. *)
Definition recordWord (lex : Lexicon) (soFar : string) (g : game) : game :=
  if containsWord lex soFar && negb (bool_decide (soFar ∈ wordsSeen g))
     && (3 <? String.length soFar)%nat
  then addSeen soFar (emit [RecordWordForPlayer soFar Computer] g)
  else g.

(** The test of [FindAllWords] a cell has to pass to be visited next. *)
Definition nextGuard (row col : Z) (visited : Vector locationT) (l : locationT)
  : bool :=
  AreNeighbors row col (numRow l) (numCol l)
  && NotDuplicated (numRow l) (numCol l) visited.

(** [records R g g']: the game [g'] is [g] after the words [news] were
    recorded for the computer and claimed, [news] holding exactly the words
    that satisfy [R] and were not claimed in [g]. *)
Definition records (R : string → Prop) (g g' : game) : Prop :=
  ∃ news : list string,
    g' = mkGame (board g) (wordsSeen g ∪ list_to_set news)
           (display g ++ map (fun w => RecordWordForPlayer w Computer) news) ∧
    (∀ w, w ∈ news → w ∉ wordsSeen g) ∧
    (∀ w, w ∈ wordsSeen g ∨ w ∈ news ↔ w ∈ wordsSeen g ∨ R w).

(** The number of cells of the board outside [visited]: what bounds the
    depth of the recursion of [FindAllWords]. *)
Definition unvisited (board : Grid) (visited : Vector locationT) : nat :=
  length (filter (fun l => l ∉ visited) (allCells board)).

(** ** Concrete boards and lexicons *)

Definition boardCATS : Grid :=
  gridOfRows 4 4 [["C"; "A"; "T"; "S"]; ["O"; "R"; "E"; "N"];
                  ["X"; "X"; "X"; "X"]; ["X"; "X"; "X"; "X"]].

Definition boardQUIT : Grid := gridOfRows 1 3 [["QU"; "I"; "T"]].

(** The 1x1 board a [Grid<string>] is before its cells are assigned. *)
Definition boardBlank : Grid := gridOfRows 1 1 [[EmptyString]].

Definition lexCATS : Lexicon := lexiconOfWords ["CAT"; "CATS"].

Definition lexQUIT : Lexicon := lexiconOfWords ["QUIT"].

Definition newGame (board : Grid) : game := mkGame board ∅ [].

(** * The rest of the program

    The functions of [boggle.cpp] around the searches: the two ways of
    setting the board up, the turn of the player, and [main]. Their
    [while (true)] loops take fuel like the recursions, one unit per
    iteration. *)

(** ** The console, the random numbers and the cube labels *)

(** The console: the lines of input not read yet, and what [cout] has
    printed, one element per [<<]. *)
Record console : Type := mkConsole {
  pending : list string;
  printed : list string
}.

(** [GetLine] of simpio.h: the next line of the input, the empty string once
    the input is exhausted. *)
Definition GetLine (c : console) : string * console :=
  match pending c with
  | [] => (EmptyString, c)
  | line :: rest => (line, mkConsole rest (printed c))
  end.

Definition cout (text : string) (c : console) : console :=
  mkConsole (pending c) (printed c ++ [text]).

Definition endl : string := String (ascii_of_nat 10) EmptyString.

(** The random number generator of random.h, as the sequence [raw] of its
    draws and the number of draws made. [RandomInteger low high] returns some
    integer of [low .. high]: the next draw, reduced to that range. *)
Record random : Type := mkRandom {
  raw : nat → nat;
  drawn : nat
}.

Definition RandomInteger (low high : Z) (r : random) : Z * random :=
  (low + Z.of_nat (raw r (drawn r)) mod (high - low + 1),
   mkRandom (raw r) (S (drawn r))).

Arguments RandomInteger : simpl never.

(** The calls that draw the board: [SetWindowSize] and [InitGraphics] of
    extgraph.h, [DrawBoard] and [LabelCube] of gboggle.h. *)
Inductive drawing : Type :=
| SetWindowSize (width height : Z)
| InitGraphics
| DrawBoard (rows cols : Z)
| LabelCube (row col : Z) (letter : ascii).

(** [a[k]] on a C array and [s[k]] on a [std::string]: reading outside the
    array is a fault; a string read at its length gives the null character
    that ends it, and further out is a fault. *)
Definition arrayAt (a : list string) (k : Z) : outcome string :=
  if (0 <=? k) && (k <? Z.of_nat (length a))
  then match a !! Z.to_nat k with Some s => Ret s | None => Fault end
  else Fault.

Definition charAt (s : string) (k : Z) : outcome ascii :=
  if 0 <=? k
  then match String.get (Z.to_nat k) s with
       | Some c => Ret c
       | None => if k =? Z.of_nat (String.length s) then Ret Ascii.zero
                 else Fault
       end
  else Fault.

(** [board(row, col) = value], bounds-checked like the read. *)
Definition gridSet (board : Grid) (row col : Z) (value : string) : outcome Grid :=
  if inBounds board row col
  then Ret (mkGrid (numRows board) (numCols board)
              (fun r c => if (r =? row) && (c =? col) then value
                          else cell board r c))
  else Fault.

Definition StandardCubes : list string :=
  ["AAEEGN"; "ABBJOO"; "ACHOPS"; "AFFKPS"; "AOOTTW"; "CIMOTU"; "DEILRX";
   "DELRVY"; "DISTTY"; "EEGHNW"; "EEINSU"; "EHRTVW"; "EIOSST"; "ELRTTY";
   "HIMNQU"; "HLNNRZ"].

(** ** InitializeBoard *)

(** The loop that labels the cubes of the display with the first character
    of each cell, at the end of both set-up functions. *)
Definition labelCubes (board : Grid) : outcome (list drawing) :=
  forGrid board (fun i j labels =>
    tok ← gridAt board i j;
    letter ← charAt tok 0;
    Ret (labels ++ [LabelCube i j letter])) [].

Definition InitializeBoard (board : Grid) (r : random)
  : outcome (Grid * random * list drawing) :=
  st ← forGrid board (fun i j st =>
          let '(board, r) := st in
          let '(RandNum, r) := RandomInteger 0 5 r in
          cube ← arrayAt StandardCubes (i * Z.of_nat (numCols board) + j);
          face ← charAt cube RandNum;
          board ← gridSet board i j (String face EmptyString);
          Ret (board, r))
        (board, r);
  st ← forGrid board (fun i j st =>
          let '(board, r) := st in
          let '(RandRow, r) :=
            RandomInteger 0 (Z.of_nat (numRows board) - 1) r in
          let '(RandCol, r) :=
            RandomInteger 0 (Z.of_nat (numCols board) - 1) r in
          s1 ← gridAt board i j;
          s2 ← gridAt board RandRow RandCol;
          board ← gridSet board i j s2;
          board ← gridSet board RandRow RandCol s1;
          Ret (board, r))
        st;
  labels ← labelCubes (fst st);
  Ret (fst st, snd st, labels).

(** ** UserConfigureBoard *)

(** What [UserConfigureBoard] does once its loop has read a configuration of
    16 characters or more. *)
Definition placeConfiguration (board : Grid) (config : string)
  : outcome (Grid * list drawing) :=
  config ← (if (16 <? String.length config)%nat
            then substr config 0 16 else Ret config);
  board ← forGrid board (fun i j board =>
             letter ← charAt config (i * Z.of_nat (numCols board) + j);
             gridSet board i j (String letter EmptyString))
           board;
  labels ← labelCubes board;
  Ret (board, labels).

Fixpoint UserConfigureBoard (fuel : nat) (board : Grid) (c : console)
  : outcome (Grid * console * list drawing) :=
  match fuel with
  | O => OutOfFuel
  | S fuel' =>
      let c :=
        cout endl
          (cout "Please enter your configuration. It must be 16 letters: " c) in
      let '(line, c) := GetLine c in
      let config := ConvertToUpperCase line in
      if (15 <? String.length config)%nat then
        placed ← placeConfiguration board config;
        Ret (fst placed, c, snd placed)
      else
        UserConfigureBoard fuel' board
          (cout endl (cout "String too short. Enter another string" c))
  end.

(** ** PlayerTurn *)

(** [fuel] is for the searches of [WordIsValid], [turns] for the loop. *)
Fixpoint PlayerTurn (fuel turns : nat) (lex : Lexicon) (g : game) (c : console)
  : outcome (game * console) :=
  match turns with
  | O => OutOfFuel
  | S turns' =>
      let c :=
        cout "Please enter a word found in the puzzle (ENTER to finish): " c in
      let '(word, c) := GetLine c in
      let word := ConvertToUpperCase word in
      if String.eqb word EmptyString then Ret (g, c)
      else
        r ← WordIsValid fuel word lex g;
        if (fst r : bool)
        then PlayerTurn fuel turns' lex (putWordOnBoard word (snd r)) c
        else PlayerTurn fuel turns' lex (snd r)
               (cout "Sorry, that word is invalid. " c)
  end.

(** ** Welcome, GiveInstructions and main *)

Definition Welcome (c : console) : console :=
  cout endl (cout endl
    (cout "dictionary-toting hunk of silicon.  If only YOU had a gig of RAM..."
    (cout "bad news is that you're probably going to lose miserably to this little "
    (cout "The good news is that you might improve your vocabulary a bit.  The "
    (cout "Welcome!  You're about to play an intense game of mind-numbing Boggle. "
       c))))).

Definition GiveInstructions (c : console) : console :=
  let c :=
    cout endl
    (cout "will find all the remaining words and double or triple your paltry score."
    (cout "points, and so on. After your puny brain is exhausted, I, the super computer, "
    (cout "based on word length: a 4-letter word is worth 1 point, 5-letters earn 2 "
    (cout "must be at least 4 letters long and can only be counted once. You score points "
    (cout "vertically, or diagonally. A letter can only be used once in the word. Words "
    (cout "letters. Two letters adjoin if they are next to each other horizontally, "
    (cout "entering all the words you can find that are formed by tracing adjoining "
    (cout "creating a grid of letters on which you try to form words. You go first, "
    (cout "cubes. These 6-sided cubes have letters rather than numbers on the faces, "
    (cout "The boggle board is a grid onto which I will randomly distribute "
    (cout endl c))))))))))) in
  let c := cout (endl +:+ "Hit return when you're ready...") c in
  snd (GetLine c).

(** [main], with the lexicon read from lexicon.dat as [lex]. Each turn of
    its loop plays one game; the result lists the games played, each with
    the drawings that set its display up. [Randomize] reseeds the generator:
    the draws that follow are whatever [raw] holds next. *)
Fixpoint main (fuel : nat) (lex : Lexicon) (r : random) (c : console)
  : outcome (list (game * list drawing) * random * console) :=
  match fuel with
  | O => OutOfFuel
  | S fuel' =>
      let board := mkGrid 4 4 (fun _ _ => EmptyString) in
      let setup := [SetWindowSize 9 5; InitGraphics; DrawBoard 4 4] in
      let c := GiveInstructions (Welcome c) in
      let c := cout "Would you like to configure the board? " c in
      let '(response, c) := GetLine c in
      let response := ConvertToUpperCase response in
      set ← (if String.eqb response "YES"
             then configured ← UserConfigureBoard fuel' board c;
                  Ret (fst (fst configured), r, snd (fst configured),
                       snd configured)
             else initialized ← InitializeBoard board r;
                  Ret (fst (fst initialized), snd (fst initialized), c,
                       snd initialized));
      let '(board, r, c, labels) := set in
      played ← PlayerTurn fuel' fuel' lex (mkGame board ∅ []) c;
      g ← ComputerTurn fuel' lex (fst played);
      let c := cout "Would you like to play again? " (snd played) in
      let '(response, c) := GetLine c in
      let response := ConvertToUpperCase response in
      if negb (String.eqb response "YES")
      then Ret ([(g, setup ++ labels)], r, c)
      else
        rest ← main fuel' lex r c;
        Ret ((g, setup ++ labels) :: fst (fst rest), snd (fst rest), snd rest)
  end.

(** ** Vocabulary of the further properties *)

(** The tokens of the board, in row-major order. *)
Definition boardTokens (board : Grid) : list string :=
  map (tokenAt board) (allCells board).

(** The token rolled for the cell number [k]: the face of the cube number
    [k] that the draw number [k] after [r] selects. *)
Definition rolled (r : random) (k : nat) (tok : string) : Prop :=
  ∃ cube face,
    StandardCubes !! k = Some cube ∧
    chars cube !! (raw r (drawn r + k) mod 6)%nat = Some face ∧
    tok = String face EmptyString.

(** The cubes of the display show the first character of each cell. *)
Definition labelled (board : Grid) (labels : list drawing) : Prop :=
  Forall2 (fun l d => ∃ letter rest,
             tokenAt board l = String letter rest ∧
             d = LabelCube (numRow l) (numCol l) letter)
          (allCells board) labels.

(** The words on the scoreboard: those recorded for either player. *)
Definition scored (d : list event) : list string :=
  omap (fun e => match e with
                 | RecordWordForPlayer w _ => Some w
                 | _ => None
                 end) d.

(** The scoreboard is sound when it shows no word twice and only words of
    [wordsSeen]. *)
Definition scoreboardSound (g : game) : Prop :=
  NoDup (scored (display g)) ∧ ∀ w, w ∈ scored (display g) → w ∈ wordsSeen g.

(** The cubes left highlighted by the calls of a display, oldest first. *)
Fixpoint highlighted (d : list event) (lit : list locationT) : list locationT :=
  match d with
  | [] => lit
  | HighlightCube row col true :: d' => highlighted d' (lit ++ [mkLoc row col])
  | HighlightCube row col false :: d' =>
      highlighted d' (filter (fun l => l ≠ mkLoc row col) lit)
  | _ :: d' => highlighted d' lit
  end.

(** The board of four rows and four columns [main] creates. *)
Definition board4x4 : Grid := mkGrid 4 4 (fun _ _ => EmptyString).

(** A source of random numbers for examples. *)
Definition someRandom : random := mkRandom (fun k => (7 * k + 3)%nat) 0.

(** A word is valid on a board when it is in upper case, [Findable] traces
    it, the lexicon holds it and it has four characters or more. *)
Definition validWord (board : Grid) (lex : Lexicon) (w : string) : Prop :=
  ConvertToUpperCase w = w ∧
  (∃ paths, Findable (S (String.length w)) board w (-1) (-1) [] [] = Ret paths ∧
            paths ≠ []) ∧
  containsWord lex w = true ∧
  (4 ≤ String.length w)%nat.

(** * Properties *)

(** ** Bounds and the cells of a board *)

Lemma inBounds_spec board row col :
  inBounds board row col = true ↔
  0 ≤ row < Z.of_nat (numRows board) ∧ 0 ≤ col < Z.of_nat (numCols board).
Proof. unfold inBounds. rewrite !andb_true_iff. lia. Qed.

Lemma gridAt_inBounds board row col :
  inBounds board row col = true → gridAt board row col = Ret (cell board row col).
Proof. unfold gridAt. by intros ->. Qed.

Lemma gridAt_Ret board row col tok :
  gridAt board row col = Ret tok →
  inBounds board row col = true ∧ tok = cell board row col.
Proof. unfold gridAt. destruct (inBounds board row col); naive_solver. Qed.

Lemma elem_of_upto n i : i ∈ upto n ↔ 0 ≤ i < Z.of_nat n.
Proof.
  unfold upto. rewrite list_elem_of_fmap. split.
  - intros (k & -> & Hk). apply elem_of_seq in Hk. lia.
  - intros Hi. exists (Z.to_nat i). split; [lia|]. apply elem_of_seq. lia.
Qed.

Lemma elem_of_allCells board l : l ∈ allCells board ↔ onBoard board l = true.
Proof.
  unfold allCells, onBoard. rewrite inBounds_spec, list_elem_of_In, in_flat_map.
  split.
  - intros (i & Hi & Hl). apply list_elem_of_In, elem_of_upto in Hi.
    apply list_elem_of_In, list_elem_of_fmap in Hl as (j & -> & Hj).
    apply elem_of_upto in Hj. simpl. lia.
  - intros [Hr Hc]. exists (numRow l). split.
    + apply list_elem_of_In, elem_of_upto. lia.
    + apply list_elem_of_In, list_elem_of_fmap. exists (numCol l).
      split; [by destruct l|]. apply elem_of_upto. lia.
Qed.

Lemma length_upto n : length (upto n) = n.
Proof. unfold upto. by rewrite length_map, length_seq. Qed.

Lemma length_allCells board :
  length (allCells board) = (numRows board * numCols board)%nat.
Proof.
  unfold allCells.
  transitivity (length (upto (numRows board)) * length (upto (numCols board)))%nat;
    [|by rewrite !length_upto].
  induction (upto (numRows board)) as [|r rows IH]; [done|].
  simpl. rewrite length_app, IH, length_map. lia.
Qed.

(** ** Loops *)

Section Loops.
Context {A S : Type}.
Implicit Types (body : A → S → outcome S) (l : list A) (s : S).

Lemma foldM_cons body x l s :
  foldM body (x :: l) s = (s' ← body x s; foldM body l s').
Proof. reflexivity. Qed.

Lemma foldM_app body l1 l2 s :
  foldM body (l1 ++ l2) s = (s' ← foldM body l1 s; foldM body l2 s').
Proof.
  revert s. induction l1 as [|x l1 IH]; intros s; simpl; [done|].
  destruct (body x s); simpl; auto.
Qed.

(** A loop invariant, indexed by the elements already processed. *)
Lemma foldM_invariant (P : list A → S → Prop) body l s s' :
  P [] s →
  (∀ pre x s1 s2, x ∈ l → P pre s1 → body x s1 = Ret s2 → P (pre ++ [x]) s2) →
  foldM body l s = Ret s' →
  P l s'.
Proof.
  intros Hinit Hstep.
  assert (Hgen : ∀ post pre s1,
    (∀ x, x ∈ post → x ∈ l) → P pre s1 → foldM body post s1 = Ret s' →
    P (pre ++ post) s').
  { induction post as [|x post IH]; intros pre s1 Hin Hpre Hrun; simpl in Hrun.
    - rewrite app_nil_r. congruence.
    - destruct (body x s1) as [s2| |] eqn:Hbody; simpl in Hrun; try done.
      replace (pre ++ x :: post) with ((pre ++ [x]) ++ post)
        by (by rewrite <- app_assoc).
      apply (IH _ s2); [| |done].
      + intros y Hy. apply Hin. by right.
      + apply (Hstep pre x s1 s2); [apply Hin; by left|done|done]. }
  intros Hrun. by apply (Hgen l [] s).
Qed.

(** A loop whose body returns under an invariant returns. *)
Lemma foldM_returns (I : S → Prop) body l s :
  I s →
  (∀ x s1, x ∈ l → I s1 → ∃ s2, body x s1 = Ret s2 ∧ I s2) →
  ∃ s', foldM body l s = Ret s' ∧ I s'.
Proof.
  revert s. induction l as [|x l IH]; intros s Hs Hbody; simpl.
  - by exists s.
  - destruct (Hbody x s) as (s2 & -> & Hs2); [by left|done|]. simpl.
    apply IH; [done|]. intros y s1 Hy. apply Hbody. by right.
Qed.

(** Two loops whose bodies agree on the elements of the list agree. *)
Lemma foldM_ext body1 body2 l s :
  (∀ x s1, x ∈ l → body1 x s1 = body2 x s1) →
  foldM body1 l s = foldM body2 l s.
Proof.
  revert s. induction l as [|x l IH]; intros s Hext; simpl; [done|].
  rewrite (Hext x s) by (by left).
  destruct (body2 x s); simpl; auto. apply IH. intros y s1 Hy.
  apply Hext. by right.
Qed.
End Loops.

Lemma forGrid_allCells {S : Type} board (body : Z → Z → S → outcome S) s :
  forGrid board body s =
  foldM (fun l s => body (numRow l) (numCol l) s) (allCells board) s.
Proof.
  unfold forGrid, allCells. revert s.
  induction (upto (numRows board)) as [|i rows IH]; intros s; simpl; [done|].
  rewrite foldM_app.
  assert (Hrow : ∀ cols s0,
    foldM (λ j s1, body i j s1) cols s0 =
    foldM (λ l s1, body (numRow l) (numCol l) s1) (map (λ j, mkLoc i j) cols) s0).
  { induction cols as [|j cols IHc]; intros s0; simpl; [done|].
    destruct (body i j s0); simpl; auto. }
  rewrite Hrow. destruct (foldM _ (map _ _) s); simpl; auto.
Qed.

(** ** AreNeighbors and NotDuplicated *)

Lemma AreNeighbors_sentinel row1 col1 : AreNeighbors row1 col1 (-1) (-1) = true.
Proof. reflexivity. Qed.

Lemma AreNeighbors_spec row1 col1 row2 col2 :
  ¬ (row2 = -1 ∧ col2 = -1) →
  AreNeighbors row1 col1 row2 col2 = true ↔
  (row1 ≠ row2 ∨ col1 ≠ col2) ∧ Z.abs (row1 - row2) ≤ 1 ∧ Z.abs (col1 - col2) ≤ 1.
Proof.
  intros Hs. unfold AreNeighbors.
  destruct (Z.eqb_spec row2 (-1)), (Z.eqb_spec col2 (-1)); simpl; try lia;
  destruct (Z.gtb_spec (row1 - row2) 1), (Z.gtb_spec (row2 - row1) 1),
           (Z.gtb_spec (col1 - col2) 1), (Z.gtb_spec (col2 - col1) 1); simpl;
  try (split; [done|lia]);
  destruct (Z.eqb_spec row1 row2), (Z.eqb_spec col1 col2); simpl;
  try (split; [done|lia]); split; intros; lia.
Qed.

Lemma AreNeighbors_sym row1 col1 row2 col2 :
  0 ≤ row1 → 0 ≤ row2 →
  AreNeighbors row1 col1 row2 col2 = AreNeighbors row2 col2 row1 col1.
Proof.
  intros H1 H2. apply eq_true_iff_eq.
  rewrite !AreNeighbors_spec by lia. lia.
Qed.

Lemma NotDuplicated_spec row col locations :
  NotDuplicated row col locations = true ↔ mkLoc row col ∉ locations.
Proof.
  induction locations as [|[r c] rest IH]; simpl.
  - split; [intros _; apply not_elem_of_nil | done].
  - rewrite not_elem_of_cons, <- IH.
    destruct (Z.eqb_spec r row), (Z.eqb_spec c col); simpl; subst;
      split; try done; try (intros [Hne _]; by destruct Hne);
      try (intros Hnd; split; [congruence|done]); by intros [_ Hnd].
Qed.

(** ** Strings *)

Lemma toupper_idemp c : toupper (toupper c) = toupper c.
Proof. destruct c as [[] [] [] [] [] [] [] []]; reflexivity. Qed.

Lemma ConvertToUpperCase_idemp s :
  ConvertToUpperCase (ConvertToUpperCase s) = ConvertToUpperCase s.
Proof. induction s as [|c s IH]; simpl; [done|]. by rewrite toupper_idemp, IH. Qed.

Lemma ConvertToUpperCase_length s :
  String.length (ConvertToUpperCase s) = String.length s.
Proof. induction s as [|c s IH]; simpl; [done|]. by rewrite IH. Qed.

Lemma append_cons c (s t : string) : (String c s +:+ t)%string = String c (s +:+ t).
Proof. reflexivity. Qed.

Lemma append_nil_l (s : string) : (EmptyString +:+ s)%string = s.
Proof. reflexivity. Qed.

Lemma ConvertToUpperCase_app s t :
  ConvertToUpperCase (s +:+ t) = (ConvertToUpperCase s +:+ ConvertToUpperCase t)%string.
Proof.
  induction s as [|c s IH]; [done|].
  rewrite append_cons. simpl. by rewrite IH.
Qed.

Lemma substring_all s : String.substring 0 (String.length s) s = s.
Proof. induction s as [|c s IH]; simpl; [done|]. by rewrite IH. Qed.

Lemma substring_first_cons c s : String.substring 0 1 (String c s) = String c EmptyString.
Proof. simpl. by destruct s. Qed.

Lemma substrFrom_cons c s : substrFrom (String c s) 1 = Ret s.
Proof.
  unfold substrFrom. simpl. rewrite Nat.sub_0_r.
  destruct s as [|d s]; simpl; [done|]. by rewrite substring_all.
Qed.

Lemma append_assoc (s t u : string) : ((s +:+ t) +:+ u = s +:+ (t +:+ u))%string.
Proof. induction s as [|c s IH]; [done|]. by rewrite !append_cons, IH. Qed.

Lemma append_nil_r (s : string) : (s +:+ EmptyString)%string = s.
Proof. induction s as [|c s IH]; [done|]. by rewrite append_cons, IH. Qed.

Lemma prefix_append (p s : string) : String.prefix p (p +:+ s) = true.
Proof.
  induction p as [|c p IH]; [by destruct s|].
  rewrite append_cons. simpl. destruct (ascii_dec c c); [done|congruence].
Qed.

(** ** Vectors *)

Lemma removeAt_add {A : Type} (v : Vector A) (x : A) :
  removeAt (add v x) (Z.of_nat (length (add v x)) - 1) = Ret v.
Proof.
  unfold removeAt, add. rewrite length_app. simpl.
  replace (Z.of_nat (length v + 1) - 1) with (Z.of_nat (length v)) by lia.
  rewrite Nat2Z.id.
  destruct (Z.leb_spec 0 (Z.of_nat (length v))); [|lia].
  destruct (Z.ltb_spec (Z.of_nat (length v)) (Z.of_nat (length v + 1))); [|lia].
  simpl. f_equal. clear. induction v as [|y v IH]; simpl; [done|]. by f_equal.
Qed.

(** ** Findable *)

Lemma Findable_unfold fuel board word row col locations answers :
  Findable (S fuel) board word row col locations answers =
  (st ← foldM (FindableCell (Findable fuel board) board
                 (ConvertToUpperCase word) row col)
              (allCells board)
              (locations,
               if (String.length (ConvertToUpperCase word) =? 0)%nat
               then add answers locations else answers);
   Ret (snd st)).
Proof. simpl. by rewrite forGrid_allCells. Qed.

Lemma FindableCell_eq recur board word row col l locations answers :
  onBoard board l = true →
  FindableCell recur board word row col l (locations, answers) =
  if cellGuard board word row col locations l then
    match word with
    | EmptyString => Fault
    | String _ rest =>
        answers' ← recur rest (numRow l) (numCol l) (locations ++ [l]) answers;
        Ret (locations, answers')
    end
  else Ret (locations, answers).
Proof.
  intros Hon. unfold FindableCell, cellGuard, tokenAt.
  rewrite gridAt_inBounds by done. simpl.
  replace (mkLoc (numRow l) (numCol l)) with l by (by destruct l).
  destruct (_ && _ && _); [|done].
  destruct word as [|ch rest]; [done|].
  rewrite substrFrom_cons. simpl.
  destruct (recur _ _ _ _ _); simpl; try done.
  change (locations ++ [l]) with (add locations l).
  by rewrite removeAt_add.
Qed.

(** The answers already collected do not influence the search: a call
    appends to them what it would have found from none. *)
Lemma Findable_acc fuel : ∀ board word row col locations answers,
  Findable fuel board word row col locations answers =
  (new ← Findable fuel board word row col locations []; Ret (answers ++ new)).
Proof.
  induction fuel as [|fuel IH]; intros board word row col locations answers;
    [done|].
  rewrite !Findable_unfold.
  set (w := ConvertToUpperCase word).
  set (first := if (String.length w =? 0)%nat then [locations] else []).
  replace (if (String.length w =? 0)%nat then add answers locations else answers)
    with (answers ++ first) by (subst first; destruct (_ =? _)%nat;
                                 [done | by rewrite app_nil_r]).
  replace (if (String.length w =? 0)%nat then add [] locations else [])
    with first by (subst first; by destruct (_ =? _)%nat).
  assert (Hloop : ∀ cs, (∀ l, l ∈ cs → onBoard board l = true) → ∀ x,
    foldM (FindableCell (Findable fuel board) board w row col) cs
          (locations, answers ++ x) =
    (st ← foldM (FindableCell (Findable fuel board) board w row col) cs
                (locations, x);
     Ret (locations, answers ++ snd st))).
  { induction cs as [|l cs IHcs]; intros Hon x; [done|].
    rewrite !foldM_cons, !FindableCell_eq by (apply Hon; by left).
    destruct (cellGuard board w row col locations l).
    - destruct w as [|ch rest]; [done|].
      rewrite (IH board rest _ _ _ (answers ++ x)), (IH board rest _ _ _ x).
      destruct (Findable fuel board rest _ _ _ []) as [new| |]; simpl; try done.
      rewrite <- app_assoc. apply IHcs. intros l' Hl'. apply Hon. by right.
    - simpl. apply IHcs. intros l' Hl'. apply Hon. by right. }
  rewrite Hloop by (intros l Hl; by apply elem_of_allCells).
  by destruct (foldM _ (allCells board) (locations, first)).
Qed.

Lemma cellGuard_true board word row col locations l :
  cellGuard board word row col locations l = true ↔
  tokenAt board l = String.substring 0 1 word ∧
  AreNeighbors (numRow l) (numCol l) row col = true ∧
  NotDuplicated (numRow l) (numCol l) locations = true.
Proof.
  unfold cellGuard. rewrite !andb_true_iff, String.eqb_eq. tauto.
Qed.

(** [Findable] started from no answers returns exactly the [traces]. *)
Lemma Findable_traces fuel : ∀ board word row col locations answers,
  Findable fuel board word row col locations [] = Ret answers →
  ∀ p, p ∈ answers ↔ traces board (ConvertToUpperCase word) row col locations p.
Proof.
  induction fuel as [|fuel IH]; intros board word row col locations answers;
    [done|].
  rewrite Findable_unfold.
  pose proof (ConvertToUpperCase_idemp word) as Hidem.
  remember (ConvertToUpperCase word) as w eqn:Hw0. clear Hw0 word.
  remember (if (String.length w =? 0)%nat then add [] locations else [])
    as first eqn:Hfirst.
  destruct (foldM _ (allCells board) (locations, first)) as [st| |] eqn:Hrun;
    simpl; try done.
  intros [= <-].
  apply (foldM_invariant (fun pre st =>
    fst st = locations ∧
    ∀ p, p ∈ snd st ↔
      p ∈ first ∨
      ∃ l ch rest, l ∈ pre ∧ cellGuard board w row col locations l = true ∧
        w = String ch rest ∧
        traces board rest (numRow l) (numCol l) (locations ++ [l]) p)) in Hrun.
  - destruct Hrun as [_ Hst]. intros p. rewrite Hst. split.
    + intros [Hp | (l & ch & rest & Hl & Hg & Hw & Htr)].
      * destruct w; simpl in Hfirst; subst first; [|by apply elem_of_nil in Hp].
        apply list_elem_of_singleton in Hp as ->. constructor.
      * subst w. apply cellGuard_true in Hg as (Htok & Hn & Hd).
        rewrite substring_first_cons in Htok.
        apply elem_of_allCells in Hl. destruct l as [i j].
        by apply (traces_step board ch rest row col locations i j p).
    + intros Htr. inversion Htr as [|ch rest ? ? ? i j ? Hb Hc Hn Hd Htr' Hw]; subst.
      * left. simpl. by apply list_elem_of_singleton.
      * right. exists (mkLoc i j), ch, rest. split; [by apply elem_of_allCells|].
        split; [|done]. apply cellGuard_true.
        by rewrite substring_first_cons.
  - split; [done|]. intros p. split; [by left|].
    intros [Hp | (l & ? & ? & Hl & _)]; [done|]. by apply elem_of_nil in Hl.
  - intros pre l [locs acc] s2 Hl [Hlocs Hacc] Hbody. simpl in Hlocs, Hacc.
    subst locs. apply elem_of_allCells in Hl.
    rewrite FindableCell_eq in Hbody by done.
    destruct (cellGuard board w row col locations l) eqn:Hg.
    + destruct w as [|ch rest] eqn:Hw; [done|].
      rewrite Findable_acc in Hbody.
      destruct (Findable fuel board rest _ _ _ []) as [new| |] eqn:Hrec;
        simpl in Hbody; try done.
      injection Hbody as <-. simpl. split; [done|]. intros p.
      rewrite elem_of_app, Hacc, (IH _ _ _ _ _ _ Hrec p).
      assert (Hrest : ConvertToUpperCase rest = rest) by (simpl in Hidem; congruence).
      rewrite Hrest. split.
      * intros [[Hp | (l' & ch' & rest' & Hl' & Hg' & Hw' & Htr)] | Htr].
        -- by left.
        -- right. exists l', ch', rest'. rewrite elem_of_app. eauto.
        -- right. exists l, ch, rest. rewrite elem_of_app, list_elem_of_singleton. eauto.
      * intros [Hp | (l' & ch' & rest' & Hl' & Hg' & Hw' & Htr)]; [by left; left|].
        apply elem_of_app in Hl' as [Hl' | Hl'].
        -- left. right. exists l', ch', rest'. eauto.
        -- apply list_elem_of_singleton in Hl' as ->. injection Hw' as <- <-. by right.
    + injection Hbody as <-. simpl. split; [done|]. intros p. rewrite Hacc.
      split.
      * intros [Hp | (l' & ch' & rest' & Hl' & Hg' & Hw' & Htr)]; [by left|].
        right. exists l', ch', rest'. rewrite elem_of_app. eauto.
      * intros [Hp | (l' & ch' & rest' & Hl' & Hg' & Hw' & Htr)]; [by left|].
        apply elem_of_app in Hl' as [Hl' | Hl'].
        -- right. exists l', ch', rest'. eauto.
        -- apply list_elem_of_singleton in Hl' as ->. congruence.
Qed.

Lemma allTokens_spec test board :
  allTokens test board = true ↔
  ∀ l, onBoard board l = true → test (tokenAt board l) = true.
Proof.
  unfold allTokens. rewrite forallb_forall. split.
  - intros H l Hl. by apply H, list_elem_of_In, elem_of_allCells.
  - intros H l Hl. by apply H, elem_of_allCells, list_elem_of_In.
Qed.

(** On a board without empty tokens [Findable] returns: [word] bounds the
    depth of the recursion. *)
Lemma Findable_returns fuel : ∀ board word row col locations answers,
  allTokens nonEmpty board = true →
  (String.length word < fuel)%nat →
  ∃ answers', Findable fuel board word row col locations answers = Ret answers'.
Proof.
  induction fuel as [|fuel IH]; intros board word row col locations answers
    Htok Hlen; [lia|].
  rewrite Findable_unfold.
  rewrite <- ConvertToUpperCase_length in Hlen.
  remember (ConvertToUpperCase word) as w eqn:Hw0. clear Hw0 word.
  match goal with |- context [foldM ?body ?cs ?s0] =>
    destruct (foldM_returns (fun st => fst st = locations) body cs s0)
      as (st & -> & _) end; [done| |by eexists].
  intros l [locs acc] Hl Hlocs. simpl in Hlocs. subst locs.
  apply elem_of_allCells in Hl. rewrite FindableCell_eq by done.
  destruct (cellGuard board w row col locations l) eqn:Hg; [|by eexists].
  apply cellGuard_true in Hg as (Hfirst & _).
  pose proof (proj1 (allTokens_spec _ _) Htok l Hl) as Hne.
  destruct w as [|ch rest].
  - simpl in Hfirst. rewrite Hfirst in Hne. done.
  - destruct (IH board rest (numRow l) (numCol l) (locations ++ [l]) acc Htok)
      as (answers' & ->); [simpl in Hlen; lia|].
    simpl. by eexists.
Qed.

(** What a trace is made of. *)
Lemma traces_inv board w row col locations p :
  traces board w row col locations p →
  ∃ q, p = locations ++ q ∧
       spell board q = w ∧
       chained row col q = true ∧
       (∀ l, l ∈ q → onBoard board l = true
                      ∧ String.length (tokenAt board l) = 1%nat) ∧
       (NoDup locations → NoDup p).
Proof.
  induction 1 as [row col locations
                 |ch w row col locations i j p Hb Hc Hn Hd Htr IH].
  - exists []. rewrite app_nil_r. split_and!; try done.
    intros l Hl. by apply elem_of_nil in Hl.
  - destruct IH as (q & -> & Hsp & Hch & Hon & Hnd).
    exists (mkLoc i j :: q). rewrite <- app_assoc. split_and!.
    + done.
    + simpl. unfold tokenAt. simpl. by rewrite Hc, Hsp.
    + simpl. by rewrite Hn, Hch.
    + intros l Hl. apply elem_of_cons in Hl as [-> | Hl]; [|by apply Hon].
      split; [done|]. unfold tokenAt. simpl. by rewrite Hc.
    + intros Hloc. rewrite <- app_assoc in Hnd. apply Hnd.
      apply NoDup_app. split; [done|]. split; [|apply NoDup_singleton].
      intros l Hl Hl'. apply list_elem_of_singleton in Hl' as ->.
      by apply NotDuplicated_spec in Hd.
Qed.

(** ** Recording words *)

Lemma game_eta g : mkGame (board g) (wordsSeen g) (display g) = g.
Proof. by destruct g. Qed.

Lemma records_nothing (R : string → Prop) g :
  (∀ w, R w → w ∈ wordsSeen g) → records R g g.
Proof.
  intros HR. exists []. simpl. split_and!.
  - rewrite app_nil_r, union_empty_r_L. symmetry. apply game_eta.
  - intros w Hw. by apply elem_of_nil in Hw.
  - intros w. split; [intros [?|Hw]; [by left|by apply elem_of_nil in Hw]|].
    intros [?|?]; left; auto.
Qed.

Lemma records_iff (R R' : string → Prop) g g' :
  (∀ w, R w ↔ R' w) → records R g g' → records R' g g'.
Proof.
  intros HR (news & Hg & Hnew & Hchar). exists news. split_and!; [done..|].
  intros w. by rewrite Hchar, HR.
Qed.

Lemma records_board R g g' : records R g g' → board g' = board g.
Proof. by intros (news & -> & _). Qed.

Lemma records_then (R1 R2 : string → Prop) g g1 g2 :
  records R1 g g1 → records R2 g1 g2 → records (fun w => R1 w ∨ R2 w) g g2.
Proof.
  intros (n1 & -> & Hnew1 & Hchar1) (n2 & -> & Hnew2 & Hchar2). simpl in *.
  exists (n1 ++ n2). split_and!.
  - f_equal.
    + rewrite list_to_set_app_L. set_solver.
    + by rewrite map_app, app_assoc.
  - intros w Hw. apply elem_of_app in Hw as [Hw | Hw]; [by apply Hnew1|].
    apply Hnew2 in Hw. set_solver.
  - intros w. rewrite elem_of_app.
    specialize (Hchar1 w). specialize (Hchar2 w).
    rewrite elem_of_union, elem_of_list_to_set in Hchar2. tauto.
Qed.

Lemma recordWord_records lex soFar g :
  records (fun w => w = soFar ∧ containsWord lex soFar = true ∧
                    (3 < String.length soFar)%nat)
          g (recordWord lex soFar g).
Proof.
  unfold recordWord.
  destruct (containsWord lex soFar) eqn:Hword; simpl;
    [|apply records_nothing; by intros w (_ & ? & _)].
  destruct (bool_decide_reflect (soFar ∈ wordsSeen g)) as [Hseen | Hseen]; simpl;
    [apply records_nothing; by intros w (-> & _)|].
  destruct (Nat.ltb_spec 3 (String.length soFar)) as [Hlen | Hlen];
    [|apply records_nothing; intros w (_ & _ & ?); lia].
  exists [soFar]. unfold addSeen, emit. simpl. split_and!.
  - f_equal. set_solver.
  - intros w Hw. by apply list_elem_of_singleton in Hw as ->.
  - intros w. rewrite list_elem_of_singleton. naive_solver.
Qed.

(** ** FindAllWords *)

Lemma FindAllWords_unfold fuel row col lex soFar visited g :
  FindAllWords (S fuel) row col lex soFar visited g =
  (tok ← gridAt (board g) row col;
   if negb (containsPrefix lex (soFar +:+ tok)) then Ret g
   else
     foldM (fun l g =>
              if nextGuard row col (visited ++ [mkLoc row col]) l
              then FindAllWords fuel (numRow l) (numCol l) lex (soFar +:+ tok)
                     (visited ++ [mkLoc row col]) g
              else Ret g)
           (allCells (board (recordWord lex (soFar +:+ tok) g)))
           (recordWord lex (soFar +:+ tok) g)).
Proof.
  simpl. destruct (gridAt (board g) row col) as [tok| |]; simpl; try done.
  destruct (containsPrefix lex (soFar +:+ tok)); simpl; [|done].
  by rewrite forGrid_allCells.
Qed.

Lemma recordWord_board lex soFar g : board (recordWord lex soFar g) = board g.
Proof. unfold recordWord. by destruct (_ && _ && _). Qed.

(** A loop that records, cell after cell, the words of a relation. *)
Lemma records_loop (body : locationT → game → outcome game)
  (R : locationT → string → Prop) cs g g' :
  (∀ l gk gk', l ∈ cs → board gk = board g → body l gk = Ret gk' →
               records (R l) gk gk') →
  foldM body cs g = Ret g' →
  records (fun w => ∃ l, l ∈ cs ∧ R l w) g g'.
Proof.
  intros Hbody Hrun.
  apply (foldM_invariant (fun pre gk =>
    records (fun w => ∃ l, l ∈ pre ∧ R l w) g gk)) in Hrun; [done| |].
  - apply records_nothing. intros w (l & Hl & _). by apply elem_of_nil in Hl.
  - intros pre l gk gk' Hl Hpre Hstep.
    apply Hbody in Hstep; [|done|by apply records_board in Hpre].
    eapply records_iff; [|by eapply records_then].
    intros w. simpl. split.
    + intros [(l' & Hl' & HR) | HR]; [exists l' | exists l];
        rewrite elem_of_app, list_elem_of_singleton; auto.
    + intros (l' & Hl' & HR). apply elem_of_app in Hl' as [Hl' | Hl'].
      * left. eauto.
      * apply list_elem_of_singleton in Hl' as ->. by right.
Qed.

(** [FindAllWords] records exactly the words it [reaches]. *)
Lemma FindAllWords_records fuel : ∀ row col lex soFar visited g g',
  FindAllWords fuel row col lex soFar visited g = Ret g' →
  records (reaches (board g) lex soFar visited row col) g g'.
Proof.
  induction fuel as [|fuel IH]; intros row col lex soFar visited g g'; [done|].
  rewrite FindAllWords_unfold.
  destruct (gridAt (board g) row col) as [tok| |] eqn:Htok; simpl; try done.
  apply gridAt_Ret in Htok as [Hin ->].
  set (soFar' := (soFar +:+ cell (board g) row col)%string).
  set (visited' := visited ++ [mkLoc row col]).
  destruct (containsPrefix lex soFar') eqn:Hpre; simpl.
  - rewrite recordWord_board. intros Hrun.
    apply (records_loop _ (fun l w =>
             nextGuard row col visited' l = true ∧ onBoard (board g) l = true ∧
             reaches (board g) lex soFar' visited' (numRow l) (numCol l) w))
      in Hrun.
    + pose proof (recordWord_records lex soFar' g) as Hrec.
      eapply records_iff; [|by eapply records_then].
      intros w. simpl. split.
      * intros [(-> & Hword & Hlen) | (l & Hl & Hg & Hon & Hr)].
        -- by apply reaches_here.
        -- apply andb_true_iff in Hg as [Hn Hd]. destruct l as [i j].
           by apply (reaches_next _ _ _ _ _ _ i j).
      * intros Hr. inversion Hr as [? ? ? ? _ _ Hword Hlen
                                   |? ? ? ? i j ? _ _ Hon Hn Hd Hr']; subst.
        -- left. done.
        -- right. exists (mkLoc i j). split; [by apply elem_of_allCells|].
           split; [|done]. unfold nextGuard. simpl. rewrite Hn. exact Hd.
    + intros l gk gk' Hl Hb Hstep. rewrite recordWord_board in Hb.
      apply elem_of_allCells in Hl.
      destruct (nextGuard row col visited' l) eqn:Hg.
      * apply IH in Hstep. rewrite Hb in Hstep.
        eapply records_iff; [|exact Hstep]. intros w. tauto.
      * injection Hstep as <-. apply records_nothing. by intros w (? & _).
  - intros [= <-]. apply records_nothing.
    intros w Hr. inversion Hr; subst; subst soFar'; congruence.
Qed.

Lemma unvisited_lt_cells board visited l :
  onBoard board l = true →
  (unvisited board (visited ++ [l]) < length (allCells board))%nat.
Proof.
  intros Hon. unfold unvisited. apply (length_filter_lt _ _ l).
  - by apply elem_of_allCells.
  - intros Hl. apply Hl. rewrite elem_of_app, list_elem_of_singleton. by right.
Qed.

Lemma unvisited_lt board visited l :
  onBoard board l = true → l ∉ visited →
  (unvisited board (visited ++ [l]) < unvisited board visited)%nat.
Proof.
  intros Hon Hl. unfold unvisited.
  rewrite (list_filter_iff (fun x => x ∉ visited ++ [l])
                           (fun x => x ≠ l ∧ x ∉ visited)).
  - rewrite <- list_filter_filter. apply (length_filter_lt _ _ l).
    + apply list_elem_of_filter. split; [done|]. by apply elem_of_allCells.
    + by intros Hne.
  - intros x. rewrite elem_of_app, list_elem_of_singleton. tauto.
Qed.

(** [FindAllWords] returns from every cell of the board: the cells outside
    the visited path bound the depth of its recursion. *)
Lemma FindAllWords_returns fuel : ∀ row col lex soFar visited g,
  inBounds (board g) row col = true →
  (unvisited (board g) (visited ++ [mkLoc row col]) < fuel)%nat →
  ∃ g', FindAllWords fuel row col lex soFar visited g = Ret g'.
Proof.
  induction fuel as [|fuel IH]; intros row col lex soFar visited g Hin Hfuel;
    [lia|].
  rewrite FindAllWords_unfold, gridAt_inBounds by done. simpl.
  destruct (containsPrefix lex _); simpl; [|by eexists].
  rewrite recordWord_board.
  match goal with |- context [foldM ?body ?cs ?s0] =>
    destruct (foldM_returns (fun gk => board gk = board g) body cs s0)
      as (g' & -> & _) end; [apply recordWord_board| |by eexists].
  intros l gk Hl Hb. apply elem_of_allCells in Hl.
  destruct (nextGuard row col (visited ++ [mkLoc row col]) l) eqn:Hg;
    [|by eexists].
  apply andb_true_iff in Hg as [_ Hd]. apply NotDuplicated_spec in Hd.
  replace (mkLoc (numRow l) (numCol l)) with l in Hd by (by destruct l).
  destruct (IH (numRow l) (numCol l) lex
              (soFar +:+ cell (board g) row col)%string
              (visited ++ [mkLoc row col]) gk) as (gk' & Hrun).
  - by rewrite Hb.
  - rewrite Hb. replace (mkLoc (numRow l) (numCol l)) with l by (by destruct l).
    pose proof (unvisited_lt (board g) (visited ++ [mkLoc row col]) l Hl Hd). lia.
  - exists gk'. split; [done|].
    apply FindAllWords_records, records_board in Hrun. congruence.
Qed.

(** ** Pruning *)

(** The unpruned enumeration is [FindAllWords] run with a prefix query that
    accepts everything. *)
Lemma FindAllWords_unpruned_eq fuel : ∀ row col lex soFar visited g,
  FindAllWords_unpruned fuel row col lex soFar visited g =
  FindAllWords fuel row col (withoutPruning lex) soFar visited g.
Proof.
  induction fuel as [|fuel IH]; intros row col lex soFar visited g; [done|].
  simpl. destruct (gridAt (board g) row col) as [tok| |]; simpl; try done.
  unfold forGrid. apply foldM_ext. intros i g1 _. apply foldM_ext.
  intros j g2 _. by rewrite IH.
Qed.

(** Below a string that no word of the lexicon extends, the unpruned
    enumeration records nothing. *)
Lemma FindAllWords_dead fuel : ∀ row col lex soFar visited g g',
  (∀ s, containsWord lex (soFar +:+ s) = false) →
  FindAllWords fuel row col (withoutPruning lex) soFar visited g = Ret g' →
  g' = g.
Proof.
  induction fuel as [|fuel IH]; intros row col lex soFar visited g g' Hdead;
    [done|].
  rewrite FindAllWords_unfold.
  destruct (gridAt (board g) row col) as [tok| |]; simpl; try done.
  unfold recordWord. simpl. rewrite Hdead. simpl. intros Hrun.
  apply (foldM_invariant (fun _ gk => gk = g)) in Hrun; [done..|].
  intros pre l gk gk' _ -> Hstep.
  destruct (nextGuard _ _ _ _); [|congruence].
  apply IH in Hstep; [done|]. intros s. by rewrite append_assoc.
Qed.

(** With a prefix query that accepts the prefixes of the words, pruning
    does not change what the enumeration returns. *)
Lemma FindAllWords_pruning fuel : ∀ row col lex soFar visited g g',
  prefixClosed lex →
  FindAllWords fuel row col (withoutPruning lex) soFar visited g = Ret g' →
  FindAllWords fuel row col lex soFar visited g = Ret g'.
Proof.
  induction fuel as [|fuel IH]; intros row col lex soFar visited g g' Hlex Hrun;
    [done|].
  destruct (containsPrefix lex (soFar +:+ cell (board g) row col)) eqn:Hpre.
  - revert Hrun. rewrite !FindAllWords_unfold.
    destruct (gridAt (board g) row col) as [tok| |] eqn:Htok; simpl; try done.
    apply gridAt_Ret in Htok as [_ ->]. rewrite Hpre. simpl.
    change (recordWord (withoutPruning lex)) with (recordWord lex).
    generalize (recordWord lex (soFar +:+ cell (board g) row col) g) as g1.
    intros g1. generalize (allCells (board g1)) as cs. intros cs. revert g1.
    induction cs as [|l cs IHcs]; intros g1; [done|].
    rewrite !foldM_cons.
    destruct (nextGuard _ _ _ _).
    + destruct (FindAllWords fuel _ _ (withoutPruning lex) _ _ g1)
        as [g2| |] eqn:Hstep; simpl; try done.
      rewrite (IH _ _ _ _ _ _ _ Hlex Hstep). simpl. apply IHcs.
    + simpl. apply IHcs.
  - rewrite FindAllWords_unfold in Hrun. rewrite FindAllWords_unfold.
    destruct (gridAt (board g) row col) as [tok| |] eqn:Htok; simpl in *;
      try done.
    apply gridAt_Ret in Htok as [Hin ->]. rewrite Hpre. simpl. f_equal.
    assert (Hdead : ∀ s,
      containsWord lex ((soFar +:+ cell (board g) row col) +:+ s) = false).
    { intros s. destruct (containsWord lex _) eqn:Hw; [|done].
      apply Hlex in Hw. congruence. }
    assert (Hrec : recordWord (withoutPruning lex)
                     (soFar +:+ cell (board g) row col) g = g).
    { unfold recordWord. simpl.
      rewrite <- (append_nil_r (soFar +:+ cell (board g) row col)) at 1.
      by rewrite Hdead. }
    rewrite Hrec in Hrun.
    apply (foldM_invariant (fun _ gk => gk = g)) in Hrun; [done|done|].
    intros pre l gk gk' _ -> Hstep.
    destruct (nextGuard _ _ _ _); [|congruence].
    by apply FindAllWords_dead in Hstep.
Qed.

(** ** ComputerTurn *)

Lemma ComputerTurn_records fuel lex g g' :
  ComputerTurn fuel lex g = Ret g' →
  records (fun w => ∃ l, l ∈ allCells (board g) ∧
                     reaches (board g) lex EmptyString [] (numRow l) (numCol l) w)
          g g'.
Proof.
  unfold ComputerTurn. rewrite forGrid_allCells. apply records_loop.
  intros l gk gk' Hl Hb Hstep. apply FindAllWords_records in Hstep.
  by rewrite Hb in Hstep.
Qed.

Lemma ComputerTurn_returns fuel lex g :
  (numRows (board g) * numCols (board g) ≤ fuel)%nat →
  ∃ g', ComputerTurn fuel lex g = Ret g'.
Proof.
  intros Hfuel. unfold ComputerTurn. rewrite forGrid_allCells.
  match goal with |- context [foldM ?body ?cs ?s0] =>
    destruct (foldM_returns (fun gk => board gk = board g) body cs s0)
      as (g' & -> & _) end; [done| |by eexists].
  intros l gk Hl Hb. apply elem_of_allCells in Hl.
  destruct (FindAllWords_returns fuel (numRow l) (numCol l) lex EmptyString [] gk)
    as (gk' & Hrun).
  - by rewrite Hb.
  - rewrite Hb. replace (mkLoc (numRow l) (numCol l)) with l by (by destruct l).
    pose proof (unvisited_lt_cells (board g) [] l Hl) as Hlt.
    rewrite length_allCells in Hlt. lia.
  - exists gk'. split; [done|].
    apply FindAllWords_records, records_board in Hrun. congruence.
Qed.

Lemma recordedFor_app p d1 d2 :
  recordedFor p (d1 ++ d2) = recordedFor p d1 ++ recordedFor p d2.
Proof. unfold recordedFor. apply omap_app. Qed.

Lemma recordedFor_Computer news :
  recordedFor Computer (map (fun w => RecordWordForPlayer w Computer) news) = news.
Proof. induction news as [|w news IH]; [done|]. simpl. by rewrite IH. Qed.

(** ** The tracer and the enumerator *)

Lemma singleUpper_spec tok :
  singleUpper tok = true ↔ ∃ ch, tok = String ch EmptyString ∧ toupper ch = ch.
Proof.
  unfold singleUpper. destruct tok as [|ch [|]]; try (split; [done|]).
  - by intros (ch & ? & _).
  - rewrite bool_decide_eq_true. split; [by exists ch|].
    by intros (ch' & [= <-] & ?).
  - by intros (ch' & ? & _).
Qed.

Lemma reaches_word board lex soFar visited row col w :
  reaches board lex soFar visited row col w →
  containsWord lex w = true ∧ (3 < String.length w)%nat.
Proof. induction 1; auto. Qed.

(** A word the enumerator reaches extends [soFar] by a string the tracer
    can trace from the same cell. *)
Lemma reaches_traces board lex soFar visited row col w :
  allTokens singleUpper board = true →
  reaches board lex soFar visited row col w →
  NotDuplicated row col visited = true →
  ∃ rest, w = (soFar +:+ rest)%string ∧ ConvertToUpperCase rest = rest ∧
    ∀ prow pcol, AreNeighbors row col prow pcol = true →
                 ∃ p, traces board rest prow pcol visited p.
Proof.
  intros Htok. induction 1 as [soFar visited row col Hin Hpre Hword Hlen
                              |soFar visited row col i j w Hin Hpre Hin' Hn Hd Hr IH];
    intros Hnd.
  - destruct (proj1 (singleUpper_spec _)
                (proj1 (allTokens_spec _ _) Htok (mkLoc row col) Hin))
      as (ch & Hc & Hup). unfold tokenAt in Hc. simpl in Hc.
    exists (String ch EmptyString). rewrite Hc. split_and!; [done|by simpl; rewrite Hup|].
    intros prow pcol Hadj. eexists.
    apply (traces_step board ch EmptyString prow pcol visited row col); try done.
    constructor.
  - destruct (proj1 (singleUpper_spec _)
                (proj1 (allTokens_spec _ _) Htok (mkLoc row col) Hin))
      as (ch & Hc & Hup). unfold tokenAt in Hc. simpl in Hc.
    destruct (IH Hd) as (rest & -> & Hrest & Htr).
    exists (String ch rest). rewrite Hc, append_assoc. split_and!.
    + done.
    + simpl. by rewrite Hup, Hrest.
    + intros prow pcol Hadj.
      destruct (Htr row col) as (p & Hp).
      { apply inBounds_spec in Hin, Hin'.
        rewrite AreNeighbors_sym by lia. done. }
      exists p. by apply (traces_step board ch rest prow pcol visited row col).
Qed.

(** A word of the lexicon the tracer finds is reached by the enumerator. *)
Lemma traces_reaches board lex rest prow pcol visited p :
  prefixClosed lex →
  traces board rest prow pcol visited p →
  rest ≠ EmptyString →
  ∀ soFar,
    containsWord lex (soFar +:+ rest) = true →
    (3 < String.length (soFar +:+ rest))%nat →
    ∃ i j, inBounds board i j = true ∧ AreNeighbors i j prow pcol = true ∧
           NotDuplicated i j visited = true ∧
           reaches board lex soFar visited i j (soFar +:+ rest).
Proof.
  intros Hlex. induction 1 as [|ch w prow pcol visited i j p Hin Hc Hn Hd Htr IH];
    intros Hne soFar Hword Hlen; [done|].
  exists i, j. split_and!; try done.
  assert (Happ : (soFar +:+ String ch w)%string
                 = ((soFar +:+ cell board i j) +:+ w)%string)
    by (by rewrite Hc, append_assoc).
  rewrite Happ in *.
  assert (Hpre : containsPrefix lex (soFar +:+ cell board i j) = true)
    by (by apply (Hlex _ w)).
  destruct w as [|ch' w'].
  - rewrite append_nil_r in *. by apply reaches_here.
  - destruct (IH ltac:(done) (soFar +:+ cell board i j)%string Hword Hlen)
      as (i' & j' & Hin' & Hn' & Hd' & Hr).
    apply (reaches_next board lex soFar visited i j i' j'); try done.
    apply inBounds_spec in Hin, Hin'. rewrite AreNeighbors_sym by lia. done.
Qed.

(** ** More on Findable *)

(** When a call returns, so did the recursive call at every cell that
    passed the test. *)
Lemma Findable_subcalls fuel board word row col locations answers answers' :
  Findable (S fuel) board word row col locations answers = Ret answers' →
  ∀ l, onBoard board l = true →
    cellGuard board (ConvertToUpperCase word) row col locations l = true →
    ∃ ch rest found,
      ConvertToUpperCase word = String ch rest ∧
      Findable fuel board rest (numRow l) (numCol l) (locations ++ [l]) []
      = Ret found.
Proof.
  rewrite Findable_unfold.
  remember (ConvertToUpperCase word) as w eqn:Hw0. clear Hw0 word.
  match goal with |- context [foldM ?body ?cs ?s0] =>
    destruct (foldM body cs s0) as [st| |] eqn:Hrun end; simpl; try done.
  intros _ l Hl Hg.
  apply (foldM_invariant (fun pre st =>
    fst st = locations ∧
    ∀ l, l ∈ pre → cellGuard board w row col locations l = true →
      ∃ ch rest found, w = String ch rest ∧
        Findable fuel board rest (numRow l) (numCol l) (locations ++ [l]) []
        = Ret found)) in Hrun.
  - destruct Hrun as [_ Hall]. apply Hall; [|done]. by apply elem_of_allCells.
  - split; [done|]. intros l' Hl'. by apply elem_of_nil in Hl'.
  - intros pre x [locs acc] s2 Hx [Hlocs Hpre] Hbody. simpl in Hlocs. subst locs.
    apply elem_of_allCells in Hx. rewrite FindableCell_eq in Hbody by done.
    destruct (cellGuard board w row col locations x) eqn:Hgx.
    + destruct w as [|ch rest]; [done|]. rewrite Findable_acc in Hbody.
      destruct (Findable fuel board rest _ _ _ []) as [found| |] eqn:Hrec;
        simpl in Hbody; try done.
      injection Hbody as <-. split; [done|]. intros l' Hl' Hg'.
      apply elem_of_app in Hl' as [Hl' | Hl']; [by apply Hpre|].
      apply list_elem_of_singleton in Hl' as ->. by exists ch, rest, found.
    + injection Hbody as <-. split; [done|]. intros l' Hl' Hg'.
      apply elem_of_app in Hl' as [Hl' | Hl']; [by apply Hpre|].
      apply list_elem_of_singleton in Hl' as ->. congruence.
Qed.

Lemma elem_of_chars_cons ch c s :
  ch ∈ chars (String c s) ↔ ch = c ∨ ch ∈ chars s.
Proof. simpl. apply elem_of_cons. Qed.

(** A word with a character that no cell bears is traced nowhere. *)
Lemma Findable_absent fuel : ∀ board word row col locations answers ch,
  ch ∈ chars (ConvertToUpperCase word) →
  (∀ l, onBoard board l = true → tokenAt board l ≠ String ch EmptyString) →
  (String.length word < fuel)%nat →
  Findable fuel board word row col locations answers = Ret answers.
Proof.
  induction fuel as [|fuel IH];
    intros board word row col locations answers ch Hch Habs Hlen; [lia|].
  rewrite Findable_unfold.
  pose proof (ConvertToUpperCase_idemp word) as Hidem.
  rewrite <- ConvertToUpperCase_length in Hlen.
  remember (ConvertToUpperCase word) as w eqn:Hw0. clear Hw0 word.
  destruct w as [|c rest]; [by apply elem_of_nil in Hch|]. simpl.
  match goal with |- context [foldM ?body ?cs ?s0] =>
    destruct (foldM_returns (fun st => st = (locations, answers)) body cs s0)
      as (st & -> & ->) end; [done| |done].
  intros l st Hl ->. apply elem_of_allCells in Hl.
  rewrite FindableCell_eq by done.
  destruct (cellGuard _ _ _ _ _ _) eqn:Hg; [|by eexists].
  apply cellGuard_true in Hg as (Htok & _). rewrite substring_first_cons in Htok.
  apply elem_of_chars_cons in Hch as [-> | Hch]; [by apply Habs in Htok|].
  assert (Hrest : ConvertToUpperCase rest = rest) by (simpl in Hidem; congruence).
  rewrite (IH board rest _ _ _ answers ch); [by eexists| |done|simpl in Hlen; lia].
  by rewrite Hrest.
Qed.

(** One level of the recursion of [Findable]. *)
Lemma Findable_step fuel board word row col locations answers :
  Findable (S fuel) board word row col locations [] = Ret answers →
  ∀ p, p ∈ answers ↔
     (ConvertToUpperCase word = EmptyString ∧ p = locations) ∨
     (∃ ch rest i j found,
        ConvertToUpperCase word = String ch rest ∧
        inBounds board i j = true ∧
        cell board i j = String ch EmptyString ∧
        AreNeighbors i j row col = true ∧
        NotDuplicated i j locations = true ∧
        Findable fuel board rest i j (locations ++ [mkLoc i j]) [] = Ret found ∧
        p ∈ found).
Proof.
  intros Hrun p. rewrite (Findable_traces _ _ _ _ _ _ _ Hrun p).
  pose proof (ConvertToUpperCase_idemp word) as Hidem. split.
  - intros Htr.
    inversion Htr as [|ch rest ? ? ? i j ? Hin Hc Hn Hd Htr' Hw]; subst.
    { by left. }
    right.
    destruct (Findable_subcalls _ _ _ _ _ _ _ _ Hrun (mkLoc i j))
      as (ch' & rest' & found & Hw' & Hsub); [done| |].
    { apply cellGuard_true. rewrite <- Hw, substring_first_cons. done. }
    rewrite <- Hw in Hw'. injection Hw' as <- <-.
    exists ch, rest, i, j, found. split_and!; try done.
    apply (Findable_traces _ _ _ _ _ _ _ Hsub).
    rewrite <- Hw in Hidem. simpl in Hidem.
    assert (ConvertToUpperCase rest = rest) as -> by congruence. done.
  - intros [[-> ->] | (ch & rest & i & j & found & Hw & Hin & Hc & Hn & Hd
                       & Hsub & Hp)]; [constructor|].
    rewrite Hw in *. simpl in Hidem.
    apply (Findable_traces _ _ _ _ _ _ _ Hsub) in Hp.
    assert (ConvertToUpperCase rest = rest) as Hrest by congruence.
    rewrite Hrest in Hp. by apply (traces_step board ch rest row col locations i j).
Qed.

(** * The claims *)

(** ** Adjacency *)

(** Claim C6. For two coordinates in the range of a board, [AreNeighbors]
    returns true exactly when the coordinates differ and both their row
    distance and their column distance are at most one; on such coordinates
    it is therefore symmetric, and false of a cell and itself. *)
Theorem AreNeighbors_on_board board row1 col1 row2 col2 :
  inBounds board row1 col1 = true →
  inBounds board row2 col2 = true →
  (AreNeighbors row1 col1 row2 col2 = true ↔
     (row1, col1) ≠ (row2, col2) ∧
     Z.abs (row1 - row2) ≤ 1 ∧ Z.abs (col1 - col2) ≤ 1) ∧
  AreNeighbors row1 col1 row2 col2 = AreNeighbors row2 col2 row1 col1 ∧
  AreNeighbors row1 col1 row1 col1 = false.
Proof.
  intros H1 H2. apply inBounds_spec in H1, H2. split_and!.
  - rewrite AreNeighbors_spec by lia.
    assert ((row1, col1) ≠ (row2, col2) ↔ row1 ≠ row2 ∨ col1 ≠ col2) as ->; [|done].
    split; [|intros [?|?] [=]; lia].
    intros Hne. destruct (decide (row1 = row2)) as [->|]; [|by left].
    right. intros ->. by apply Hne.
  - apply AreNeighbors_sym; lia.
  - apply not_true_iff_false. rewrite AreNeighbors_spec by lia. lia.
Qed.

Lemma AreNeighbors_on_board_witness :
  inBounds boardCATS 0 0 = true ∧ inBounds boardCATS 1 1 = true ∧
  (AreNeighbors 0 0 1 1 = true ↔
     (0, 0) ≠ (1, 1) ∧ Z.abs (0 - 1) ≤ 1 ∧ Z.abs (0 - 1) ≤ 1) ∧
  AreNeighbors 0 0 1 1 = AreNeighbors 1 1 0 0 ∧
  AreNeighbors 0 0 0 0 = false.
Proof.
  split; [reflexivity|]. split; [reflexivity|].
  apply (AreNeighbors_on_board boardCATS 0 0 1 1); reflexivity.
Defined.

(** Claim C7, as stated, fails: with the sentinel (-1,-1) as the first
    coordinate, [AreNeighbors] is false of the cell (2,2) of a 4x4 board. *)
Lemma AreNeighbors_sentinel_first_fails :
  inBounds boardCATS 2 2 = true ∧ AreNeighbors (-1) (-1) 2 2 = false.
Proof. split; reflexivity. Qed.

(** Claim C7, amended. With the sentinel (-1,-1) as the second coordinate,
    the predecessor's place, [AreNeighbors] returns true for every
    coordinate in the range of the board. *)
Theorem AreNeighbors_sentinel_second board row col :
  inBounds board row col = true → AreNeighbors row col (-1) (-1) = true.
Proof. intros _. apply AreNeighbors_sentinel. Qed.

Lemma AreNeighbors_sentinel_second_witness :
  inBounds boardCATS 2 2 = true ∧ AreNeighbors 2 2 (-1) (-1) = true.
Proof.
  split; [reflexivity|].
  apply (AreNeighbors_sentinel_second boardCATS 2 2). reflexivity.
Defined.

(** ** The validity gate *)

(** What [WordIsValid] returns, by cases on its four checks. *)
Lemma WordIsValid_cases fuel word lex g :
  WordIsValid fuel word lex g =
  if (String.length word <? 4)%nat then Ret (false, g)
  else if bool_decide (word ∈ wordsSeen g) then Ret (false, g)
  else if negb (containsWord lex word) then Ret (false, g)
  else match Findable fuel (board g) word (-1) (-1) [] [] with
       | Ret [] => Ret (false, g)
       | Ret (answer :: _) =>
           Ret (true,
                emit (map (fun l => HighlightCube (numRow l) (numCol l) true) answer
                      ++ [Pause]
                      ++ map (fun l => HighlightCube (numRow l) (numCol l) false)
                           answer) g)
       | Fault => Fault
       | OutOfFuel => OutOfFuel
       end.
Proof.
  unfold WordIsValid.
  destruct (_ <? 4)%nat; [done|]. destruct (bool_decide _); [done|].
  destruct (negb _); [done|].
  by destruct (Findable _ _ _ _ _ _ _) as [[|answer results]| |].
Qed.

(** Claim C1. [WordIsValid] returns true if and only if the word has at
    least four characters, is not in [wordsSeen], is a word of the lexicon,
    and [Findable], seeded with the sentinel predecessor (-1,-1), returns a
    non-empty result; it returns false exactly when one of the four checks
    fails. *)
Theorem WordIsValid_iff fuel word lex g :
  ((∃ g', WordIsValid fuel word lex g = Ret (true, g')) ↔
     (4 ≤ String.length word)%nat ∧
     (word ∉ wordsSeen g) ∧
     containsWord lex word = true ∧
     ∃ results, Findable fuel (board g) word (-1) (-1) [] [] = Ret results ∧
                results ≠ []) ∧
  ((∃ g', WordIsValid fuel word lex g = Ret (false, g')) ↔
     (String.length word < 4)%nat ∨
     word ∈ wordsSeen g ∨
     containsWord lex word = false ∨
     Findable fuel (board g) word (-1) (-1) [] [] = Ret []).
Proof.
  rewrite WordIsValid_cases.
  destruct (Nat.ltb_spec (String.length word) 4) as [Hlen | Hlen].
  { split; split.
    - by intros (g' & [=]).
    - intros (? & _). lia.
    - by left.
    - by exists g. }
  destruct (bool_decide_reflect (word ∈ wordsSeen g)) as [Hseen | Hseen].
  { split; split.
    - by intros (g' & [=]).
    - by intros (_ & ? & _).
    - by right; left.
    - by exists g. }
  destruct (containsWord lex word) eqn:Hword; simpl.
  2: { split; split.
    - by intros (g' & [=]).
    - by intros (_ & _ & ? & _).
    - by right; right; left.
    - by exists g. }
  destruct (Findable fuel (board g) word (-1) (-1) [] [])
    as [[|answer results]| |] eqn:Hfind.
  - split; split.
    + by intros (g' & [=]).
    + by intros (_ & _ & _ & results & [= <-] & ?).
    + by right; right; right.
    + by exists g.
  - split; split.
    + intros _. split_and!; [done..|]. by eexists.
    + intros _. by eexists.
    + by intros (g' & [=]).
    + intros [?|[?|[?|?]]]; [lia|done|done|done].
  - split; split.
    + by intros (g' & [=]).
    + by intros (_ & _ & _ & results & [=] & ?).
    + by intros (g' & [=]).
    + intros [?|[?|[?|?]]]; [lia|done|done|done].
  - split; split.
    + by intros (g' & [=]).
    + by intros (_ & _ & _ & results & [=] & ?).
    + by intros (g' & [=]).
    + intros [?|[?|[?|?]]]; [lia|done|done|done].
Qed.

(** Claim C9. [WordIsValid] leaves the board and [wordsSeen] as they were,
    whether it accepts or rejects: the accepted word is added to [wordsSeen]
    by the caller, through [putWordOnBoard], which leaves the board as it
    was; and [FindAllWords] leaves the board as it was. ([Findable], which
    only reads the board, takes it as a value: the board [WordIsValid] hands
    to it is the board of the game it returns.) *)
Theorem WordIsValid_frame :
  (∀ fuel word lex g ok g',
     WordIsValid fuel word lex g = Ret (ok, g') →
     board g' = board g ∧ wordsSeen g' = wordsSeen g) ∧
  (∀ word g,
     wordsSeen (putWordOnBoard word g) = {[word]} ∪ wordsSeen g ∧
     board (putWordOnBoard word g) = board g) ∧
  (∀ fuel row col lex soFar visited g g',
     FindAllWords fuel row col lex soFar visited g = Ret g' →
     board g' = board g).
Proof.
  split_and!.
  - intros fuel word lex g ok g'. rewrite WordIsValid_cases.
    destruct (_ <? 4)%nat; [by intros [= <- <-]|].
    destruct (bool_decide _); [by intros [= <- <-]|].
    destruct (negb _); [by intros [= <- <-]|].
    destruct (Findable _ _ _ _ _ _ _) as [[|answer results]| |]; try done;
      by intros [= <- <-].
  - done.
  - intros fuel row col lex soFar visited g g' Hrun.
    by apply FindAllWords_records, records_board in Hrun.
Qed.

Lemma WordIsValid_frame_witness :
  (∃ g', WordIsValid 5%nat "CATS" lexCATS (newGame boardCATS) = Ret (true, g') ∧
         board g' = boardCATS ∧ wordsSeen g' = ∅) ∧
  (∃ g', FindAllWords 16%nat 0 0 lexCATS EmptyString [] (newGame boardCATS) = Ret g' ∧
         board g' = boardCATS).
Proof.
  destruct WordIsValid_frame as (Hvalid & _ & Hfind). split.
  - eexists. split; [vm_compute; reflexivity|].
    eapply (Hvalid 5%nat "CATS" lexCATS (newGame boardCATS) true).
    vm_compute. reflexivity.
  - eexists. split; [vm_compute; reflexivity|].
    eapply (Hfind 16%nat 0 0 lexCATS EmptyString [] (newGame boardCATS)).
    vm_compute. reflexivity.
Defined.

(** The scenarios of the specification on the board CATS: CAT is rejected
    as too short, CATS is accepted, and rejected once it is claimed. *)
Example WordIsValid_CAT :
  WordIsValid 5 "CAT" lexCATS (newGame boardCATS)
  = Ret (false, newGame boardCATS).
Proof. reflexivity. Qed.

Example WordIsValid_CATS :
  ∃ g', WordIsValid 5 "CATS" lexCATS (newGame boardCATS) = Ret (true, g').
Proof. eexists. vm_compute. reflexivity. Qed.

Example WordIsValid_CATS_claimed :
  WordIsValid 5 "CATS" lexCATS (putWordOnBoard "CATS" (newGame boardCATS))
  = Ret (false, putWordOnBoard "CATS" (newGame boardCATS)).
Proof. vm_compute. reflexivity. Qed.

(** ** Path tracing *)

(** Claim C4. Every path in the result of [Findable], seeded as
    [WordIsValid] seeds it, is a valid trace of the queried word: it repeats
    no coordinate, each of its cells passes [AreNeighbors] against the cell
    before it (the first one against the sentinel, which accepts it), its
    cells lie on the board, and the tokens of its cells, concatenated in
    order, are the queried word in upper case. *)
Theorem Findable_paths_are_traces fuel board word answers path :
  Findable fuel board word (-1) (-1) [] [] = Ret answers →
  path ∈ answers →
  NoDup path ∧
  chained (-1) (-1) path = true ∧
  (∀ l, l ∈ path → onBoard board l = true) ∧
  spell board path = ConvertToUpperCase word.
Proof.
  intros Hrun Hpath.
  apply (Findable_traces _ _ _ _ _ _ _ Hrun), traces_inv in Hpath
    as (q & -> & Hsp & Hch & Hon & Hnd).
  simpl. split_and!; [apply Hnd; constructor|done| |done].
  intros l Hl. by apply Hon.
Qed.

Lemma Findable_paths_are_traces_witness :
  Findable 5 boardCATS "CATS" (-1) (-1) [] []
  = Ret [[mkLoc 0 0; mkLoc 0 1; mkLoc 0 2; mkLoc 0 3]] ∧
  NoDup [mkLoc 0 0; mkLoc 0 1; mkLoc 0 2; mkLoc 0 3] ∧
  chained (-1) (-1) [mkLoc 0 0; mkLoc 0 1; mkLoc 0 2; mkLoc 0 3] = true ∧
  (∀ l, l ∈ [mkLoc 0 0; mkLoc 0 1; mkLoc 0 2; mkLoc 0 3] →
        onBoard boardCATS l = true) ∧
  spell boardCATS [mkLoc 0 0; mkLoc 0 1; mkLoc 0 2; mkLoc 0 3]
  = ConvertToUpperCase "CATS".
Proof.
  split; [vm_compute; reflexivity|].
  apply (Findable_paths_are_traces 5 boardCATS "CATS"
           [[mkLoc 0 0; mkLoc 0 1; mkLoc 0 2; mkLoc 0 3]]).
  - vm_compute. reflexivity.
  - apply list_elem_of_singleton. reflexivity.
Defined.

(** Claim C5, as stated, fails: the cell (0,0) of the board QU-I-T bears the
    token QU and the word QUIT begins with that token, yet the cell does not
    pass the test of [Findable], which finds no path for QUIT. *)
Lemma multi_character_token_never_matches :
  tokenAt boardQUIT (mkLoc 0 0) = "QU" ∧
  String.prefix "QU" (ConvertToUpperCase "QUIT") = true ∧
  cellGuard boardQUIT (ConvertToUpperCase "QUIT") (-1) (-1) [] (mkLoc 0 0) = false ∧
  Findable 5 boardQUIT "QUIT" (-1) (-1) [] [] = Ret [].
Proof. split_and!; vm_compute; reflexivity. Qed.

(** Claim C5, amended. During path tracing a cell matches when its token is
    exactly the first character of the remaining word (in upper case), and
    the recursion continues from that cell with the word stripped of that
    one character; so every cell of a path found bears a token of one
    character, and a cell bearing a longer token never matches. *)
Theorem Findable_matches_one_character
  fuel board word row col locations answers :
  Findable (S fuel) board word row col locations [] = Ret answers →
  (∀ p, p ∈ answers ↔
     (ConvertToUpperCase word = EmptyString ∧ p = locations) ∨
     (∃ ch rest i j found,
        ConvertToUpperCase word = String ch rest ∧
        inBounds board i j = true ∧
        cell board i j = String ch EmptyString ∧
        AreNeighbors i j row col = true ∧
        NotDuplicated i j locations = true ∧
        Findable fuel board rest i j (locations ++ [mkLoc i j]) [] = Ret found ∧
        p ∈ found)) ∧
  (∀ p, p ∈ answers →
     ∃ q, p = locations ++ q ∧
          ∀ l, l ∈ q → String.length (tokenAt board l) = 1%nat).
Proof.
  intros Hrun. split; [by apply Findable_step|].
  intros p Hp.
  apply (Findable_traces _ _ _ _ _ _ _ Hrun), traces_inv in Hp
    as (q & -> & _ & _ & Hon & _).
  exists q. split; [done|]. intros l Hl. by apply Hon.
Qed.

Lemma Findable_matches_one_character_witness :
  Findable 5 boardCATS "CATS" (-1) (-1) [] []
  = Ret [[mkLoc 0 0; mkLoc 0 1; mkLoc 0 2; mkLoc 0 3]] ∧
  ∃ q, [mkLoc 0 0; mkLoc 0 1; mkLoc 0 2; mkLoc 0 3] = [] ++ q ∧
       ∀ l, l ∈ q → String.length (tokenAt boardCATS l) = 1%nat.
Proof.
  split; [vm_compute; reflexivity|].
  apply (Findable_matches_one_character 4 boardCATS "CATS" (-1) (-1) []
           [[mkLoc 0 0; mkLoc 0 1; mkLoc 0 2; mkLoc 0 3]]).
  - vm_compute. reflexivity.
  - apply list_elem_of_singleton. reflexivity.
Defined.

(** For the cells [FindAllWords] tests, which are all on the board, the
    order of the two pairs does not matter. *)
Lemma FindAllWords_predecessor_second_eq fuel : ∀ row col lex soFar visited g,
  FindAllWords fuel row col lex soFar visited g =
  FindAllWords_predecessor_second fuel row col lex soFar visited g.
Proof.
  induction fuel as [|fuel IH]; intros row col lex soFar visited g; [done|].
  simpl. destruct (gridAt (board g) row col) as [tok| |] eqn:Hhere;
    simpl; try done.
  apply gridAt_Ret in Hhere as [Hhere _]. apply inBounds_spec in Hhere.
  destruct (negb _); [done|].
  unfold forGrid. apply foldM_ext. intros i g1 Hi. apply foldM_ext.
  intros j g2 _. apply elem_of_upto in Hi.
  rewrite (AreNeighbors_sym row col i j) by lia. by rewrite IH.
Qed.

(** Claim C10, as stated, fails: only [Findable] passes the predecessor as
    the second pair. [FindAllWords] passes the cell it comes from as the
    first pair, [AreNeighbors(row, col, i, j)]: were that cell the sentinel,
    its test would reject the cell (2,2), which the test with the sentinel
    as the second pair accepts. And [FindAllWords] has no seed call with the
    sentinel: called on (-1,-1) it reads the board out of its bounds. *)
Lemma FindAllWords_passes_predecessor_first :
  nextGuard (-1) (-1) [] (mkLoc 2 2) = false ∧
  AreNeighbors 2 2 (-1) (-1) && NotDuplicated 2 2 [] = true ∧
  FindAllWords 1 (-1) (-1) lexCATS EmptyString [] (newGame boardCATS) = Fault.
Proof. split_and!; reflexivity. Qed.

(** Claim C10, amended. [AreNeighbors] tests the sentinel on its second
    coordinate pair only: with (-1,-1) there it returns true whatever the
    first pair. [Findable] passes the predecessor as that second pair, so
    its call seeded with (-1,-1) takes every cell of the board that bears
    the first character of the word as a starting position: its answers are
    the paths traced for the rest of the word from any such cell, and the
    answers of the call it makes on such a cell are among its own; on a
    board without empty tokens it returns. [FindAllWords] passes the cell it
    comes from as the first pair; its cells being all on the board, it
    computes the same as with that cell as the second pair. It is not seeded
    with the sentinel: [ComputerTurn] starts it on every cell of the board,
    and claims every word reached from any of them. *)
Theorem seed_accepts_every_cell :
  (∀ row1 col1, AreNeighbors row1 col1 (-1) (-1) = true) ∧
  (∀ fuel board word answers ch rest,
     Findable fuel board word (-1) (-1) [] [] = Ret answers →
     ConvertToUpperCase word = String ch rest →
     ∀ p, p ∈ answers ↔
          ∃ i j, inBounds board i j = true ∧
                 cell board i j = String ch EmptyString ∧
                 traces board rest i j [mkLoc i j] p) ∧
  (∀ fuel board word answers i j ch rest,
     Findable (S fuel) board word (-1) (-1) [] [] = Ret answers →
     inBounds board i j = true →
     ConvertToUpperCase word = String ch rest →
     cell board i j = String ch EmptyString →
     ∃ found, Findable fuel board rest i j [mkLoc i j] [] = Ret found ∧
              ∀ p, p ∈ found → p ∈ answers) ∧
  (∀ fuel board word,
     allTokens nonEmpty board = true →
     (String.length word < fuel)%nat →
     ∃ answers, Findable fuel board word (-1) (-1) [] [] = Ret answers) ∧
  (∀ board row col visited l,
     inBounds board row col = true →
     onBoard board l = true →
     nextGuard row col visited l =
     AreNeighbors (numRow l) (numCol l) row col
     && NotDuplicated (numRow l) (numCol l) visited) ∧
  (∀ fuel row col lex soFar visited g,
     FindAllWords fuel row col lex soFar visited g =
     FindAllWords_predecessor_second fuel row col lex soFar visited g) ∧
  (∀ fuel lex g,
     (numRows (board g) * numCols (board g) ≤ fuel)%nat →
     ∃ g', ComputerTurn fuel lex g = Ret g' ∧
           ∀ l w, onBoard (board g) l = true →
                  reaches (board g) lex EmptyString [] (numRow l) (numCol l) w →
                  w ∈ wordsSeen g').
Proof.
  split_and!.
  - apply AreNeighbors_sentinel.
  - intros fuel board word answers ch rest Hrun Hw p.
    rewrite (Findable_traces _ _ _ _ _ _ _ Hrun p), Hw. split.
    + intros Htr.
      inversion Htr as [|? ? ? ? ? i j ? Hin Hc _ _ Htr']; subst.
      by exists i, j.
    + intros (i & j & Hin & Hc & Htr).
      by apply (traces_step board ch rest (-1) (-1) [] i j p).
  - intros fuel board word answers i j ch rest Hrun Hin Hw Hc.
    pose proof (Findable_step _ _ _ _ _ _ _ Hrun) as Hstep.
    destruct (Findable_subcalls _ _ _ _ _ _ _ _ Hrun (mkLoc i j))
      as (ch' & rest' & found & Hw' & Hsub); [done| |].
    { apply cellGuard_true. rewrite Hw, substring_first_cons. done. }
    rewrite Hw in Hw'. injection Hw' as <- <-.
    exists found. split; [done|]. intros p Hp. apply Hstep. right.
    by exists ch, rest, i, j, found.
  - intros fuel board word Htok Hlen. by apply Findable_returns.
  - intros board row col visited l Hin Hon. unfold nextGuard. f_equal.
    apply inBounds_spec in Hin, Hon. apply AreNeighbors_sym; lia.
  - intros fuel. apply FindAllWords_predecessor_second_eq.
  - intros fuel lex g Hfuel.
    destruct (ComputerTurn_returns fuel lex g Hfuel) as (g' & Hrun).
    exists g'. split; [done|]. intros l w Hl Hr.
    apply ComputerTurn_records in Hrun as (news & -> & _ & Hchar). simpl.
    destruct (proj2 (Hchar w)) as [Hw | Hw].
    + right. exists l. split; [by apply elem_of_allCells|done].
    + set_solver.
    + set_solver.
Qed.

Lemma seed_accepts_every_cell_witness :
  AreNeighbors 3 3 (-1) (-1) = true ∧
  (∀ p, p ∈ [[mkLoc 0 0; mkLoc 0 1; mkLoc 0 2; mkLoc 0 3]] ↔
        ∃ i j, inBounds boardCATS i j = true ∧
               cell boardCATS i j = String "C" EmptyString ∧
               traces boardCATS "ATS" i j [mkLoc i j] p) ∧
  (∃ found, Findable 4 boardCATS "ATS" 0 0 [mkLoc 0 0] [] = Ret found ∧
            ∀ p, p ∈ found →
                 p ∈ [[mkLoc 0 0; mkLoc 0 1; mkLoc 0 2; mkLoc 0 3]]) ∧
  (∃ answers, Findable 5 boardCATS "cats" (-1) (-1) [] [] = Ret answers) ∧
  nextGuard 0 0 [mkLoc 0 0] (mkLoc 0 1) =
  AreNeighbors 0 1 0 0 && NotDuplicated 0 1 [mkLoc 0 0] ∧
  (∃ g', ComputerTurn 16 lexCATS (newGame boardCATS) = Ret g' ∧
         ∀ l w, onBoard boardCATS l = true →
                reaches boardCATS lexCATS EmptyString [] (numRow l) (numCol l) w →
                w ∈ wordsSeen g').
Proof.
  destruct seed_accepts_every_cell
    as (Hsentinel & Hseed & Hsub & Hreturns & Hnext & _ & Hturn).
  split; [apply (Hsentinel 3 3)|]. split_and!.
  - apply (Hseed 5%nat boardCATS "CATS"
             [[mkLoc 0 0; mkLoc 0 1; mkLoc 0 2; mkLoc 0 3]] "C"%char "ATS");
      vm_compute; reflexivity.
  - apply (Hsub 4%nat boardCATS "CATS"
             [[mkLoc 0 0; mkLoc 0 1; mkLoc 0 2; mkLoc 0 3]] 0 0 "C"%char "ATS");
      vm_compute; reflexivity.
  - apply (Hreturns 5%nat boardCATS "cats"); [vm_compute; reflexivity|simpl; lia].
  - apply (Hnext boardCATS 0 0 [mkLoc 0 0] (mkLoc 0 1)); reflexivity.
  - apply (Hturn 16%nat lexCATS (newGame boardCATS)). simpl. lia.
Defined.

(** ** Termination *)

(** Claim C8, as stated, fails. For words in lower case: no cell of the
    board CATS bears the character c, yet [Findable], which converts the
    word to upper case, traces the word cats, and [WordIsValid] accepts it.
    And on a board in range with an empty token: once the word is exhausted
    the empty token matches, and [word.substr(1)] raises. *)
Lemma lower_case_word_is_traced :
  ("c"%char ∈ chars "cats" ∧
   Forall (fun l => "c"%char ∉ chars (tokenAt boardCATS l)) (allCells boardCATS) ∧
   Findable 5 boardCATS "cats" (-1) (-1) [] []
   = Ret [[mkLoc 0 0; mkLoc 0 1; mkLoc 0 2; mkLoc 0 3]] ∧
   ∃ g', WordIsValid 5 "cats" lexCATS (newGame boardCATS) = Ret (true, g')) ∧
  Findable 1 boardBlank EmptyString (-1) (-1) [] [] = Fault.
Proof.
  split_and!.
  - by left.
  - apply (bool_decide_unpack _). vm_compute. exact I.
  - vm_compute. reflexivity.
  - eexists. vm_compute. reflexivity.
  - vm_compute. reflexivity.
Qed.

(** Claim C8, amended. On a board in range whose tokens are not empty
    [Findable] returns for every word, within [len(word)] nested calls; from
    every cell of the board [FindAllWords] returns, within as many nested
    calls as the board has cells; and for a word whose upper-case form
    contains a character that is the token of no cell, [Findable] returns
    the empty result, whatever the lexicon, and [WordIsValid] returns
    false. *)
Theorem searches_return :
  (∀ fuel board word row col locations answers,
     allTokens nonEmpty board = true →
     (String.length word < fuel)%nat →
     ∃ answers', Findable fuel board word row col locations answers
                 = Ret answers') ∧
  (∀ fuel row col lex soFar visited g,
     inBounds (board g) row col = true →
     (numRows (board g) * numCols (board g) ≤ fuel)%nat →
     ∃ g', FindAllWords fuel row col lex soFar visited g = Ret g') ∧
  (∀ fuel word ch lex g,
     ch ∈ chars (ConvertToUpperCase word) →
     allTokens (fun tok => negb (String.eqb tok (String ch EmptyString)))
               (board g) = true →
     (String.length word < fuel)%nat →
     Findable fuel (board g) word (-1) (-1) [] [] = Ret [] ∧
     WordIsValid fuel word lex g = Ret (false, g)).
Proof.
  split_and!.
  - intros fuel board word row col locations answers. apply Findable_returns.
  - intros fuel row col lex soFar visited g Hin Hfuel.
    apply FindAllWords_returns; [done|].
    pose proof (unvisited_lt_cells (board g) visited (mkLoc row col) Hin) as Hlt.
    rewrite length_allCells in Hlt. lia.
  - intros fuel word ch lex g Hch Habs Hlen.
    assert (Hfind : Findable fuel (board g) word (-1) (-1) [] [] = Ret []).
    { apply (Findable_absent _ _ _ _ _ _ _ ch); [done| |done].
      intros l Hl Htok. apply (proj1 (allTokens_spec _ _) Habs) in Hl.
      rewrite Htok, String.eqb_refl in Hl. done. }
    split; [done|]. rewrite WordIsValid_cases, Hfind.
    by repeat case_match.
Qed.

Lemma searches_return_witness :
  (∃ answers', Findable 5 boardCATS "CATS" (-1) (-1) [] [] = Ret answers') ∧
  (∃ g', FindAllWords 16 0 0 lexCATS EmptyString [] (newGame boardCATS) = Ret g') ∧
  Findable 5 boardCATS "CATZ" (-1) (-1) [] [] = Ret [] ∧
  WordIsValid 5 "CATZ" lexCATS (newGame boardCATS)
  = Ret (false, newGame boardCATS).
Proof.
  destruct searches_return as (Hfind & Hall & Habsent). split_and!.
  - apply (Hfind 5%nat boardCATS "CATS" (-1) (-1) [] []);
      [vm_compute; reflexivity | simpl; lia].
  - apply (Hall 16%nat 0 0 lexCATS EmptyString [] (newGame boardCATS));
      [vm_compute; reflexivity | simpl; lia].
  - apply (Habsent 5%nat "CATZ" "Z"%char lexCATS (newGame boardCATS));
      [vm_compute; by repeat constructor | vm_compute; reflexivity | simpl; lia].
  - apply (Habsent 5%nat "CATZ" "Z"%char lexCATS (newGame boardCATS));
      [vm_compute; by repeat constructor | vm_compute; reflexivity | simpl; lia].
Defined.

(** ** Pruning and agreement *)

Lemma foldM_Ret_mono {A S : Type} (body1 body2 : A → S → outcome S) l s s' :
  (∀ x s1 s2, x ∈ l → body1 x s1 = Ret s2 → body2 x s1 = Ret s2) →
  foldM body1 l s = Ret s' → foldM body2 l s = Ret s'.
Proof.
  revert s. induction l as [|x l IH]; intros s Hmono; [done|].
  rewrite !foldM_cons.
  destruct (body1 x s) as [s2| |] eqn:Hstep; simpl; try done.
  rewrite (Hmono x s s2) by (done || by left). simpl.
  apply IH. intros y s1 s3 Hy. apply Hmono. by right.
Qed.

Lemma ComputerTurn_unpruned_eq fuel lex g :
  ComputerTurn_unpruned fuel lex g = ComputerTurn fuel (withoutPruning lex) g.
Proof.
  unfold ComputerTurn_unpruned, ComputerTurn, forGrid.
  apply foldM_ext. intros i g1 _. apply foldM_ext. intros j g2 _.
  apply FindAllWords_unpruned_eq.
Qed.

Lemma lexiconOfWords_prefixClosed ws : prefixClosed (lexiconOfWords ws).
Proof.
  intros p s. unfold lexiconOfWords. simpl.
  rewrite !existsb_exists. intros (x & Hx & Heq).
  exists x. split; [done|]. apply String.eqb_eq in Heq as <-.
  rewrite ConvertToUpperCase_app. apply prefix_append.
Qed.

(** Claim C3. For every board, every lexicon whose prefix query accepts the
    prefixes of its words, and every set of claimed words, the enumeration
    without the prefix-pruning test ends in exactly the game the pruned
    enumeration ends in, with the same recorded words: from any cell of the
    board, and for the whole turn of the computer. *)
Theorem pruning_changes_nothing fuel lex g :
  prefixClosed lex →
  (numRows (board g) * numCols (board g) ≤ fuel)%nat →
  (∀ row col soFar visited,
     inBounds (board g) row col = true →
     ∃ g', FindAllWords_unpruned fuel row col lex soFar visited g = Ret g' ∧
           FindAllWords fuel row col lex soFar visited g = Ret g') ∧
  (∃ g', ComputerTurn_unpruned fuel lex g = Ret g' ∧
         ComputerTurn fuel lex g = Ret g').
Proof.
  intros Hlex Hfuel. split.
  - intros row col soFar visited Hin.
    destruct (FindAllWords_returns fuel row col (withoutPruning lex) soFar
                visited g) as (g' & Hrun); [done| |].
    { pose proof (unvisited_lt_cells (board g) visited (mkLoc row col) Hin) as Hlt.
      rewrite length_allCells in Hlt. lia. }
    exists g'. rewrite FindAllWords_unpruned_eq. split; [done|].
    by apply FindAllWords_pruning.
  - destruct (ComputerTurn_returns fuel (withoutPruning lex) g Hfuel)
      as (g' & Hrun).
    exists g'. rewrite ComputerTurn_unpruned_eq. split; [done|].
    revert Hrun. unfold ComputerTurn. rewrite !forGrid_allCells.
    apply foldM_Ret_mono. intros l g1 g2 _. by apply FindAllWords_pruning.
Qed.

Lemma pruning_changes_nothing_witness :
  prefixClosed lexCATS ∧
  (numRows boardCATS * numCols boardCATS ≤ 16)%nat ∧
  ∃ g', ComputerTurn_unpruned 16 lexCATS (newGame boardCATS) = Ret g' ∧
        ComputerTurn 16 lexCATS (newGame boardCATS) = Ret g'.
Proof.
  split; [apply lexiconOfWords_prefixClosed|]. split; [simpl; lia|].
  apply (pruning_changes_nothing 16 lexCATS (newGame boardCATS)).
  - apply lexiconOfWords_prefixClosed.
  - simpl. lia.
Defined.

Lemma allTokens_singleUpper_nonEmpty board :
  allTokens singleUpper board = true → allTokens nonEmpty board = true.
Proof.
  rewrite !allTokens_spec. intros H l Hl. apply H, singleUpper_spec in Hl
    as (ch & -> & _). done.
Qed.

(** The words that are in upper case, traced by [Findable] and in the
    lexicon with four characters or more are the words the enumerator
    reaches from some cell. *)
Lemma reaches_iff_Findable board lex w :
  allTokens singleUpper board = true →
  prefixClosed lex →
  (∃ l, l ∈ allCells board ∧
        reaches board lex EmptyString [] (numRow l) (numCol l) w) ↔
  ConvertToUpperCase w = w ∧
  (∃ paths, Findable (S (String.length w)) board w (-1) (-1) [] [] = Ret paths ∧
            paths ≠ []) ∧
  containsWord lex w = true ∧
  (4 ≤ String.length w)%nat.
Proof.
  intros Htok Hlex. split.
  - intros (l & Hl & Hr).
    destruct (reaches_word _ _ _ _ _ _ _ Hr) as [Hword Hlen].
    destruct (reaches_traces _ _ _ _ _ _ _ Htok Hr) as (rest & Hw & Hup & Htr);
      [done|].
    rewrite append_nil_l in Hw. subst rest.
    destruct (Htr (-1) (-1)) as (p & Hp); [apply AreNeighbors_sentinel|].
    split_and!; [done| |done|lia].
    destruct (Findable_returns (S (String.length w)) board w (-1) (-1) [] [])
      as (paths & Hrun); [by apply allTokens_singleUpper_nonEmpty|lia|].
    exists paths. split; [done|]. intros ->.
    rewrite <- Hup in Hp. apply (Findable_traces _ _ _ _ _ _ _ Hrun) in Hp.
    by apply elem_of_nil in Hp.
  - intros (Hup & (paths & Hrun & Hne) & Hword & Hlen).
    destruct paths as [|p paths]; [done|].
    assert (Hp : p ∈ p :: paths) by (by left).
    apply (Findable_traces _ _ _ _ _ _ _ Hrun) in Hp. rewrite Hup in Hp.
    destruct (traces_reaches _ lex _ _ _ _ _ Hlex Hp) with (soFar := EmptyString)
      as (i & j & Hin & _ & _ & Hr).
    + intros ->. simpl in Hlen. lia.
    + done.
    + rewrite append_nil_l. lia.
    + exists (mkLoc i j). split; [by apply elem_of_allCells|done].
Qed.

(** Claim C2, as stated, fails. On the board QU-I-T, with a token of two
    characters, the computer records the word QUIT, for which [Findable]
    finds no path. And on the board CATS the word cats, in lower case, is
    traced by [Findable], is in the lexicon, has four characters and is not
    claimed, yet the computer records CATS, not cats. *)
Lemma ComputerTurn_disagrees_with_Findable :
  (∃ g', ComputerTurn 3 lexQUIT (newGame boardQUIT) = Ret g' ∧
     ¬ (∀ w, w ∈ recordedFor Computer (display g') ↔
             (∃ paths, Findable (S (String.length w)) boardQUIT w (-1) (-1) [] []
                       = Ret paths ∧ paths ≠ []) ∧
             containsWord lexQUIT w = true ∧
             (4 ≤ String.length w)%nat ∧
             (w ∉ wordsSeen (newGame boardQUIT)))) ∧
  (∃ g', ComputerTurn 16 lexCATS (newGame boardCATS) = Ret g' ∧
     ¬ (∀ w, w ∈ recordedFor Computer (display g') ↔
             (∃ paths, Findable (S (String.length w)) boardCATS w (-1) (-1) [] []
                       = Ret paths ∧ paths ≠ []) ∧
             containsWord lexCATS w = true ∧
             (4 ≤ String.length w)%nat ∧
             (w ∉ wordsSeen (newGame boardCATS)))).
Proof.
  split.
  - eexists. split; [vm_compute; reflexivity|].
    intros Hall. destruct (proj1 (Hall "QUIT")) as ((paths & Hrun & Hne) & _).
    + simpl. by left.
    + vm_compute in Hrun. congruence.
  - eexists. split; [vm_compute; reflexivity|].
    intros Hall. assert (Hin : "cats" ∈ ["CATS"]); [|set_solver].
    apply (Hall "cats"). split_and!.
    + eexists. split; [vm_compute; reflexivity|done].
    + reflexivity.
    + simpl. lia.
    + set_solver.
Qed.

(** Claim C2, amended. On a board whose tokens are single characters in
    upper case, with a lexicon whose prefix query accepts the prefixes of
    its words, [ComputerTurn] returns, and the words it records for the
    computer are exactly the words in upper case for which [Findable] finds
    at least one path, that the lexicon contains, that have at least four
    characters and that were not claimed when the turn began: on these
    words the tracer and the enumerator agree. *)
Theorem ComputerTurn_agrees_with_Findable fuel lex g :
  allTokens singleUpper (board g) = true →
  prefixClosed lex →
  (numRows (board g) * numCols (board g) ≤ fuel)%nat →
  ∃ g', ComputerTurn fuel lex g = Ret g' ∧
    ∀ w, w ∈ recordedFor Computer (display g') ↔
         w ∈ recordedFor Computer (display g) ∨
         (ConvertToUpperCase w = w ∧
          (∃ paths,
             Findable (S (String.length w)) (board g) w (-1) (-1) [] []
             = Ret paths ∧ paths ≠ []) ∧
          containsWord lex w = true ∧
          (4 ≤ String.length w)%nat ∧
          (w ∉ wordsSeen g)).
Proof.
  intros Htok Hlex Hfuel.
  destruct (ComputerTurn_returns fuel lex g Hfuel) as (g' & Hrun).
  exists g'. split; [done|].
  apply ComputerTurn_records in Hrun as (news & -> & Hnew & Hchar).
  intros w. simpl.
  rewrite recordedFor_app, recordedFor_Computer, elem_of_app.
  pose proof (reaches_iff_Findable (board g) lex w Htok Hlex) as Hiff.
  specialize (Hchar w). specialize (Hnew w). tauto.
Qed.

Lemma ComputerTurn_agrees_with_Findable_witness :
  allTokens singleUpper boardCATS = true ∧
  prefixClosed lexCATS ∧
  (numRows boardCATS * numCols boardCATS ≤ 16)%nat ∧
  ∃ g', ComputerTurn 16 lexCATS (newGame boardCATS) = Ret g' ∧
    ∀ w, w ∈ recordedFor Computer (display g') ↔
         w ∈ recordedFor Computer [] ∨
         (ConvertToUpperCase w = w ∧
          (∃ paths,
             Findable (S (String.length w)) boardCATS w (-1) (-1) [] []
             = Ret paths ∧ paths ≠ []) ∧
          containsWord lexCATS w = true ∧
          (4 ≤ String.length w)%nat ∧
          (w ∉ (∅ : gset string))).
Proof.
  split; [vm_compute; reflexivity|].
  split; [apply lexiconOfWords_prefixClosed|]. split; [simpl; lia|].
  apply (ComputerTurn_agrees_with_Findable 16 lexCATS (newGame boardCATS)).
  - vm_compute. reflexivity.
  - apply lexiconOfWords_prefixClosed.
  - simpl. lia.
Defined.

(** * Further properties of the program *)

(** ** More on loops and cells *)

(** The loop invariant, knowing where in the list the loop stands. *)
Lemma foldM_invariant_at {A S : Type} (P : list A → S → Prop)
  (body : A → S → outcome S) l s s' :
  P [] s →
  (∀ pre x post s1 s2, l = pre ++ x :: post → P pre s1 → body x s1 = Ret s2 →
                       P (pre ++ [x]) s2) →
  foldM body l s = Ret s' →
  P l s'.
Proof.
  intros Hinit Hstep.
  assert (Hgen : ∀ post pre s1,
    l = pre ++ post → P pre s1 → foldM body post s1 = Ret s' → P l s').
  { induction post as [|x post IH]; intros pre s1 Hl Hpre Hrun.
    - rewrite app_nil_r in Hl. subst pre. simpl in Hrun. congruence.
    - rewrite foldM_cons in Hrun.
      destruct (body x s1) as [s2| |] eqn:Hbody; simpl in Hrun; try done.
      apply (IH (pre ++ [x]) s2); [by rewrite <- app_assoc| |done].
      by apply (Hstep pre x post s1 s2). }
  intros Hrun. by apply (Hgen l [] s).
Qed.

Lemma NoDup_upto n : NoDup (upto n).
Proof.
  unfold upto. apply NoDup_fmap_2; [|apply NoDup_seq].
  intros x y. lia.
Qed.

Lemma NoDup_allCells board : NoDup (allCells board).
Proof.
  unfold allCells. pose proof (NoDup_upto (numCols board)) as Hcols.
  pose proof (NoDup_upto (numRows board)) as Hrows.
  revert Hcols Hrows. generalize (upto (numCols board)) as cols.
  generalize (upto (numRows board)) as rows. intros rows cols Hcols.
  induction rows as [|i rows IH]; intros Hrows; simpl; [constructor|].
  apply NoDup_cons in Hrows as [Hi Hrows].
  apply NoDup_app. split_and!.
  - apply NoDup_fmap_2; [|done]. by intros x y [=].
  - intros l Hl Hl'. apply list_elem_of_fmap in Hl as (j & -> & _).
    apply list_elem_of_In, in_flat_map in Hl' as (i' & Hi' & Hl').
    apply list_elem_of_In, list_elem_of_fmap in Hl' as (j' & [= <- _] & _).
    by apply list_elem_of_In in Hi'.
  - by apply IH.
Qed.

(** ** The searches, further *)

(** Extra X1. [NotDuplicated] returns true exactly when the coordinate is
    not among the locations. *)
Theorem NotDuplicated_iff_absent row col locations :
  NotDuplicated row col locations = true ↔ mkLoc row col ∉ locations.
Proof. apply NotDuplicated_spec. Qed.

(** Extra X2. With the sentinel (-1,-1) as the first coordinate,
    [AreNeighbors] treats it as an ordinary coordinate: among the cells of a
    board it is adjacent to the corner (0,0) only. *)
Theorem AreNeighbors_sentinel_first board row col :
  inBounds board row col = true →
  (AreNeighbors (-1) (-1) row col = true ↔ row = 0 ∧ col = 0).
Proof.
  intros Hin. apply inBounds_spec in Hin.
  rewrite AreNeighbors_spec by lia. lia.
Qed.

Lemma AreNeighbors_sentinel_first_witness :
  inBounds boardCATS 1 1 = true ∧
  (AreNeighbors (-1) (-1) 1 1 = true ↔ 1 = 0 ∧ 1 = 0).
Proof.
  split; [reflexivity|].
  apply (AreNeighbors_sentinel_first boardCATS 1 1). reflexivity.
Defined.

(** A path of cells on the board with one-character tokens, chained and
    without repetition, is a trace of the word it spells. *)
Lemma traces_complete board q : ∀ row col locations,
  NoDup (locations ++ q) →
  chained row col q = true →
  (∀ l, l ∈ q → onBoard board l = true ∧
                String.length (tokenAt board l) = 1%nat) →
  traces board (spell board q) row col locations (locations ++ q).
Proof.
  induction q as [|[i j] q IH]; intros row col locations Hnd Hch Hon.
  - rewrite app_nil_r. constructor.
  - simpl in Hch. apply andb_true_iff in Hch as [Hn Hch].
    destruct (Hon (mkLoc i j)) as [Hin Hlen]; [by left|].
    unfold tokenAt in Hlen. simpl in *.
    destruct (cell board i j) as [|ch [|]] eqn:Hc; try done.
    unfold tokenAt at 1. simpl. rewrite Hc, append_cons, append_nil_l.
    apply (traces_step board ch _ row col locations i j); try done.
    + apply NotDuplicated_spec. intros Hl.
      apply NoDup_app in Hnd as (_ & Hdis & _). apply (Hdis _ Hl). by left.
    + replace (locations ++ mkLoc i j :: q)
        with ((locations ++ [mkLoc i j]) ++ q) by (by rewrite <- app_assoc).
      apply IH; [by rewrite <- app_assoc|done|].
      intros l Hl. apply Hon. by right.
Qed.

(** Extra X3. [Findable] finds every trace: a path without repeated
    coordinate, whose cells lie on the board and bear one character each,
    each passing [AreNeighbors] against the one before, and which spells the
    word in upper case, is in the result of the seeded call. *)
Theorem Findable_finds_every_trace fuel board word answers path :
  Findable fuel board word (-1) (-1) [] [] = Ret answers →
  NoDup path →
  chained (-1) (-1) path = true →
  (∀ l, l ∈ path → onBoard board l = true ∧
                   String.length (tokenAt board l) = 1%nat) →
  spell board path = ConvertToUpperCase word →
  path ∈ answers.
Proof.
  intros Hrun Hnd Hch Hon Hsp.
  apply (Findable_traces _ _ _ _ _ _ _ Hrun). rewrite <- Hsp.
  by apply (traces_complete board path (-1) (-1) []).
Qed.

Lemma Findable_finds_every_trace_witness :
  [mkLoc 0 0; mkLoc 0 1; mkLoc 0 2; mkLoc 0 3]
  ∈ [[mkLoc 0 0; mkLoc 0 1; mkLoc 0 2; mkLoc 0 3]].
Proof.
  apply (Findable_finds_every_trace 5 boardCATS "CATS").
  - vm_compute. reflexivity.
  - apply (bool_decide_unpack _). vm_compute. exact I.
  - reflexivity.
  - intros l Hl. split.
    + revert l Hl. apply Forall_forall, (bool_decide_unpack _).
      vm_compute. exact I.
    + revert l Hl. apply Forall_forall, (bool_decide_unpack _).
      vm_compute. exact I.
  - reflexivity.
Defined.

(** Extra X4. [Findable] only appends to the answers it is given: what it
    appends does not depend on them. *)
Theorem Findable_appends fuel board word row col locations answers answers' :
  Findable fuel board word row col locations answers = Ret answers' →
  ∃ new, answers' = answers ++ new ∧
         ∀ others, Findable fuel board word row col locations others
                   = Ret (others ++ new).
Proof.
  rewrite Findable_acc.
  destruct (Findable fuel board word row col locations []) as [new| |] eqn:Hrun;
    simpl; try done.
  intros [= <-]. exists new. split; [done|]. intros others.
  by rewrite Findable_acc, Hrun.
Qed.

Lemma Findable_appends_witness :
  ∃ new, [[mkLoc 3 3]; [mkLoc 0 0; mkLoc 0 1; mkLoc 0 2; mkLoc 0 3]]
         = [[mkLoc 3 3]] ++ new ∧
         ∀ others, Findable 5 boardCATS "CATS" (-1) (-1) [] others
                   = Ret (others ++ new).
Proof.
  apply (Findable_appends 5 boardCATS "CATS" (-1) (-1) [] [[mkLoc 3 3]]).
  vm_compute. reflexivity.
Defined.

(** No path is found twice. *)
Lemma Findable_NoDup fuel : ∀ board word row col locations answers,
  Findable fuel board word row col locations [] = Ret answers → NoDup answers.
Proof.
  induction fuel as [|fuel IH]; intros board word row col locations answers;
    [done|].
  rewrite Findable_unfold.
  pose proof (ConvertToUpperCase_idemp word) as Hidem.
  remember (ConvertToUpperCase word) as w eqn:Hw0. clear Hw0 word.
  remember (if (String.length w =? 0)%nat then add [] locations else [])
    as first eqn:Hfirst.
  destruct (foldM _ (allCells board) (locations, first)) as [st| |] eqn:Hrun;
    simpl; try done.
  intros [= <-].
  apply (foldM_invariant_at (fun pre st =>
    fst st = locations ∧ NoDup (snd st) ∧
    ∀ p, p ∈ snd st →
      (w = EmptyString ∧ p = locations) ∨
      ∃ l q, l ∈ pre ∧ p = locations ++ l :: q)) in Hrun; [by destruct Hrun as (_ & ? & _)| |].
  - split_and!; [done| |].
    + subst first. destruct (_ =? _)%nat; [apply NoDup_singleton|constructor].
    + intros p Hp. left. subst first.
      destruct w; simpl in Hp; [|by apply elem_of_nil in Hp].
      by apply list_elem_of_singleton in Hp as ->.
  - intros pre x post [locs acc] s2 Hcells (Hlocs & Hnd & Hacc) Hbody.
    simpl in Hlocs, Hnd, Hacc. subst locs.
    assert (Hx : onBoard board x = true).
    { apply elem_of_allCells. rewrite Hcells, elem_of_app. right. by left. }
    rewrite FindableCell_eq in Hbody by done.
    destruct (cellGuard board w row col locations x) eqn:Hg.
    + destruct w as [|ch rest] eqn:Hw; [done|].
      rewrite Findable_acc in Hbody.
      destruct (Findable fuel board rest _ _ _ []) as [new| |] eqn:Hrec;
        simpl in Hbody; try done.
      injection Hbody as <-. simpl.
      assert (Hnew : ∀ p, p ∈ new → ∃ q, p = locations ++ x :: q).
      { intros p Hp. apply (Findable_traces _ _ _ _ _ _ _ Hrec), traces_inv in Hp
          as (q & -> & _). exists q. by rewrite <- app_assoc. }
      split_and!; [done| |].
      * apply NoDup_app. split_and!; [done| |by apply IH in Hrec].
        intros p Hp Hp'. apply Hnew in Hp' as (q & ->).
        apply Hacc in Hp as [[? _] | (l & q' & Hl & Heq)]; [done|].
        apply app_inv_head in Heq. injection Heq as <- _.
        pose proof (NoDup_allCells board) as Hcs. rewrite Hcells in Hcs.
        apply NoDup_app in Hcs as (_ & Hdis & _). apply (Hdis _ Hl). by left.
      * intros p Hp. right. apply elem_of_app in Hp as [Hp | Hp].
        -- apply Hacc in Hp as [[? _] | (l & q' & Hl & Heq)]; [done|].
           exists l, q'. rewrite elem_of_app. auto.
        -- apply Hnew in Hp as (q & ->). exists x, q.
           rewrite elem_of_app, list_elem_of_singleton. auto.
    + injection Hbody as <-. simpl. split_and!; [done..|].
      intros p Hp. apply Hacc in Hp as [? | (l & q' & Hl & Heq)]; [by left|].
      right. exists l, q'. rewrite elem_of_app. auto.
Qed.

(** Extra X5. The result of [Findable] holds no path twice. *)
Theorem Findable_answers_distinct fuel board word row col locations answers :
  Findable fuel board word row col locations [] = Ret answers → NoDup answers.
Proof. apply Findable_NoDup. Qed.

Lemma Findable_answers_distinct_witness :
  NoDup [[mkLoc 0 0; mkLoc 0 1; mkLoc 0 2; mkLoc 0 3]].
Proof.
  apply (Findable_answers_distinct 5 boardCATS "CATS" (-1) (-1) []).
  vm_compute. reflexivity.
Defined.

(** ** The display *)

Lemma highlighted_app d1 d2 lit :
  highlighted (d1 ++ d2) lit = highlighted d2 (highlighted d1 lit).
Proof.
  revert lit. induction d1 as [|e d1 IH]; intros lit; [done|].
  destruct e as [| row col [] |]; simpl; apply IH.
Qed.

Lemma highlighted_on (path : list locationT) lit :
  highlighted (map (fun l => HighlightCube (numRow l) (numCol l) true) path) lit
  = lit ++ path.
Proof.
  revert lit. induction path as [|[i j] path IH]; intros lit; simpl.
  - by rewrite app_nil_r.
  - by rewrite IH, <- app_assoc.
Qed.

Lemma highlighted_off (path : list locationT) lit :
  highlighted (map (fun l => HighlightCube (numRow l) (numCol l) false) path) lit
  = filter (fun l => l ∉ path) lit.
Proof.
  revert lit. induction path as [|[i j] path IH]; intros lit; simpl.
  - induction lit as [|l lit IHlit]; [done|].
    rewrite filter_cons_True by apply not_elem_of_nil. by f_equal.
  - rewrite IH, list_filter_filter. apply list_filter_iff. intros l.
    rewrite not_elem_of_cons. tauto.
Qed.

(** Extra X6. A word [WordIsValid] rejects leaves the game as it was, the
    display included; a word it accepts leaves highlighted no cube that was
    not highlighted before: each cube of the path it shows is switched off
    again. *)
Theorem WordIsValid_restores_display fuel word lex g ok g' :
  WordIsValid fuel word lex g = Ret (ok, g') →
  (ok = false → g' = g) ∧
  (∀ l, l ∈ highlighted (display g') [] → l ∈ highlighted (display g) []).
Proof.
  rewrite WordIsValid_cases.
  destruct (_ <? 4)%nat; [by intros [= <- <-]|].
  destruct (bool_decide _); [by intros [= <- <-]|].
  destruct (negb _); [by intros [= <- <-]|].
  destruct (Findable _ _ _ _ _ _ _) as [[|answer results]| |]; try done;
    intros [= <- <-]; [done|].
  split; [done|]. intros l. unfold emit. simpl.
  rewrite !highlighted_app, highlighted_on. simpl. rewrite highlighted_off.
  intros Hl. apply list_elem_of_filter in Hl as [Hnot Hl].
  apply elem_of_app in Hl as [Hl | Hl]; done.
Qed.

Lemma WordIsValid_restores_display_witness :
  ∃ g', WordIsValid 5 "CATS" lexCATS (newGame boardCATS) = Ret (true, g') ∧
        (true = false → g' = newGame boardCATS) ∧
        ∀ l, l ∈ highlighted (display g') [] →
             l ∈ highlighted (display (newGame boardCATS)) [].
Proof.
  eexists. split; [vm_compute; reflexivity|].
  eapply (WordIsValid_restores_display 5%nat "CATS" lexCATS (newGame boardCATS) true).
  vm_compute. reflexivity.
Defined.

(** ** The scoreboard *)

Lemma scored_app d1 d2 : scored (d1 ++ d2) = scored d1 ++ scored d2.
Proof. unfold scored. apply omap_app. Qed.

Lemma scoreboardSound_record w p g :
  w ∉ wordsSeen g →
  scoreboardSound g →
  scoreboardSound (addSeen w (emit [RecordWordForPlayer w p] g)).
Proof.
  intros Hw [Hnd Hseen]. unfold scoreboardSound, addSeen, emit. simpl.
  rewrite scored_app. simpl. split.
  - apply NoDup_app. split_and!; [done| |apply NoDup_singleton].
    intros x Hx Hx'. apply list_elem_of_singleton in Hx' as ->. auto.
  - intros x Hx. apply elem_of_app in Hx as [Hx | Hx]; [set_solver|].
    apply list_elem_of_singleton in Hx as ->. set_solver.
Qed.

Lemma recordWord_sound lex soFar g :
  wordsSeen g ⊆ wordsSeen (recordWord lex soFar g) ∧
  (scoreboardSound g → scoreboardSound (recordWord lex soFar g)).
Proof.
  unfold recordWord.
  destruct (containsWord lex soFar); simpl; [|done].
  destruct (bool_decide_reflect (soFar ∈ wordsSeen g)); simpl; [done|].
  destruct (_ <? _)%nat; [|done]. split.
  - unfold addSeen, emit. simpl. set_solver.
  - by apply scoreboardSound_record.
Qed.

Lemma FindAllWords_sound fuel : ∀ row col lex soFar visited g g',
  FindAllWords fuel row col lex soFar visited g = Ret g' →
  wordsSeen g ⊆ wordsSeen g' ∧ (scoreboardSound g → scoreboardSound g').
Proof.
  induction fuel as [|fuel IH]; intros row col lex soFar visited g g'; [done|].
  rewrite FindAllWords_unfold.
  destruct (gridAt (board g) row col) as [tok| |]; simpl; try done.
  destruct (containsPrefix lex _); simpl; [|by intros [= <-]].
  intros Hrun.
  apply (foldM_invariant (fun _ gk =>
    wordsSeen g ⊆ wordsSeen gk ∧ (scoreboardSound g → scoreboardSound gk)))
    in Hrun; [done|apply recordWord_sound|].
  intros pre l gk gk' _ [Hsub Hsound] Hstep.
  destruct (nextGuard _ _ _ _); [|by injection Hstep as <-].
  apply IH in Hstep as [Hsub' Hsound']. split; [set_solver|auto].
Qed.

Lemma ComputerTurn_sound fuel lex g g' :
  ComputerTurn fuel lex g = Ret g' →
  wordsSeen g ⊆ wordsSeen g' ∧ (scoreboardSound g → scoreboardSound g').
Proof.
  unfold ComputerTurn. rewrite forGrid_allCells. intros Hrun.
  apply (foldM_invariant (fun _ gk =>
    wordsSeen g ⊆ wordsSeen gk ∧ (scoreboardSound g → scoreboardSound gk)))
    in Hrun; [done|done|].
  intros pre l gk gk' _ [Hsub Hsound] Hstep.
  apply FindAllWords_sound in Hstep as [Hsub' Hsound']. split; [set_solver|auto].
Qed.

(** Extra X7. [FindAllWords] and [ComputerTurn] only add to [wordsSeen], and
    they keep the scoreboard sound: if it showed no word twice and only
    claimed words, it still does. *)
Theorem enumeration_keeps_scoreboard :
  (∀ fuel row col lex soFar visited g g',
     FindAllWords fuel row col lex soFar visited g = Ret g' →
     wordsSeen g ⊆ wordsSeen g' ∧ (scoreboardSound g → scoreboardSound g')) ∧
  (∀ fuel lex g g',
     ComputerTurn fuel lex g = Ret g' →
     wordsSeen g ⊆ wordsSeen g' ∧ (scoreboardSound g → scoreboardSound g')).
Proof. split; [apply FindAllWords_sound | apply ComputerTurn_sound]. Qed.

Lemma enumeration_keeps_scoreboard_witness :
  ∃ g', ComputerTurn 16 lexCATS (newGame boardCATS) = Ret g' ∧
        wordsSeen (newGame boardCATS) ⊆ wordsSeen g' ∧ scoreboardSound g'.
Proof.
  destruct enumeration_keeps_scoreboard as [_ Hturn].
  eexists. split; [vm_compute; reflexivity|].
  edestruct (Hturn 16%nat lexCATS (newGame boardCATS)) as [Hsub Hsound];
    [vm_compute; reflexivity|].
  split; [exact Hsub|]. apply Hsound. split; [constructor|].
  intros w Hw. by apply elem_of_nil in Hw.
Defined.

(** A word the enumerator reaches is spelled by a walk on the board. *)
Lemma reaches_path board lex soFar visited row col w :
  reaches board lex soFar visited row col w →
  NoDup visited → mkLoc row col ∉ visited →
  ∃ q, w = (soFar +:+ spell board (mkLoc row col :: q))%string ∧
       chained row col q = true ∧
       (∀ l, l ∈ mkLoc row col :: q → onBoard board l = true) ∧
       NoDup (visited ++ mkLoc row col :: q).
Proof.
  induction 1 as [soFar visited row col Hin Hpre Hword Hlen
                 |soFar visited row col i j w Hin Hpre Hin' Hn Hd Hr IH];
    intros Hnd Hnew.
  - exists []. simpl. unfold tokenAt. simpl. rewrite append_nil_r.
    split_and!; try done.
    + intros l Hl. by apply list_elem_of_singleton in Hl as ->.
    + apply NoDup_app. split_and!; [done| |apply NoDup_singleton].
      intros l Hl Hl'. by apply list_elem_of_singleton in Hl' as ->.
  - assert (Hnd' : NoDup (visited ++ [mkLoc row col])).
    { apply NoDup_app. split_and!; [done| |apply NoDup_singleton].
      intros l Hl Hl'. by apply list_elem_of_singleton in Hl' as ->. }
    destruct IH as (q & -> & Hch & Hon & Hnd''); [done|by apply NotDuplicated_spec|].
    exists (mkLoc i j :: q). split_and!.
    + simpl. unfold tokenAt. simpl. by rewrite append_assoc.
    + simpl. rewrite Hch, andb_true_r.
      apply inBounds_spec in Hin, Hin'. rewrite AreNeighbors_sym by lia. done.
    + intros l Hl. apply elem_of_cons in Hl as [-> | Hl]; [done|]. by apply Hon.
    + by rewrite <- app_assoc in Hnd''.
Qed.

(** Extra X8. On every board, tokens of several characters included, each
    word [ComputerTurn] records for the computer is a word of the lexicon of
    at least four characters that was not claimed before, spelled by the
    tokens of a path on the board that repeats no cell and whose cells each
    pass [AreNeighbors] against the one before. *)
Theorem ComputerTurn_words_are_on_the_board fuel lex g g' w :
  ComputerTurn fuel lex g = Ret g' →
  w ∈ recordedFor Computer (display g') →
  w ∈ recordedFor Computer (display g) ∨
  ((w ∉ wordsSeen g) ∧
   containsWord lex w = true ∧
   (4 ≤ String.length w)%nat ∧
   ∃ path, spell (board g) path = w ∧
           NoDup path ∧
           chained (-1) (-1) path = true ∧
           ∀ l, l ∈ path → onBoard (board g) l = true).
Proof.
  intros Hrun Hw.
  apply ComputerTurn_records in Hrun as (news & -> & Hnew & Hchar).
  simpl in Hw.
  rewrite recordedFor_app, recordedFor_Computer, elem_of_app in Hw.
  destruct Hw as [Hw | Hw]; [by left|]. right.
  split; [by apply Hnew|].
  destruct (proj1 (Hchar w)) as [Hseen | (l & Hl & Hr)];
    [by right|by apply Hnew in Hw|].
  destruct (reaches_word _ _ _ _ _ _ _ Hr) as [Hword Hlen].
  split_and!; [done|lia|].
  destruct (reaches_path _ _ _ _ _ _ _ Hr) as (q & Hq & Hch & Hon & Hnd);
    [constructor|apply not_elem_of_nil|].
  exists (mkLoc (numRow l) (numCol l) :: q). by split_and!.
Qed.

Lemma ComputerTurn_words_are_on_the_board_witness :
  ∃ g', ComputerTurn 3 lexQUIT (newGame boardQUIT) = Ret g' ∧
    ("QUIT" ∈ recordedFor Computer (display (newGame boardQUIT)) ∨
     (("QUIT" ∉ wordsSeen (newGame boardQUIT)) ∧
      containsWord lexQUIT "QUIT" = true ∧
      (4 ≤ String.length "QUIT")%nat ∧
      ∃ path, spell boardQUIT path = "QUIT" ∧
              NoDup path ∧
              chained (-1) (-1) path = true ∧
              ∀ l, l ∈ path → onBoard boardQUIT l = true)).
Proof.
  eexists. split; [vm_compute; reflexivity|].
  eapply (ComputerTurn_words_are_on_the_board 3 lexQUIT (newGame boardQUIT)).
  - vm_compute. reflexivity.
  - simpl. by left.
Defined.

(** Extra X9. The turn of the computer exhausts the board: run again on the
    game it returned, [ComputerTurn] records nothing and returns the same
    game. *)
Theorem ComputerTurn_twice fuel lex g :
  (numRows (board g) * numCols (board g) ≤ fuel)%nat →
  ∃ g', ComputerTurn fuel lex g = Ret g' ∧ ComputerTurn fuel lex g' = Ret g'.
Proof.
  intros Hfuel. destruct (ComputerTurn_returns fuel lex g Hfuel) as (g1 & Hrun1).
  exists g1. split; [done|].
  pose proof (ComputerTurn_records _ _ _ _ Hrun1) as Hrec1.
  pose proof (records_board _ _ _ Hrec1) as Hboard.
  destruct (ComputerTurn_returns fuel lex g1) as (g2 & Hrun2);
    [by rewrite Hboard|].
  rewrite Hrun2. f_equal.
  apply ComputerTurn_records in Hrun2 as (news2 & -> & Hnew2 & Hchar2).
  destruct Hrec1 as (news1 & Hg1 & Hnew1 & Hchar1).
  assert (news2 = []) as ->.
  { destruct news2 as [|w news2]; [done|]. exfalso.
    apply (Hnew2 w); [by left|].
    destruct (proj1 (Hchar2 w)) as [? | Hr]; [right; by left|done|].
    rewrite Hboard in Hr. rewrite Hg1. simpl.
    rewrite elem_of_union, elem_of_list_to_set. apply Hchar1. by right. }
  simpl. rewrite app_nil_r, union_empty_r_L. by destruct g1.
Qed.

Lemma ComputerTurn_twice_witness :
  (numRows boardCATS * numCols boardCATS ≤ 16)%nat ∧
  ∃ g', ComputerTurn 16 lexCATS (newGame boardCATS) = Ret g' ∧
        ComputerTurn 16 lexCATS g' = Ret g'.
Proof.
  split; [simpl; lia|].
  apply (ComputerTurn_twice 16 lexCATS (newGame boardCATS)). simpl. lia.
Defined.

(** ** Grids, arrays and random numbers *)

Lemma bind_Ret {A B : Type} (a : A) (k : A → outcome B) : (Ret a ≫= k) = k a.
Proof. reflexivity. Qed.

(** A loop whose body returns under an invariant that knows where the loop
    stands returns, and the invariant holds of the whole list. *)
Lemma foldM_returns_at {A S : Type} (P : list A → S → Prop)
  (body : A → S → outcome S) l s :
  P [] s →
  (∀ pre x post s1, l = pre ++ x :: post → P pre s1 →
                    ∃ s2, body x s1 = Ret s2 ∧ P (pre ++ [x]) s2) →
  ∃ s', foldM body l s = Ret s' ∧ P l s'.
Proof.
  intros Hinit Hstep.
  assert (Hgen : ∀ post pre s1,
    l = pre ++ post → P pre s1 → ∃ s', foldM body post s1 = Ret s' ∧ P l s').
  { induction post as [|x post IH]; intros pre s1 Hl Hpre.
    - rewrite app_nil_r in Hl. subst pre. by exists s1.
    - rewrite foldM_cons.
      destruct (Hstep pre x post s1 Hl Hpre) as (s2 & -> & Hs2). simpl.
      apply (IH (pre ++ [x])); [by rewrite <- app_assoc|done]. }
  by apply (Hgen l [] s).
Qed.

Lemma allCells_dims board board' :
  numRows board' = numRows board → numCols board' = numCols board →
  allCells board' = allCells board.
Proof. unfold allCells. by intros -> ->. Qed.

Lemma onBoard_dims board board' l :
  numRows board' = numRows board → numCols board' = numCols board →
  onBoard board' l = onBoard board l.
Proof. unfold onBoard, inBounds. by intros -> ->. Qed.

Lemma gridSet_Ret board row col value :
  inBounds board row col = true →
  ∃ board', gridSet board row col value = Ret board' ∧
    numRows board' = numRows board ∧ numCols board' = numCols board ∧
    ∀ l, tokenAt board' l =
         if decide (l = mkLoc row col) then value else tokenAt board l.
Proof.
  intros Hin. unfold gridSet. rewrite Hin. eexists. split_and!; try done.
  intros [r c]. unfold tokenAt. simpl.
  destruct (Z.eqb_spec r row), (Z.eqb_spec c col); simpl; subst;
    case_decide; congruence.
Qed.

(** The cell of row [i] and column [j] is the cell number
    [i * numCols + j] of the loops. *)
Lemma allCells_lookup board (i j : nat) :
  (i < numRows board)%nat → (j < numCols board)%nat →
  allCells board !! (i * numCols board + j)%nat
  = Some (mkLoc (Z.of_nat i) (Z.of_nat j)).
Proof.
  intros Hi Hj. unfold allCells, upto at 2.
  assert (Hgen : ∀ n s i, (i < n)%nat →
    flat_map (λ i0, map (λ j0, mkLoc i0 j0) (upto (numCols board)))
      (map Z.of_nat (seq s n)) !! (i * numCols board + j)%nat
    = Some (mkLoc (Z.of_nat (s + i)) (Z.of_nat j))).
  { clear i Hi. induction n as [|n IH]; intros s i Hi; [lia|]. simpl.
    destruct i as [|i].
    - rewrite lookup_app_l by (rewrite length_map, length_upto; lia).
      simpl. rewrite list_lookup_fmap. unfold upto.
      rewrite list_lookup_fmap, lookup_seq_lt by done. simpl.
      by rewrite Nat.add_0_r.
    - rewrite lookup_app_r by (rewrite length_map, length_upto; lia).
      rewrite length_map, length_upto.
      replace (S i * numCols board + j - numCols board)%nat
        with (i * numCols board + j)%nat by lia.
      rewrite IH by lia. do 3 f_equal. lia. }
  by rewrite (Hgen _ 0%nat i Hi).
Qed.

(** The number of a cell of the board, as the loops compute it. *)
Lemma allCells_position board pre l post :
  allCells board = pre ++ l :: post →
  Z.of_nat (length pre) = numRow l * Z.of_nat (numCols board) + numCol l ∧
  onBoard board l = true.
Proof.
  intros Hcells.
  assert (Hon : onBoard board l = true).
  { apply elem_of_allCells. rewrite Hcells, elem_of_app. right. by left. }
  split; [|done]. apply inBounds_spec in Hon.
  pose proof (allCells_lookup board (Z.to_nat (numRow l)) (Z.to_nat (numCol l)))
    as Hlook.
  rewrite !Z2Nat.id in Hlook by lia.
  replace (mkLoc (numRow l) (numCol l)) with l in Hlook by (by destruct l).
  assert (Hpre : allCells board !! length pre = Some l).
  { rewrite Hcells, lookup_app_r, Nat.sub_diag by done. done. }
  pose proof (NoDup_lookup _ _ _ _ (NoDup_allCells board) Hpre
                (Hlook ltac:(lia) ltac:(lia))) as ->.
  lia.
Qed.

Lemma RandomInteger_range low high r :
  low ≤ high →
  low ≤ fst (RandomInteger low high r) ≤ high ∧
  raw (snd (RandomInteger low high r)) = raw r ∧
  drawn (snd (RandomInteger low high r)) = S (drawn r).
Proof.
  intros Hle. unfold RandomInteger. simpl. split; [|done].
  pose proof (Z.mod_pos_bound (Z.of_nat (raw r (drawn r))) (high - low + 1)).
  lia.
Qed.

Lemma get_chars s n : String.get n s = chars s !! n.
Proof.
  revert n. induction s as [|c s IH]; intros [|n]; simpl; done.
Qed.

Lemma length_chars s : length (chars s) = String.length s.
Proof. induction s as [|c s IH]; simpl; [done|]. by rewrite IH. Qed.

Lemma charAt_Ret s k :
  0 ≤ k < Z.of_nat (String.length s) →
  ∃ c, charAt s k = Ret c ∧ chars s !! Z.to_nat k = Some c.
Proof.
  intros Hk. unfold charAt. destruct (Z.leb_spec 0 k); [|lia].
  rewrite get_chars.
  destruct (lookup_lt_is_Some_2 (chars s) (Z.to_nat k)) as [c Hc];
    [rewrite length_chars; lia|].
  rewrite Hc. by exists c.
Qed.

Lemma arrayAt_Ret (a : list string) k :
  0 ≤ k < Z.of_nat (length a) →
  ∃ s, arrayAt a k = Ret s ∧ a !! Z.to_nat k = Some s.
Proof.
  intros Hk. unfold arrayAt.
  destruct (Z.leb_spec 0 k); [|lia]. destruct (Z.ltb_spec k (Z.of_nat (length a))); [|lia].
  simpl. destruct (lookup_lt_is_Some_2 a (Z.to_nat k)) as [s Hs]; [lia|].
  rewrite Hs. by exists s.
Qed.

(** Every cube has six faces, each an upper-case character. *)
Lemma StandardCubes_faces :
  Forall (fun cube => String.length cube = 6%nat ∧
                      Forall (fun c => toupper c = c) (chars cube))
         StandardCubes.
Proof. apply (bool_decide_unpack _). vm_compute. exact I. Qed.

(** ** Setting the board up *)

Lemma boardTokens_lookup board k tok :
  boardTokens board !! k = Some tok ↔
  ∃ l, allCells board !! k = Some l ∧ tok = tokenAt board l.
Proof.
  unfold boardTokens. rewrite list_lookup_fmap.
  destruct (allCells board !! k) as [l|]; simpl; naive_solver.
Qed.

Lemma elem_of_boardTokens board tok :
  tok ∈ boardTokens board ↔
  ∃ l, onBoard board l = true ∧ tok = tokenAt board l.
Proof.
  unfold boardTokens. rewrite list_elem_of_fmap.
  split; intros (l & H1 & H2); exists l.
  - split; [by apply elem_of_allCells|done].
  - split; [done|by apply elem_of_allCells].
Qed.

Lemma allTokens_boardTokens test board :
  allTokens test board = true ↔ Forall (fun tok => test tok = true) (boardTokens board).
Proof.
  rewrite allTokens_spec, Forall_forall. split.
  - intros H tok Htok. apply elem_of_boardTokens in Htok as (l & Hl & ->). auto.
  - intros H l Hl. apply H, elem_of_boardTokens. eauto.
Qed.

(** Exchanging the tokens of two cells permutes the tokens of the board. *)
Lemma boardTokens_swap board b1 b2 l1 l2 :
  onBoard board l1 = true → onBoard board l2 = true →
  numRows b2 = numRows board → numCols b2 = numCols board →
  (∀ l, tokenAt b1 l = if decide (l = l1) then tokenAt board l2
                       else tokenAt board l) →
  (∀ l, tokenAt b2 l = if decide (l = l2) then tokenAt board l1
                       else tokenAt b1 l) →
  boardTokens b2 ≡ₚ boardTokens board.
Proof.
  intros H1 H2 Hrows Hcols Hb1 Hb2.
  set (σ := fun l => if decide (l = l2) then l1
                     else if decide (l = l1) then l2 else l).
  assert (Hinv : ∀ l, σ (σ l) = l).
  { intros l. unfold σ. repeat case_decide; congruence. }
  assert (Htok : ∀ l, tokenAt b2 l = tokenAt board (σ l)).
  { intros l. rewrite Hb2, Hb1. unfold σ. repeat case_decide; congruence. }
  unfold boardTokens. rewrite (allCells_dims board b2) by done.
  replace (map (tokenAt b2) (allCells board))
    with (map (tokenAt board) (map σ (allCells board)))
    by (rewrite map_map; apply map_ext; intros; symmetry; apply Htok).
  apply Permutation_map. change (map σ (allCells board)) with (σ <$> allCells board).
  apply NoDup_Permutation.
  - assert (Inj (=) (=) σ) by (intros x y Hxy; by rewrite <- (Hinv x), Hxy, Hinv).
    apply NoDup_fmap_2; [done|apply NoDup_allCells].
  - apply NoDup_allCells.
  - intros l. rewrite list_elem_of_fmap. split.
    + intros (l' & -> & Hl'). apply elem_of_allCells.
      apply elem_of_allCells in Hl'. unfold σ. by repeat case_decide.
    + intros Hl. exists (σ l). split; [by rewrite Hinv|].
      apply elem_of_allCells. apply elem_of_allCells in Hl.
      unfold σ. by repeat case_decide.
Qed.

Lemma labelCubes_Ret board :
  allTokens nonEmpty board = true →
  ∃ labels, labelCubes board = Ret labels ∧ labelled board labels.
Proof.
  intros Htok. unfold labelCubes, labelled. rewrite forGrid_allCells.
  match goal with |- context [foldM ?body ?cs ?s0] =>
    destruct (foldM_returns_at
      (fun pre labels =>
         Forall2 (fun l d => ∃ letter rest,
                    tokenAt board l = String letter rest ∧
                    d = LabelCube (numRow l) (numCol l) letter) pre labels)
      body cs s0) as (labels & Hrun & Hall) end.
  - constructor.
  - intros pre l post labels Hcells Hpre.
    apply allCells_position in Hcells as [_ Hon].
    rewrite gridAt_inBounds by done. simpl.
    pose proof (proj1 (allTokens_spec _ _) Htok l Hon) as Hne.
    unfold tokenAt in *. destruct (cell board _ _) as [|letter rest] eqn:Hc;
      [done|]. simpl.
    eexists. split; [done|]. apply Forall2_app; [done|].
    constructor; [|constructor]. exists letter, rest. by rewrite Hc.
  - by exists labels.
Qed.

Lemma rolled_singleUpper r k tok : rolled r k tok → singleUpper tok = true.
Proof.
  intros (cube & face & Hcube & Hface & ->). apply singleUpper_spec.
  exists face. split; [done|].
  pose proof StandardCubes_faces as Hall. rewrite Forall_forall in Hall.
  destruct (Hall cube) as [_ Hup]; [by eapply list_elem_of_lookup_2|].
  rewrite Forall_forall in Hup. apply Hup. by eapply list_elem_of_lookup_2.
Qed.

(** What [InitializeBoard] does to a board of 16 cells or fewer. *)
Lemma InitializeBoard_spec board r :
  (numRows board * numCols board ≤ 16)%nat →
  ∃ board' r' labels,
    InitializeBoard board r = Ret (board', r', labels) ∧
    numRows board' = numRows board ∧ numCols board' = numCols board ∧
    raw r' = raw r ∧
    drawn r' = (drawn r + 3 * (numRows board * numCols board))%nat ∧
    (∃ chosen, length chosen = (numRows board * numCols board)%nat ∧
               (∀ k tok, chosen !! k = Some tok → rolled r k tok) ∧
               boardTokens board' ≡ₚ chosen) ∧
    labelled board' labels.
Proof.
  intros Hsize. unfold InitializeBoard. rewrite forGrid_allCells.
  (* the first loop rolls the cubes *)
  match goal with |- context [foldM ?body ?cs ?s0] =>
    destruct (foldM_returns_at
      (fun pre st =>
         numRows (fst st) = numRows board ∧ numCols (fst st) = numCols board ∧
         raw (snd st) = raw r ∧
         drawn (snd st) = (drawn r + length pre)%nat ∧
         ∀ k l, pre !! k = Some l → rolled r k (tokenAt (fst st) l))
      body cs s0) as ([b1 r1] & -> & Hrows1 & Hcols1 & Hraw1 & Hdrawn1 & Hroll)
  end.
  { simpl. split_and!; [done|done|done|lia|]. intros k l Hk. done. }
  { intros pre x post [b r0] Hcells (Hrows & Hcols & Hraw & Hdrawn & Hroll).
    simpl in Hrows, Hcols, Hraw, Hdrawn, Hroll.
    destruct (allCells_position _ _ _ _ Hcells) as [Hpos Hon].
    assert (Hlen : (length pre < numRows board * numCols board)%nat).
    { rewrite <- length_allCells, Hcells, length_app. simpl. lia. }
    destruct (RandomInteger 0 5 r0) as [RandNum r0'] eqn:Hrand.
    destruct (RandomInteger_range 0 5 r0) as (Hrange & Hraw' & Hdrawn'); [lia|].
    rewrite Hrand in Hrange, Hraw', Hdrawn'. simpl in Hrange, Hraw', Hdrawn'.
    rewrite Hcols, <- Hpos.
    destruct (arrayAt_Ret StandardCubes (Z.of_nat (length pre)))
      as (cube & -> & Hcube); [simpl; lia|]. simpl.
    rewrite Nat2Z.id in Hcube.
    pose proof StandardCubes_faces as Hall. rewrite Forall_forall in Hall.
    destruct (Hall cube) as [Hsix _]; [by eapply list_elem_of_lookup_2|].
    destruct (charAt_Ret cube RandNum) as (face & -> & Hface);
      [rewrite Hsix; lia|]. simpl.
    destruct (gridSet_Ret b (numRow x) (numCol x) (String face EmptyString))
      as (b' & -> & Hrows' & Hcols' & Htok').
    { unfold inBounds. rewrite Hrows, Hcols. exact Hon. }
    simpl. eexists. split; [done|]. simpl.
    split_and!; try congruence.
    - rewrite Hdrawn', Hdrawn, length_app. simpl. lia.
    - intros k l Hk. rewrite Htok'.
      replace (mkLoc (numRow x) (numCol x)) with x by (by destruct x).
      destruct (decide (k < length pre)%nat) as [Hlt | Hge].
      + rewrite lookup_app_l in Hk by done.
        case_decide as Heq; [|by apply Hroll]. subst l. exfalso.
        pose proof (NoDup_allCells board) as Hnd. rewrite Hcells in Hnd.
        apply NoDup_app in Hnd as (_ & Hdis & _).
        apply (Hdis x); [by eapply list_elem_of_lookup_2|by left].
      + rewrite lookup_app_r in Hk by lia.
        destruct (k - length pre)%nat as [|n] eqn:Hn; simpl in Hk; [|by destruct n].
        injection Hk as <-. rewrite decide_True by done.
        assert (k = length pre) as -> by lia.
        exists cube, face. split_and!; [done| |done].
        rewrite <- Hface. f_equal.
        unfold RandomInteger in Hrand. injection Hrand as <- _.
        rewrite Hraw, Hdrawn.
        replace (5 - 0 + 1) with (Z.of_nat 6) by done.
        by rewrite Z.add_0_l, <- Nat2Z.inj_mod, Nat2Z.id. }
  simpl in Hrows1, Hcols1, Hraw1, Hdrawn1, Hroll.
  rewrite bind_Ret, forGrid_allCells.
  (* the second loop exchanges them *)
  match goal with |- context [foldM ?body ?cs ?s0] =>
    destruct (foldM_returns_at
      (fun pre st =>
         numRows (fst st) = numRows board ∧ numCols (fst st) = numCols board ∧
         raw (snd st) = raw r ∧
         drawn (snd st) = (drawn r1 + 2 * length pre)%nat ∧
         boardTokens (fst st) ≡ₚ boardTokens b1)
      body cs s0) as ([b2 r2] & -> & Hrows2 & Hcols2 & Hraw2 & Hdrawn2 & Hperm)
  end.
  { simpl. split_and!; [done|done|done|lia|done]. }
  { intros pre x post [b r0] Hcells (Hrows & Hcols & Hraw & Hdrawn & Hperm).
    simpl in Hrows, Hcols, Hraw, Hdrawn, Hperm.
    destruct (allCells_position _ _ _ _ Hcells) as [_ Hon].
    pose proof Hon as Hon'. apply inBounds_spec in Hon'.
    destruct (RandomInteger 0 (Z.of_nat (numRows b) - 1) r0)
      as [RandRow r0'] eqn:Hrand1.
    destruct (RandomInteger_range 0 (Z.of_nat (numRows b) - 1) r0)
      as (Hrange1 & Hraw' & Hdrawn'); [lia|].
    rewrite Hrand1 in Hrange1, Hraw', Hdrawn'. simpl in Hrange1, Hraw', Hdrawn'.
    destruct (RandomInteger 0 (Z.of_nat (numCols b) - 1) r0')
      as [RandCol r0''] eqn:Hrand2.
    destruct (RandomInteger_range 0 (Z.of_nat (numCols b) - 1) r0')
      as (Hrange2 & Hraw'' & Hdrawn''); [lia|].
    rewrite Hrand2 in Hrange2, Hraw'', Hdrawn''.
    simpl in Hrange2, Hraw'', Hdrawn''.
    assert (Hb : onBoard b x = true) by (by rewrite (onBoard_dims board b)).
    assert (Hr : inBounds b RandRow RandCol = true) by (apply inBounds_spec; lia).
    rewrite !gridAt_inBounds by done. simpl.
    destruct (gridSet_Ret b (numRow x) (numCol x) (cell b RandRow RandCol))
      as (b' & -> & Hrows' & Hcols' & Htok'); [done|]. simpl.
    destruct (gridSet_Ret b' RandRow RandCol (cell b (numRow x) (numCol x)))
      as (b'' & -> & Hrows'' & Hcols'' & Htok'').
    { unfold inBounds. rewrite Hrows', Hcols'. exact Hr. }
    simpl. eexists. split; [done|]. simpl. split_and!; try congruence.
    - rewrite Hdrawn'', Hdrawn', Hdrawn, length_app. simpl. lia.
    - rewrite <- Hperm.
      apply (boardTokens_swap b b' b'' x (mkLoc RandRow RandCol));
        try done; try congruence.
      intros l. rewrite Htok'.
      by replace (mkLoc (numRow x) (numCol x)) with x by (by destruct x). }
  simpl in Hrows2, Hcols2, Hraw2, Hdrawn2, Hperm. rewrite bind_Ret.
  cbn [fst snd].
  (* the tokens are the rolled ones, exchanged *)
  assert (Hlen1 : length (boardTokens b1) = (numRows board * numCols board)%nat).
  { unfold boardTokens. rewrite length_map, length_allCells. congruence. }
  assert (Hchosen : ∀ k tok, boardTokens b1 !! k = Some tok → rolled r k tok).
  { intros k tok Hk. apply boardTokens_lookup in Hk as (l & Hl & ->).
    rewrite (allCells_dims board b1) in Hl by done. by apply Hroll. }
  assert (Hne : allTokens nonEmpty b2 = true).
  { apply allTokens_boardTokens. rewrite Hperm. apply Forall_forall.
    intros tok Htok. apply list_elem_of_lookup in Htok as (k & Hk).
    apply Hchosen in Hk as (cube & face & _ & _ & ->). done. }
  destruct (labelCubes_Ret b2 Hne) as (labels & -> & Hlabels). simpl.
  exists b2, r2, labels. split_and!; try done.
  - rewrite Hdrawn2, Hdrawn1, length_allCells. lia.
  - by exists (boardTokens b1).
Qed.

(** Extra X10. On a board of 16 cells or fewer, [InitializeBoard] returns a
    board of the same dimensions whose every token is one upper-case
    character, as the searches expect, and labels every cube of the display
    with the character of its cell. *)
Theorem InitializeBoard_sets_the_board_up board r :
  (numRows board * numCols board ≤ 16)%nat →
  ∃ board' r' labels,
    InitializeBoard board r = Ret (board', r', labels) ∧
    numRows board' = numRows board ∧ numCols board' = numCols board ∧
    allTokens singleUpper board' = true ∧
    labelled board' labels.
Proof.
  intros Hsize.
  destruct (InitializeBoard_spec board r Hsize)
    as (board' & r' & labels & Hrun & Hrows & Hcols & _ & _
        & (chosen & _ & Hchosen & Hperm) & Hlabels).
  exists board', r', labels. split_and!; try done.
  apply allTokens_boardTokens. rewrite Hperm. apply Forall_forall.
  intros tok Htok. apply list_elem_of_lookup in Htok as (k & Hk).
  by apply Hchosen, rolled_singleUpper in Hk.
Qed.

Lemma InitializeBoard_sets_the_board_up_witness :
  (numRows board4x4 * numCols board4x4 ≤ 16)%nat ∧
  ∃ board' r' labels,
    InitializeBoard board4x4 someRandom = Ret (board', r', labels) ∧
    numRows board' = numRows board4x4 ∧ numCols board' = numCols board4x4 ∧
    allTokens singleUpper board' = true ∧
    labelled board' labels.
Proof.
  split; [simpl; lia|].
  apply (InitializeBoard_sets_the_board_up board4x4 someRandom). simpl. lia.
Defined.

(** Extra X11. [InitializeBoard] uses every cube once: the tokens of the
    board it returns are, in some order, the faces rolled for the cubes, the
    face of the cube number [k] being selected by the draw number [k]; and
    it makes three draws for each cell. *)
Theorem InitializeBoard_rolls_each_cube_once board r board' r' labels :
  (numRows board * numCols board ≤ 16)%nat →
  InitializeBoard board r = Ret (board', r', labels) →
  (∃ chosen, length chosen = (numRows board * numCols board)%nat ∧
             (∀ k tok, chosen !! k = Some tok → rolled r k tok) ∧
             boardTokens board' ≡ₚ chosen) ∧
  raw r' = raw r ∧
  drawn r' = (drawn r + 3 * (numRows board * numCols board))%nat.
Proof.
  intros Hsize Hrun.
  destruct (InitializeBoard_spec board r Hsize)
    as (b & r1 & l & Hrun' & _ & _ & Hraw & Hdrawn & Hchosen & _).
  rewrite Hrun in Hrun'. injection Hrun' as -> -> ->. done.
Qed.

Lemma InitializeBoard_rolls_each_cube_once_witness :
  ∃ board' r' labels,
    InitializeBoard board4x4 someRandom = Ret (board', r', labels) ∧
    (∃ chosen, length chosen = (numRows board4x4 * numCols board4x4)%nat ∧
               (∀ k tok, chosen !! k = Some tok → rolled someRandom k tok) ∧
               boardTokens board' ≡ₚ chosen) ∧
    raw r' = raw someRandom ∧
    drawn r' = (drawn someRandom + 3 * (numRows board4x4 * numCols board4x4))%nat.
Proof.
  eexists _, _, _. split; [vm_compute; reflexivity|].
  eapply (InitializeBoard_rolls_each_cube_once board4x4 someRandom).
  - simpl. lia.
  - vm_compute. reflexivity.
Defined.

(** A loop that faults at its element number [n] faults. *)
Lemma foldM_faults_at {A S : Type} (P : list A → S → Prop)
  (body : A → S → outcome S) l s n :
  P [] s →
  (∀ pre x post s1, l = pre ++ x :: post → P pre s1 →
     ((length pre < n)%nat → ∃ s2, body x s1 = Ret s2 ∧ P (pre ++ [x]) s2) ∧
     (length pre = n → body x s1 = Fault)) →
  (n < length l)%nat →
  foldM body l s = Fault.
Proof.
  intros Hinit Hstep Hn.
  assert (Hgen : ∀ post pre s1,
    l = pre ++ post → P pre s1 → (length pre ≤ n)%nat →
    foldM body post s1 = Fault).
  { induction post as [|x post IH]; intros pre s1 Hl Hpre Hlen.
    - rewrite app_nil_r in Hl. subst pre. lia.
    - rewrite foldM_cons. destruct (Hstep pre x post s1 Hl Hpre) as [Hgo Hstop].
      destruct (decide (length pre = n)) as [Heq | Hne].
      + by rewrite Hstop.
      + destruct Hgo as (s2 & -> & Hs2); [lia|]. simpl.
        apply (IH (pre ++ [x])); [by rewrite <- app_assoc|done|].
        rewrite length_app. simpl. lia. }
  apply (Hgen l [] s); [done|done|simpl; lia].
Qed.

(** Extra X12. [InitializeBoard] serves boards of at most 16 cells: on a
    larger board it reads [StandardCubes] past its sixteenth cube, a fault. *)
Theorem InitializeBoard_big_board board r :
  (16 < numRows board * numCols board)%nat →
  InitializeBoard board r = Fault.
Proof.
  intros Hsize. unfold InitializeBoard. rewrite forGrid_allCells.
  match goal with |- context [foldM ?body ?cs ?s0] =>
    rewrite (foldM_faults_at
      (fun pre st => numRows (fst st) = numRows board ∧
                     numCols (fst st) = numCols board)
      body cs s0 16) end; [done|done| |by rewrite length_allCells].
  intros pre x post [b r0] Hcells [Hrows Hcols]. simpl in Hrows, Hcols.
  destruct (allCells_position _ _ _ _ Hcells) as [Hpos Hon].
  destruct (RandomInteger 0 5 r0) as [RandNum r0'] eqn:Hrand.
  destruct (RandomInteger_range 0 5 r0) as (Hrange & _); [lia|].
  rewrite Hrand in Hrange. simpl in Hrange.
  rewrite Hcols, <- Hpos. split.
  - intros Hlt.
    destruct (arrayAt_Ret StandardCubes (Z.of_nat (length pre)))
      as (cube & -> & Hcube); [simpl; lia|]. simpl.
    pose proof StandardCubes_faces as Hall. rewrite Forall_forall in Hall.
    destruct (Hall cube) as [Hsix _]; [by eapply list_elem_of_lookup_2|].
    destruct (charAt_Ret cube RandNum) as (face & -> & Hface);
      [rewrite Hsix; lia|]. simpl.
    destruct (gridSet_Ret b (numRow x) (numCol x) (String face EmptyString))
      as (b' & -> & Hrows' & Hcols' & _).
    { unfold inBounds. rewrite Hrows, Hcols. exact Hon. }
    simpl. eexists. split; [done|]. simpl. split; congruence.
  - intros ->. reflexivity.
Qed.

Lemma InitializeBoard_big_board_witness :
  (16 < 5 * 5)%nat ∧
  InitializeBoard (mkGrid 5 5 (fun _ _ => EmptyString)) someRandom = Fault.
Proof.
  split; [lia|].
  apply (InitializeBoard_big_board (mkGrid 5 5 (fun _ _ => EmptyString))).
  simpl. lia.
Defined.

(** ** The configuration typed by the user *)

Lemma chars_ConvertToUpperCase s :
  chars (ConvertToUpperCase s) = map toupper (chars s).
Proof. induction s as [|c s IH]; simpl; [done|]. by rewrite IH. Qed.

Lemma chars_substring n s : chars (String.substring 0 n s) = take n (chars s).
Proof.
  revert n. induction s as [|c s IH]; intros [|n]; simpl; try done.
  by rewrite IH.
Qed.

(** What [placeConfiguration] does on a board of 16 cells or fewer. *)
Lemma placeConfiguration_spec board config :
  (16 ≤ String.length config)%nat →
  (numRows board * numCols board ≤ 16)%nat →
  ∃ board' labels,
    placeConfiguration board config = Ret (board', labels) ∧
    numRows board' = numRows board ∧ numCols board' = numCols board ∧
    boardTokens board'
    = map (fun ch => String ch EmptyString)
          (take (numRows board * numCols board) (chars config)) ∧
    labelled board' labels.
Proof.
  intros Hlen Hsize. unfold placeConfiguration.
  set (config' := String.substring 0 16 config).
  assert (Hconfig :
    (if (16 <? String.length config)%nat then substr config 0 16 else Ret config)
    = Ret config').
  { subst config'. destruct (Nat.ltb_spec 16 (String.length config)); [done|].
    f_equal. assert (String.length config = 16%nat) as <- by lia.
    by rewrite substring_all. }
  rewrite Hconfig, bind_Ret, forGrid_allCells.
  assert (Hchars : chars config' = take 16 (chars config))
    by apply chars_substring.
  assert (Hlen' : String.length config' = 16%nat).
  { rewrite <- length_chars, Hchars, length_take, length_chars. lia. }
  match goal with |- context [foldM ?body ?cs ?s0] =>
    destruct (foldM_returns_at
      (fun pre b =>
         numRows b = numRows board ∧ numCols b = numCols board ∧
         ∀ k l, pre !! k = Some l →
                ∃ ch, chars config' !! k = Some ch ∧
                      tokenAt b l = String ch EmptyString)
      body cs s0) as (b1 & -> & Hrows1 & Hcols1 & Htok1)
  end.
  { split_and!; [done|done|]. intros k l Hk. done. }
  { intros pre x post b Hcells (Hrows & Hcols & Htok).
    destruct (allCells_position _ _ _ _ Hcells) as [Hpos Hon].
    assert (Hlt : (length pre < numRows board * numCols board)%nat).
    { rewrite <- length_allCells, Hcells, length_app. simpl. lia. }
    rewrite Hcols, <- Hpos.
    destruct (charAt_Ret config' (Z.of_nat (length pre))) as (ch & -> & Hch);
      [lia|]. rewrite Nat2Z.id in Hch. rewrite bind_Ret.
    destruct (gridSet_Ret b (numRow x) (numCol x) (String ch EmptyString))
      as (b' & -> & Hrows' & Hcols' & Htok').
    { unfold inBounds. rewrite Hrows, Hcols. exact Hon. }
    eexists. split; [done|]. split_and!; try congruence.
    intros k l Hk. rewrite Htok'.
    replace (mkLoc (numRow x) (numCol x)) with x by (by destruct x).
    destruct (decide (k < length pre)%nat) as [Hk' | Hk'].
    - rewrite lookup_app_l in Hk by done.
      case_decide as Heq; [|by apply Htok]. subst l. exfalso.
      pose proof (NoDup_allCells board) as Hnd. rewrite Hcells in Hnd.
      apply NoDup_app in Hnd as (_ & Hdis & _).
      apply (Hdis x); [by eapply list_elem_of_lookup_2|by left].
    - rewrite lookup_app_r in Hk by lia.
      destruct (k - length pre)%nat as [|n] eqn:Hn; simpl in Hk; [|by destruct n].
      injection Hk as <-. rewrite decide_True by done.
      assert (k = length pre) as -> by lia. by exists ch. }
  rewrite bind_Ret.
  assert (Htokens : boardTokens b1
                    = map (fun ch => String ch EmptyString)
                          (take (numRows board * numCols board) (chars config))).
  { apply list_eq. intros k. unfold boardTokens.
    rewrite (allCells_dims board b1) by done.
    rewrite !list_lookup_fmap.
    destruct (allCells board !! k) as [l|] eqn:Hl; simpl.
    - destruct (Htok1 k l Hl) as (ch & Hch & ->).
      assert (Hk : (k < numRows board * numCols board)%nat).
      { rewrite <- length_allCells. by eapply lookup_lt_Some. }
      rewrite Hchars in Hch. rewrite lookup_take_lt in Hch by lia.
      rewrite lookup_take_lt by done. change (list_fmap ?A ?B ?f) with (map f).
      by rewrite Hch.
    - apply lookup_ge_None in Hl. rewrite length_allCells in Hl.
      symmetry. apply fmap_None, lookup_ge_None.
      rewrite length_take. lia. }
  assert (Hne : allTokens nonEmpty b1 = true).
  { apply allTokens_boardTokens. rewrite Htokens. apply Forall_forall.
    intros tok Htok. apply list_elem_of_fmap in Htok as (ch & -> & _). done. }
  destruct (labelCubes_Ret b1 Hne) as (labels & -> & Hlabels). rewrite bind_Ret.
  by exists b1, labels.
Qed.

Lemma UserConfigureBoard_unfold fuel board c :
  UserConfigureBoard (S fuel) board c =
  let line := fst (GetLine c) in
  let c' :=
    mkConsole (pending (snd (GetLine c)))
      (printed c
       ++ ["Please enter your configuration. It must be 16 letters: "; endl]) in
  if (15 <? String.length (ConvertToUpperCase line))%nat
  then placed ← placeConfiguration board (ConvertToUpperCase line);
       Ret (fst placed, c', snd placed)
  else UserConfigureBoard fuel board
         (mkConsole (pending c')
            (printed c' ++ ["String too short. Enter another string"; endl])).
Proof.
  destruct c as [[|line rest] out]; cbn [UserConfigureBoard]; unfold GetLine, cout;
    cbn [pending printed fst snd]; rewrite <- !app_assoc; reflexivity.
Qed.

(** What [UserConfigureBoard] does with the lines of the input. *)
Lemma UserConfigureBoard_spec board line rest : ∀ shorts fuel c,
  pending c = shorts ++ line :: rest →
  Forall (fun s => (String.length s < 16)%nat) shorts →
  (16 ≤ String.length line)%nat →
  (length shorts < fuel)%nat →
  (numRows board * numCols board ≤ 16)%nat →
  ∃ board' labels,
    UserConfigureBoard fuel board c
    = Ret (board',
           mkConsole rest
             (printed c
              ++ flat_map (fun _ =>
                   ["Please enter your configuration. It must be 16 letters: ";
                    endl; "String too short. Enter another string"; endl])
                   shorts
              ++ ["Please enter your configuration. It must be 16 letters: ";
                  endl]),
           labels) ∧
    numRows board' = numRows board ∧ numCols board' = numCols board ∧
    boardTokens board'
    = map (fun ch => String (toupper ch) EmptyString)
          (take (numRows board * numCols board) (chars line)) ∧
    labelled board' labels.
Proof.
  induction shorts as [|short shorts IH]; intros fuel c Hpending Hshorts Hline
    Hfuel Hsize; (destruct fuel as [|fuel]; [simpl in Hfuel; lia|]);
    rewrite UserConfigureBoard_unfold; unfold GetLine; rewrite Hpending;
    cbn [fst snd app pending printed].
  - rewrite ConvertToUpperCase_length.
    destruct (Nat.ltb_spec 15 (String.length line)); [|lia].
    destruct (placeConfiguration_spec board (ConvertToUpperCase line))
      as (board' & labels & -> & Hrows & Hcols & Htokens & Hlabels);
      [rewrite ConvertToUpperCase_length; lia|done|].
    rewrite bind_Ret. exists board', labels. split_and!; try done.
    rewrite Htokens, chars_ConvertToUpperCase, <- fmap_take.
    change (list_fmap ?A ?B ?f) with (map f). by rewrite map_map.
  - apply Forall_cons in Hshorts as [Hshort Hshorts].
    rewrite ConvertToUpperCase_length.
    destruct (Nat.ltb_spec 15 (String.length short)); [lia|].
    destruct (IH fuel
      (mkConsole (shorts ++ line :: rest)
         ((printed c
           ++ ["Please enter your configuration. It must be 16 letters: "; endl])
          ++ ["String too short. Enter another string"; endl])))
      as (board' & labels & -> & Hrest); [done|done|done|simpl in Hfuel; lia|done|].
    exists board', labels. split; [|done].
    do 3 f_equal. cbn [printed flat_map]. by rewrite <- !app_assoc.
Qed.

(** Extra X13. [UserConfigureBoard] skips the lines of fewer than 16
    characters, answering each with its message, and takes the first line of
    16 characters or more: on a board of 16 cells or fewer, the cell number
    [k] of the board, in row-major order, receives the character number [k]
    of that line, in upper case; the characters past the sixteenth and the
    lines that follow are left alone, and the cubes are labelled. *)
Theorem UserConfigureBoard_places_the_line board fuel c shorts line rest :
  pending c = shorts ++ line :: rest →
  Forall (fun s => (String.length s < 16)%nat) shorts →
  (16 ≤ String.length line)%nat →
  (length shorts < fuel)%nat →
  (numRows board * numCols board ≤ 16)%nat →
  ∃ board' c' labels,
    UserConfigureBoard fuel board c = Ret (board', c', labels) ∧
    pending c' = rest ∧
    printed c'
    = printed c
      ++ flat_map (fun _ =>
           ["Please enter your configuration. It must be 16 letters: ";
            endl; "String too short. Enter another string"; endl])
           shorts
      ++ ["Please enter your configuration. It must be 16 letters: "; endl] ∧
    numRows board' = numRows board ∧ numCols board' = numCols board ∧
    boardTokens board'
    = map (fun ch => String (toupper ch) EmptyString)
          (take (numRows board * numCols board) (chars line)) ∧
    allTokens singleUpper board' = true ∧
    labelled board' labels.
Proof.
  intros Hpending Hshorts Hline Hfuel Hsize.
  destruct (UserConfigureBoard_spec board line rest shorts fuel c)
    as (board' & labels & Hrun & Hrows & Hcols & Htokens & Hlabels); try done.
  eexists board', _, labels. split; [exact Hrun|]. split_and!; try done.
  apply allTokens_boardTokens. rewrite Htokens. apply Forall_forall.
  intros tok Htok. apply list_elem_of_fmap in Htok as (ch & -> & _).
  apply singleUpper_spec. exists (toupper ch). split; [done|apply toupper_idemp].
Qed.

Lemma UserConfigureBoard_places_the_line_witness :
  ∃ board' c' labels,
    UserConfigureBoard 2 board4x4
      (mkConsole ["cats"; "catsorenxxxxxxxxzz"; "next"] []) = Ret (board', c', labels) ∧
    pending c' = ["next"] ∧
    printed c'
    = []
      ++ flat_map (fun _ =>
           ["Please enter your configuration. It must be 16 letters: ";
            endl; "String too short. Enter another string"; endl])
           ["cats"]
      ++ ["Please enter your configuration. It must be 16 letters: "; endl] ∧
    numRows board' = numRows board4x4 ∧ numCols board' = numCols board4x4 ∧
    boardTokens board'
    = map (fun ch => String (toupper ch) EmptyString)
          (take (numRows board4x4 * numCols board4x4)
                (chars "catsorenxxxxxxxxzz")) ∧
    allTokens singleUpper board' = true ∧
    labelled board' labels.
Proof.
  apply (UserConfigureBoard_places_the_line board4x4 2
           (mkConsole ["cats"; "catsorenxxxxxxxxzz"; "next"] [])
           ["cats"] "catsorenxxxxxxxxzz" ["next"]).
  - reflexivity.
  - repeat constructor.
  - simpl. lia.
  - simpl. lia.
  - simpl. lia.
Defined.

(** Extra X14. [UserConfigureBoard] never returns while the input holds no
    line of 16 characters: whatever the fuel, it is still asking. *)
Theorem UserConfigureBoard_keeps_asking board : ∀ fuel c,
  Forall (fun s => (String.length s < 16)%nat) (pending c) →
  UserConfigureBoard fuel board c = OutOfFuel.
Proof.
  induction fuel as [|fuel IH]; intros c Hshort; [done|].
  rewrite UserConfigureBoard_unfold. unfold GetLine.
  destruct (pending c) as [|line rest] eqn:Hpending; cbn [fst snd pending].
  - simpl. apply IH. simpl. by rewrite Hpending.
  - apply Forall_cons in Hshort as [Hline Hrest].
    rewrite ConvertToUpperCase_length.
    destruct (Nat.ltb_spec 15 (String.length line)); [lia|]. by apply IH.
Qed.

Lemma UserConfigureBoard_keeps_asking_witness :
  UserConfigureBoard 7 board4x4 (mkConsole ["cats"; "fifteen letters"] [])
  = OutOfFuel.
Proof.
  apply (UserConfigureBoard_keeps_asking board4x4 7).
  simpl. repeat constructor.
Defined.

(** ** The turn of the player *)

Lemma PlayerTurn_unfold fuel turns lex g c :
  PlayerTurn fuel (S turns) lex g c =
  let word := ConvertToUpperCase (fst (GetLine c)) in
  let c' :=
    mkConsole (pending (snd (GetLine c)))
      (printed c
       ++ ["Please enter a word found in the puzzle (ENTER to finish): "]) in
  if String.eqb word EmptyString then Ret (g, c')
  else
    r ← WordIsValid fuel word lex g;
    if (fst r : bool)
    then PlayerTurn fuel turns lex (putWordOnBoard word (snd r)) c'
    else PlayerTurn fuel turns lex (snd r)
           (mkConsole (pending c')
              (printed c' ++ ["Sorry, that word is invalid. "])).
Proof. by destruct c as [[|line rest] out]. Qed.

Lemma scored_highlights (path : list locationT) flag :
  scored (map (fun l => HighlightCube (numRow l) (numCol l) flag) path) = [].
Proof. by induction path. Qed.

Lemma recordedFor_highlights p (path : list locationT) flag :
  recordedFor p (map (fun l => HighlightCube (numRow l) (numCol l) flag) path)
  = [].
Proof. by induction path. Qed.

(** What an accepted word is, and what accepting it does to the game. *)
Lemma WordIsValid_true fuel word lex g g' :
  WordIsValid fuel word lex g = Ret (true, g') →
  (4 ≤ String.length word)%nat ∧ (word ∉ wordsSeen g) ∧
  containsWord lex word = true ∧
  (∃ results, Findable fuel (board g) word (-1) (-1) [] [] = Ret results ∧
              results ≠ []) ∧
  board g' = board g ∧ wordsSeen g' = wordsSeen g ∧
  scored (display g') = scored (display g) ∧
  ∀ p, recordedFor p (display g') = recordedFor p (display g).
Proof.
  rewrite WordIsValid_cases.
  destruct (Nat.ltb_spec (String.length word) 4); [done|].
  destruct (bool_decide_reflect (word ∈ wordsSeen g)); [done|].
  destruct (containsWord lex word); [|done]. simpl.
  destruct (Findable _ _ _ _ _ _ _) as [[|answer results]| |] eqn:Hfind;
    try done.
  intros [= <-]. unfold emit. simpl. split_and!; try done.
  - by eexists.
  - rewrite !scored_app. simpl. by rewrite !scored_highlights, app_nil_r.
  - intros p. rewrite !recordedFor_app. simpl.
    by rewrite !recordedFor_highlights, app_nil_r.
Qed.

Lemma WordIsValid_false fuel word lex g g' :
  WordIsValid fuel word lex g = Ret (false, g') → g' = g.
Proof.
  rewrite WordIsValid_cases.
  destruct (_ <? 4)%nat; [by intros [= <-]|].
  destruct (bool_decide _); [by intros [= <-]|].
  destruct (negb _); [by intros [= <-]|].
  destruct (Findable _ _ _ _ _ _ _) as [[|answer results]| |]; try done.
  by intros [= <-].
Qed.

(** What [PlayerTurn] does to the game. *)
Lemma PlayerTurn_spec fuel lex : ∀ turns g c g' c',
  PlayerTurn fuel turns lex g c = Ret (g', c') →
  board g' = board g ∧
  recordedFor Computer (display g') = recordedFor Computer (display g) ∧
  ∃ accepted,
    wordsSeen g' = wordsSeen g ∪ list_to_set accepted ∧
    scored (display g') = scored (display g) ++ accepted ∧
    recordedFor Human (display g') = recordedFor Human (display g) ++ accepted ∧
    NoDup accepted ∧
    ∀ w, w ∈ accepted →
      (w ∉ wordsSeen g) ∧
      (4 ≤ String.length w)%nat ∧
      containsWord lex w = true ∧
      (∃ results, Findable fuel (board g) w (-1) (-1) [] [] = Ret results ∧
                  results ≠ []) ∧
      ∃ line, line ∈ pending c ∧ w = ConvertToUpperCase line.
Proof.
  induction turns as [|turns IH]; intros g c g' c'; [done|].
  rewrite PlayerTurn_unfold. cbn zeta.
  set (word := ConvertToUpperCase (fst (GetLine c))).
  assert (Hline : word ≠ EmptyString →
                  ∃ line, line ∈ pending c ∧ word = ConvertToUpperCase line).
  { subst word. unfold GetLine. destruct (pending c) as [|line rest]; [done|].
    intros _. exists line. split; [by left|done]. }
  assert (Hrest : ∀ x, x ∈ pending (snd (GetLine c)) → x ∈ pending c).
  { unfold GetLine. destruct (pending c) as [|line rest] eqn:Hp; simpl.
    - by rewrite Hp.
    - intros x Hx. by right. }
  destruct (String.eqb_spec word EmptyString) as [Hblank | Hword].
  { intros [= <- <-]. split_and!; [done..|]. exists []. simpl.
    rewrite union_empty_r_L, !app_nil_r. split_and!; [done..|constructor|].
    intros w Hw. by apply elem_of_nil in Hw. }
  destruct (WordIsValid fuel word lex g) as [[[] g1]| |] eqn:Hvalid;
    simpl; try done.
  - apply WordIsValid_true in Hvalid
      as (Hlen & Hnew & Hlex & Hfind & Hboard & Hseen & Hscored & Hrec).
    intros Hrun. apply IH in Hrun
      as (Hboard' & Hcomp & accepted & Hseen' & Hscored' & Hhuman & Hnd & Hacc).
    unfold putWordOnBoard, addSeen, emit in *. simpl in *.
    rewrite scored_app in Hscored'. rewrite recordedFor_app in Hcomp, Hhuman.
    simpl in Hscored', Hcomp, Hhuman.
    rewrite app_nil_r in Hcomp. rewrite Hrec in Hcomp, Hhuman.
    split_and!; [congruence|done|].
    exists (word :: accepted). split_and!.
    + rewrite Hseen', Hseen. set_solver.
    + by rewrite Hscored', Hscored, <- app_assoc.
    + by rewrite Hhuman, <- app_assoc.
    + apply NoDup_cons. split; [|done]. intros Hin.
      apply Hacc in Hin as (Hnot & _). set_solver.
    + intros w Hw. apply elem_of_cons in Hw as [-> | Hw].
      * split_and!; try done. by apply Hline.
      * destruct (Hacc w Hw) as (Hnot & Hl & Hc & Hf & line & Hin & ->).
        rewrite Hboard in Hf. split_and!; try done; [set_solver|].
        exists line. split; [by apply Hrest|done].
  - apply WordIsValid_false in Hvalid as ->.
    intros Hrun. apply IH in Hrun
      as (Hboard' & Hcomp & accepted & Hseen' & Hscored' & Hhuman & Hnd & Hacc).
    split_and!; [done..|]. exists accepted. split_and!; try done.
    intros w Hw. destruct (Hacc w Hw) as (Hnot & Hl & Hc & Hf & line & Hin & ->).
    split_and!; try done. exists line. split; [by apply Hrest|done].
Qed.

(** Extra X15. The player's turn leaves the board and the computer's words
    as they were. The words it records for the player are distinct, were
    not claimed before, have four characters or more, are in the lexicon,
    are traced on the board by [Findable], and each is a line of the input
    in upper case; they are what the turn adds to [wordsSeen]. *)
Theorem PlayerTurn_accepts_only_valid_words fuel turns lex g c g' c' :
  PlayerTurn fuel turns lex g c = Ret (g', c') →
  board g' = board g ∧
  recordedFor Computer (display g') = recordedFor Computer (display g) ∧
  ∃ accepted,
    wordsSeen g' = wordsSeen g ∪ list_to_set accepted ∧
    recordedFor Human (display g') = recordedFor Human (display g) ++ accepted ∧
    NoDup accepted ∧
    ∀ w, w ∈ accepted →
      (w ∉ wordsSeen g) ∧
      (4 ≤ String.length w)%nat ∧
      containsWord lex w = true ∧
      (∃ results, Findable fuel (board g) w (-1) (-1) [] [] = Ret results ∧
                  results ≠ []) ∧
      ∃ line, line ∈ pending c ∧ w = ConvertToUpperCase line.
Proof.
  intros Hrun. apply PlayerTurn_spec in Hrun
    as (Hboard & Hcomp & accepted & Hseen & _ & Hhuman & Hnd & Hacc).
  split_and!; [done..|]. by exists accepted.
Qed.

Lemma PlayerTurn_accepts_only_valid_words_witness :
  ∃ g' c',
    PlayerTurn 5 5 lexCATS (newGame boardCATS)
      (mkConsole ["cats"; "cat"; "CATS"; ""; "YES"] []) = Ret (g', c') ∧
    board g' = boardCATS ∧
    recordedFor Human (display g') = ["CATS"].
Proof.
  eexists _, _. split; [vm_compute; reflexivity|].
  edestruct (PlayerTurn_accepts_only_valid_words 5 5 lexCATS (newGame boardCATS)
               (mkConsole ["cats"; "cat"; "CATS"; ""; "YES"] []))
    as (Hboard & _ & _); [vm_compute; reflexivity|].
  split; [exact Hboard|]. vm_compute. reflexivity.
Defined.

Lemma PlayerTurn_sound fuel turns lex g c g' c' :
  PlayerTurn fuel turns lex g c = Ret (g', c') →
  wordsSeen g ⊆ wordsSeen g' ∧ (scoreboardSound g → scoreboardSound g').
Proof.
  intros Hrun. apply PlayerTurn_spec in Hrun
    as (_ & _ & accepted & Hseen & Hscored & _ & Hnd & Hacc).
  split; [set_solver|]. intros [Hnd0 Hsub]. split.
  - rewrite Hscored. apply NoDup_app. split_and!; [done| |done].
    intros w Hw Hw'. apply Hacc in Hw' as [Hnot _]. auto.
  - intros w. rewrite Hscored, Hseen, elem_of_app. set_solver.
Qed.

(** Extra X16. The player's turn only adds to [wordsSeen], and it keeps the
    scoreboard sound: no word is scored twice, not even a word the player
    enters again, or one already scored, and every scored word is claimed. *)
Theorem PlayerTurn_keeps_scoreboard fuel turns lex g c g' c' :
  PlayerTurn fuel turns lex g c = Ret (g', c') →
  scoreboardSound g →
  wordsSeen g ⊆ wordsSeen g' ∧ scoreboardSound g'.
Proof.
  intros Hrun Hsound. apply PlayerTurn_sound in Hrun as [Hsub Hkeep]. auto.
Qed.

Lemma PlayerTurn_keeps_scoreboard_witness :
  ∃ g' c',
    PlayerTurn 5 5 lexCATS (newGame boardCATS)
      (mkConsole ["cats"; "cat"; "CATS"; ""; "YES"] []) = Ret (g', c') ∧
    wordsSeen (newGame boardCATS) ⊆ wordsSeen g' ∧ scoreboardSound g'.
Proof.
  eexists _, _. split; [vm_compute; reflexivity|].
  eapply (PlayerTurn_keeps_scoreboard 5 5 lexCATS (newGame boardCATS)
            (mkConsole ["cats"; "cat"; "CATS"; ""; "YES"] [])).
  - vm_compute. reflexivity.
  - split; [constructor|]. intros w Hw. by apply elem_of_nil in Hw.
Defined.

Lemma ConvertToUpperCase_blank s :
  ConvertToUpperCase s = EmptyString ↔ s = EmptyString.
Proof. by destruct s. Qed.

Lemma WordIsValid_returns fuel word lex g :
  allTokens nonEmpty (board g) = true →
  (String.length word < fuel)%nat →
  ∃ ok g', WordIsValid fuel word lex g = Ret (ok, g') ∧ board g' = board g.
Proof.
  intros Htok Hlen. rewrite WordIsValid_cases.
  destruct (_ <? 4)%nat; [by eexists _, _|].
  destruct (bool_decide _); [by eexists _, _|].
  destruct (negb _); [by eexists _, _|].
  destruct (Findable_returns fuel (board g) word (-1) (-1) [] [] Htok Hlen)
    as ([|answer results] & ->); by eexists _, _.
Qed.

(** On a board without empty tokens the player's turn ends at the first
    blank line, or where the input ends. *)
Lemma PlayerTurn_returns fuel lex : ∀ turns words rest g c,
  allTokens nonEmpty (board g) = true →
  pending c = words ++ rest →
  Forall (fun line => line ≠ EmptyString ∧ (String.length line < fuel)%nat)
         words →
  head rest = None ∨ head rest = Some EmptyString →
  (length words < turns)%nat →
  ∃ g' c', PlayerTurn fuel turns lex g c = Ret (g', c') ∧
           pending c' = tail rest.
Proof.
  induction turns as [|turns IH];
    intros words rest g c Htok Hpending Hwords Hrest Hturns; [lia|].
  rewrite PlayerTurn_unfold. cbn zeta. unfold GetLine. rewrite Hpending.
  destruct words as [|line words]; simpl.
  - destruct rest as [|blank rest]; simpl.
    + by eexists _, _.
    + simpl in Hrest. destruct Hrest as [?|[= ->]]; [done|]. simpl.
      by eexists _, _.
  - apply Forall_cons in Hwords as [[Hline Hlen] Hwords].
    destruct (String.eqb_spec (ConvertToUpperCase line) EmptyString)
      as [Hblank|_].
    { destruct Hline. by apply ConvertToUpperCase_blank. }
    destruct (WordIsValid_returns fuel (ConvertToUpperCase line) lex g)
      as (ok & g1 & -> & Hboard); [done|by rewrite ConvertToUpperCase_length|].
    simpl in Hturns. simpl.
    destruct ok; apply IH with (words := words); simpl; try done; try lia;
      by rewrite Hboard.
Qed.

(** Extra X17. On a board without empty tokens, the player's turn ends at
    the first blank line of the input, or where the input ends: it reads the
    lines before it and the blank line itself, and nothing after. The fuel
    has to exceed the length of each line read, the turns their number. *)
Theorem PlayerTurn_reads_to_the_blank_line fuel turns lex words rest g c :
  allTokens nonEmpty (board g) = true →
  pending c = words ++ rest →
  Forall (fun line => line ≠ EmptyString ∧ (String.length line < fuel)%nat)
         words →
  head rest = None ∨ head rest = Some EmptyString →
  (length words < turns)%nat →
  ∃ g' c', PlayerTurn fuel turns lex g c = Ret (g', c') ∧
           pending c' = tail rest.
Proof. apply PlayerTurn_returns. Qed.

Lemma PlayerTurn_reads_to_the_blank_line_witness :
  ∃ g' c',
    PlayerTurn 5 4 lexCATS (newGame boardCATS)
      (mkConsole ["cats"; "cat"; "CATS"; ""; "YES"] []) = Ret (g', c') ∧
    pending c' = tail [""; "YES"].
Proof.
  apply (PlayerTurn_reads_to_the_blank_line 5 4 lexCATS ["cats"; "cat"; "CATS"]
           [""; "YES"] (newGame boardCATS)
           (mkConsole ["cats"; "cat"; "CATS"; ""; "YES"] [])).
  - vm_compute. reflexivity.
  - reflexivity.
  - repeat constructor; simpl; try done; lia.
  - right. reflexivity.
  - simpl. lia.
Defined.

Lemma PlayerTurn_upper fuel lex : ∀ turns g c g' c',
  PlayerTurn fuel turns lex g c = Ret (g', c') →
  PlayerTurn fuel turns lex g
    (mkConsole (map ConvertToUpperCase (pending c)) (printed c))
  = Ret (g', mkConsole (map ConvertToUpperCase (pending c')) (printed c')).
Proof.
  induction turns as [|turns IH]; intros g c g' c'; [done|].
  rewrite !PlayerTurn_unfold. cbn zeta.
  destruct c as [[|line rest] out]; unfold GetLine;
    cbn [pending printed fst snd map].
  - simpl. by intros [= <- <-].
  - rewrite ConvertToUpperCase_idemp.
    destruct (String.eqb _ _); [by intros [= <- <-]|].
    destruct (WordIsValid _ _ _ _) as [[[] g1]| |]; simpl; try done;
      intros Hrun; apply IH in Hrun; exact Hrun.
Qed.

(** Extra X18. The player's turn does not tell the case of the letters
    entered: with every line of the input in upper case it ends in the same
    game and prints the same. *)
Theorem PlayerTurn_ignores_case fuel turns lex g lines out g' c' :
  PlayerTurn fuel turns lex g (mkConsole lines out) = Ret (g', c') →
  PlayerTurn fuel turns lex g (mkConsole (map ConvertToUpperCase lines) out)
  = Ret (g', mkConsole (map ConvertToUpperCase (pending c')) (printed c')).
Proof. intros Hrun. by apply PlayerTurn_upper in Hrun. Qed.

Lemma PlayerTurn_ignores_case_witness :
  ∃ g' c',
    PlayerTurn 5 5 lexCATS (newGame boardCATS)
      (mkConsole ["cats"; "cat"; ""; "yes"] []) = Ret (g', c') ∧
    PlayerTurn 5 5 lexCATS (newGame boardCATS)
      (mkConsole (map ConvertToUpperCase ["cats"; "cat"; ""; "yes"]) [])
    = Ret (g', mkConsole (map ConvertToUpperCase (pending c')) (printed c')).
Proof.
  eexists _, _. split; [vm_compute; reflexivity|].
  apply (PlayerTurn_ignores_case 5 5 lexCATS (newGame boardCATS)
           ["cats"; "cat"; ""; "yes"] []).
  vm_compute. reflexivity.
Defined.

Lemma PlayerTurn_complete fuel lex : ∀ turns words rest g c g' c',
  pending c = words ++ rest →
  Forall (fun line => line ≠ EmptyString) words →
  PlayerTurn fuel turns lex g c = Ret (g', c') →
  ∀ line, line ∈ words →
    (4 ≤ String.length line)%nat →
    containsWord lex (ConvertToUpperCase line) = true →
    (∃ results, Findable fuel (board g) (ConvertToUpperCase line) (-1) (-1) [] []
                = Ret results ∧ results ≠ []) →
    ConvertToUpperCase line ∈ wordsSeen g'.
Proof.
  induction turns as [|turns IH];
    intros words rest g c g' c' Hpending Hwords; [done|].
  rewrite PlayerTurn_unfold. cbn zeta. unfold GetLine. rewrite Hpending.
  destruct words as [|line0 words]; [by intros _ line Hin; apply elem_of_nil in Hin|].
  apply Forall_cons in Hwords as [Hline0 Hwords]. cbn [app fst snd pending].
  destruct (String.eqb_spec (ConvertToUpperCase line0) EmptyString)
    as [Hblank|_].
  { destruct Hline0. by apply ConvertToUpperCase_blank. }
  destruct (WordIsValid fuel (ConvertToUpperCase line0) lex g)
    as [[[] g1]| |] eqn:Hvalid; simpl; try done; intros Hrun line Hin Hlen Hlex Hfind.
  - apply WordIsValid_true in Hvalid as (_ & _ & _ & _ & Hboard & Hseen & _).
    apply elem_of_cons in Hin as [-> | Hin].
    + apply PlayerTurn_sound in Hrun as [Hsub _]. apply Hsub.
      unfold putWordOnBoard, addSeen, emit. simpl. set_solver.
    + eapply (IH words rest); try exact Hrun; try done.
      unfold putWordOnBoard, addSeen, emit. simpl. by rewrite Hboard.
  - pose proof Hvalid as Hsame. apply WordIsValid_false in Hsame as ->.
    apply elem_of_cons in Hin as [-> | Hin].
    + apply PlayerTurn_sound in Hrun as [Hsub _]. apply Hsub.
      rewrite WordIsValid_cases, ConvertToUpperCase_length in Hvalid.
      destruct (Nat.ltb_spec (String.length line0) 4); [lia|].
      destruct (bool_decide_reflect
                  (ConvertToUpperCase line0 ∈ wordsSeen g)); [done|].
      rewrite Hlex in Hvalid. simpl in Hvalid.
      destruct Hfind as (results & Hfind & Hne). rewrite Hfind in Hvalid.
      by destruct results.
    + by eapply (IH words rest); try exact Hrun.
Qed.

(** Extra X19. No valid word the player enters is lost: a line entered
    before the first blank one that has four characters or more and, in
    upper case, is in the lexicon and traced on the board by [Findable], is
    claimed when the turn ends. *)
Theorem PlayerTurn_claims_every_valid_word fuel turns lex words rest g c g' c'
    line :
  pending c = words ++ rest →
  Forall (fun line => line ≠ EmptyString) words →
  PlayerTurn fuel turns lex g c = Ret (g', c') →
  line ∈ words →
  (4 ≤ String.length line)%nat →
  containsWord lex (ConvertToUpperCase line) = true →
  (∃ results, Findable fuel (board g) (ConvertToUpperCase line) (-1) (-1) [] []
              = Ret results ∧ results ≠ []) →
  ConvertToUpperCase line ∈ wordsSeen g'.
Proof. intros. by eapply PlayerTurn_complete. Qed.

Lemma PlayerTurn_claims_every_valid_word_witness :
  ∃ g' c',
    PlayerTurn 5 5 lexCATS (newGame boardCATS)
      (mkConsole ["cat"; "cats"; ""; "YES"] []) = Ret (g', c') ∧
    ConvertToUpperCase "cats" ∈ wordsSeen g'.
Proof.
  eexists _, _. split; [vm_compute; reflexivity|].
  eapply (PlayerTurn_claims_every_valid_word 5 5 lexCATS ["cat"; "cats"]
           [""; "YES"] (newGame boardCATS)
           (mkConsole ["cat"; "cats"; ""; "YES"] []) _ _ "cats").
  - reflexivity.
  - by repeat constructor.
  - vm_compute. reflexivity.
  - right. left.
  - simpl. lia.
  - vm_compute. reflexivity.
  - eexists. split; [vm_compute; reflexivity|done].
Defined.

(** ** A whole game *)

Lemma scored_recorded p news :
  scored (map (fun w => RecordWordForPlayer w p) news) = news.
Proof. induction news as [|w news IH]; simpl; [done|]. by f_equal. Qed.

(** A word the enumerator reaches from a cell of the board is valid. *)
Lemma reaches_valid board lex l w :
  allTokens singleUpper board = true →
  reaches board lex EmptyString [] (numRow l) (numCol l) w →
  validWord board lex w.
Proof.
  intros Htok Hr.
  destruct (reaches_word _ _ _ _ _ _ _ Hr) as [Hword Hlen].
  destruct (reaches_traces _ _ _ _ _ _ _ Htok Hr) as (rest & Hw & Hup & Htr);
    [done|].
  rewrite append_nil_l in Hw. subst rest.
  destruct (Htr (-1) (-1)) as (p & Hp); [apply AreNeighbors_sentinel|].
  split_and!; [done| |done|lia].
  destruct (Findable_returns (S (String.length w)) board w (-1) (-1) [] [])
    as (paths & Hrun); [by apply allTokens_singleUpper_nonEmpty|lia|].
  exists paths. split; [done|]. intros ->.
  rewrite <- Hup in Hp. apply (Findable_traces _ _ _ _ _ _ _ Hrun) in Hp.
  by apply elem_of_nil in Hp.
Qed.

(** The player's turn and then the computer's, from a fresh game: the
    scoreboard holds valid words only, each once, and, with a lexicon closed
    under prefixes, all of them. *)
Lemma round_spec fuel turns lex board0 c g1 c1 g2 :
  allTokens singleUpper board0 = true →
  PlayerTurn fuel turns lex (mkGame board0 ∅ []) c = Ret (g1, c1) →
  ComputerTurn fuel lex g1 = Ret g2 →
  board g2 = board0 ∧
  NoDup (scored (display g2)) ∧
  (∀ w, w ∈ scored (display g2) → validWord board0 lex w) ∧
  (prefixClosed lex →
   ∀ w, validWord board0 lex w → w ∈ scored (display g2)).
Proof.
  intros Htok Hplay Hcomp.
  pose proof (PlayerTurn_sound _ _ _ _ _ _ _ Hplay) as [_ Hsound1].
  pose proof (ComputerTurn_sound _ _ _ _ Hcomp) as [_ Hsound2].
  apply PlayerTurn_spec in Hplay
    as (Hboard & _ & accepted & Hseen & Hscored & _ & _ & Hacc).
  simpl in Hboard, Hseen, Hscored, Hacc.
  apply ComputerTurn_records in Hcomp as (news & Hg2 & Hnew & Hchar).
  rewrite Hboard in Hg2, Hchar.
  assert (Hall : scored (display g2) = accepted ++ news).
  { rewrite Hg2. simpl. by rewrite scored_app, scored_recorded, Hscored. }
  split_and!.
  - by rewrite Hg2.
  - apply Hsound2, Hsound1. split; [constructor|].
    intros w Hw. by apply elem_of_nil in Hw.
  - intros w. rewrite Hall, elem_of_app. intros [Hw | Hw].
    + destruct (Hacc w Hw)
        as (_ & Hlen & Hlex & (results & Hfind & Hne) & line & _ & ->).
      split_and!; [apply ConvertToUpperCase_idemp| |done|done].
      destruct (Findable_returns
                  (S (String.length (ConvertToUpperCase line))) board0
                  (ConvertToUpperCase line) (-1) (-1) [] [])
        as (paths & Hrun); [by apply allTokens_singleUpper_nonEmpty|lia|].
      exists paths. split; [done|]. intros ->.
      destruct results as [|p results]; [done|].
      assert (Hp : p ∈ p :: results) by (by left).
      apply (Findable_traces _ _ _ _ _ _ _ Hfind) in Hp.
      apply (Findable_traces _ _ _ _ _ _ _ Hrun) in Hp.
      by apply elem_of_nil in Hp.
    + destruct (proj1 (Hchar w)) as [Hseen' | (l & Hl & Hr)]; [by right| |].
      * by apply Hnew in Hw.
      * by eapply reaches_valid.
  - intros Hlex w Hvalid. rewrite Hall, elem_of_app.
    destruct (proj2 (Hchar w)) as [Hw | Hw].
    + right. by apply reaches_iff_Findable.
    + left. rewrite Hseen in Hw. set_solver.
    + by right.
Qed.

(** What [UserConfigureBoard] returns, whatever the input. *)
Lemma UserConfigureBoard_Ret board : ∀ fuel c board' c' labels,
  (numRows board * numCols board ≤ 16)%nat →
  UserConfigureBoard fuel board c = Ret (board', c', labels) →
  numRows board' = numRows board ∧ numCols board' = numCols board ∧
  allTokens singleUpper board' = true ∧ labelled board' labels.
Proof.
  induction fuel as [|fuel IH]; intros c board' c' labels Hsize; [done|].
  rewrite UserConfigureBoard_unfold. cbn zeta.
  destruct (Nat.ltb_spec 15
              (String.length (ConvertToUpperCase (fst (GetLine c)))))
    as [Hlen|_]; [|by apply IH].
  destruct (placeConfiguration_spec board
              (ConvertToUpperCase (fst (GetLine c))))
    as (b & ls & -> & Hrows & Hcols & Htokens & Hlabels); [lia|done|].
  simpl. intros [= <- <- <-]. split_and!; try done.
  apply allTokens_boardTokens. rewrite Htokens. apply Forall_forall.
  intros tok Htok. apply list_elem_of_fmap in Htok as (ch & -> & Hch).
  apply singleUpper_spec. exists ch. split; [done|].
  apply subseteq_take in Hch. rewrite chars_ConvertToUpperCase in Hch.
  apply list_elem_of_fmap in Hch as (ch0 & -> & _). apply toupper_idemp.
Qed.

Lemma main_spec lex : ∀ fuel r c games r' c',
  main fuel lex r c = Ret (games, r', c') →
  games ≠ [] ∧
  Forall (fun played =>
    numRows (board (fst played)) = 4%nat ∧
    numCols (board (fst played)) = 4%nat ∧
    allTokens singleUpper (board (fst played)) = true ∧
    (∃ labels,
       snd played = [SetWindowSize 9 5; InitGraphics; DrawBoard 4 4] ++ labels ∧
       labelled (board (fst played)) labels) ∧
    NoDup (scored (display (fst played))) ∧
    (∀ w, w ∈ scored (display (fst played)) →
          validWord (board (fst played)) lex w) ∧
    (prefixClosed lex →
     ∀ w, validWord (board (fst played)) lex w →
          w ∈ scored (display (fst played)))) games.
Proof.
  induction fuel as [|fuel IH]; intros r c games r' c'; [done|].
  cbn [main].
  destruct (GetLine _) as [response c2].
  match goal with |- mbind _ ?m = _ → _ =>
    destruct m as [[[[b r1] c3] labels]| |] eqn:Hset end; [|done|done].
  assert (Hboard : numRows b = 4%nat ∧ numCols b = 4%nat ∧
                   allTokens singleUpper b = true ∧ labelled b labels).
  { destruct (String.eqb _ _).
    - destruct (UserConfigureBoard fuel _ c2) as [[[b' c'0] labels']| |] eqn:Hrun;
        [|done|done].
      simpl in Hset. injection Hset as <- _ _ <-.
      by apply UserConfigureBoard_Ret in Hrun; [|simpl; lia].
    - destruct (InitializeBoard_spec board4x4 r)
        as (b' & r1' & labels' & Hrun & Hrows & Hcols & _ & _
            & (chosen & _ & Hchosen & Hperm) & Hlabels); [simpl; lia|].
      change (mkGrid 4 4 (fun _ _ => EmptyString)) with board4x4 in Hset.
      rewrite Hrun in Hset. simpl in Hset. injection Hset as <- _ _ <-.
      split_and!; try done.
      apply allTokens_boardTokens. rewrite Hperm. apply Forall_forall.
      intros tok Htok. apply list_elem_of_lookup in Htok as (k & Hk).
      by apply Hchosen, rolled_singleUpper in Hk. }
  destruct Hboard as (Hrows & Hcols & Htok & Hlabels).
  rewrite bind_Ret.
  destruct (PlayerTurn fuel fuel lex _ c3) as [[g1 c4]| |] eqn:Hplay;
    [|done|done].
  rewrite bind_Ret. cbn [fst snd].
  destruct (ComputerTurn fuel lex g1) as [g2| |] eqn:Hcomp; [|done|done].
  rewrite bind_Ret.
  destruct (round_spec _ _ _ _ _ _ _ _ Htok Hplay Hcomp)
    as (Hb & Hnd & Hvalid & Hall).
  assert (Hgame :
    numRows (board g2) = 4%nat ∧ numCols (board g2) = 4%nat ∧
    allTokens singleUpper (board g2) = true ∧
    (∃ labels0,
       [SetWindowSize 9 5; InitGraphics; DrawBoard 4 4] ++ labels
       = [SetWindowSize 9 5; InitGraphics; DrawBoard 4 4] ++ labels0 ∧
       labelled (board g2) labels0) ∧
    NoDup (scored (display g2)) ∧
    (∀ w, w ∈ scored (display g2) → validWord (board g2) lex w) ∧
    (prefixClosed lex →
     ∀ w, validWord (board g2) lex w → w ∈ scored (display g2))).
  { rewrite Hb. split_and!; try done. by exists labels. }
  destruct (GetLine _) as [again c5].
  destruct (negb _).
  - intros [= <- <- <-]. split; [done|]. constructor; [exact Hgame|constructor].
  - destruct (main fuel lex r1 c5) as [[[gs r2] c6]| |] eqn:Hrest; [|done|done].
    rewrite bind_Ret. cbn [fst snd]. intros [= <- <- <-]. split; [done|].
    constructor; [exact Hgame|]. by apply IH in Hrest as [_ Hrest].
Qed.

(** Extra X20. Every game [main] plays is on a board of four rows and four
    columns whose tokens are single upper-case letters, shown by the cube
    labels drawn after the display is set up. When the game ends, the
    scoreboard shows valid words only and none twice; with a lexicon closed
    under prefixes it shows every valid word of the board. Nothing of an
    earlier game is left in [wordsSeen]. *)
Theorem main_scores_the_valid_words fuel lex r c games r' c' :
  main fuel lex r c = Ret (games, r', c') →
  games ≠ [] ∧
  Forall (fun played =>
    numRows (board (fst played)) = 4%nat ∧
    numCols (board (fst played)) = 4%nat ∧
    allTokens singleUpper (board (fst played)) = true ∧
    (∃ labels,
       snd played = [SetWindowSize 9 5; InitGraphics; DrawBoard 4 4] ++ labels ∧
       labelled (board (fst played)) labels) ∧
    NoDup (scored (display (fst played))) ∧
    (∀ w, w ∈ scored (display (fst played)) →
          validWord (board (fst played)) lex w) ∧
    (prefixClosed lex →
     ∀ w, validWord (board (fst played)) lex w →
          w ∈ scored (display (fst played)))) games.
Proof. apply main_spec. Qed.

Lemma main_scores_the_valid_words_witness :
  ∃ games r' c',
    main 17 lexCATS someRandom
      (mkConsole [""; "yes"; "catsorenxxxxxxxx"; "cats"; ""; "yes";
                  ""; "no"; "cat"; ""; "no"] [])
    = Ret (games, r', c') ∧
    length games = 2%nat ∧
    Forall (fun played =>
      numRows (board (fst played)) = 4%nat ∧
      NoDup (scored (display (fst played))) ∧
      ∀ w, w ∈ scored (display (fst played)) →
           validWord (board (fst played)) lexCATS w) games.
Proof.
  eexists _, _, _. split; [vm_compute; reflexivity|]. split; [reflexivity|].
  edestruct (main_scores_the_valid_words 17 lexCATS someRandom
               (mkConsole [""; "yes"; "catsorenxxxxxxxx"; "cats"; ""; "yes";
                           ""; "no"; "cat"; ""; "no"] []))
    as [_ Hgames]; [vm_compute; reflexivity|].
  eapply Forall_impl; [exact Hgames|].
  intros played (Hrows & _ & _ & _ & Hnd & Hvalid & _). auto.
Defined.

Lemma GetLine_pending c line rest :
  pending c = line :: rest → GetLine c = (line, mkConsole rest (printed c)).
Proof. unfold GetLine. by intros ->. Qed.

Lemma pending_GiveInstructions c :
  pending (GiveInstructions c) = tail (pending c).
Proof.
  unfold GiveInstructions, GetLine, cout. cbn [pending printed].
  by destruct (pending c).
Qed.

(** Extra X21. With sixteen units of fuel or more, [main] plays one game and
    returns when the input holds a line for the instructions, an answer
    other than yes, words with a blank line after them, and an answer other
    than yes once more. It reads these lines and no more, and draws
    forty-eight random numbers. *)
Theorem main_plays_one_game fuel lex r c ready answer words again rest :
  pending c = ready :: answer :: words ++ EmptyString :: again :: rest →
  ConvertToUpperCase answer ≠ "YES" →
  ConvertToUpperCase again ≠ "YES" →
  Forall (fun line => line ≠ EmptyString ∧ (String.length line < fuel)%nat)
         words →
  (length words < fuel)%nat →
  (16 ≤ fuel)%nat →
  ∃ g labels r' c',
    main (S fuel) lex r c
    = Ret ([(g, [SetWindowSize 9 5; InitGraphics; DrawBoard 4 4] ++ labels)],
           r', c') ∧
    pending c' = rest ∧
    raw r' = raw r ∧ drawn r' = (drawn r + 48)%nat.
Proof.
  intros Hpending Hanswer Hagain Hwords Hturns Hfuel. cbn [main].
  rewrite (GetLine_pending _ answer (words ++ EmptyString :: again :: rest)).
  2: { unfold cout at 1. cbn [pending]. rewrite pending_GiveInstructions.
       unfold Welcome, cout. cbn [pending]. by rewrite Hpending. }
  cbv beta iota.
  destruct (String.eqb_spec (ConvertToUpperCase answer) "YES") as [|_]; [done|].
  destruct (InitializeBoard_spec board4x4 r)
    as (b & r1 & labels & Hrun & Hrows & Hcols & Hraw & Hdrawn
        & (chosen & _ & Hchosen & Hperm) & Hlabels); [simpl; lia|].
  change (mkGrid 4 4 (fun _ _ => EmptyString)) with board4x4.
  rewrite Hrun, !bind_Ret. cbn [fst snd].
  assert (Htok : allTokens singleUpper b = true).
  { apply allTokens_boardTokens. rewrite Hperm. apply Forall_forall.
    intros tok Htok. apply list_elem_of_lookup in Htok as (k & Hk).
    by apply Hchosen, rolled_singleUpper in Hk. }
  match goal with |- context [PlayerTurn fuel fuel lex ?g0 ?c0] =>
    destruct (PlayerTurn_returns fuel lex fuel words
                (EmptyString :: again :: rest) g0 c0)
      as (g1 & c4 & Hplay & Hc4) end;
    [by apply allTokens_singleUpper_nonEmpty|done|done|by right|done|].
  rewrite Hplay, bind_Ret. cbn [fst snd].
  pose proof Hplay as Hb. apply PlayerTurn_spec in Hb as (Hb & _).
  simpl in Hb, Hrows, Hcols.
  destruct (ComputerTurn_returns fuel lex g1) as (g2 & Hcomp).
  { rewrite Hb, Hrows, Hcols. simpl. lia. }
  rewrite Hcomp, bind_Ret.
  rewrite (GetLine_pending _ again rest)
    by (unfold cout; cbn [pending]; by rewrite Hc4).
  cbv beta iota.
  destruct (String.eqb_spec (ConvertToUpperCase again) "YES") as [|_]; [done|].
  cbn [negb]. eexists _, _, _, _. split; [reflexivity|].
  split_and!; [done|done|]. rewrite Hdrawn. simpl. lia.
Qed.

Lemma main_plays_one_game_witness :
  ∃ g labels r' c',
    main 17 lexCATS someRandom
      (mkConsole ["ready"; "no"; "cats"; ""; "no"; "left"] [])
    = Ret ([(g, [SetWindowSize 9 5; InitGraphics; DrawBoard 4 4] ++ labels)],
           r', c') ∧
    pending c' = ["left"] ∧
    raw r' = raw someRandom ∧ drawn r' = (drawn someRandom + 48)%nat.
Proof.
  apply (main_plays_one_game 16 lexCATS someRandom
           (mkConsole ["ready"; "no"; "cats"; ""; "no"; "left"] [])
           "ready" "no" ["cats"] "no" ["left"]).
  - reflexivity.
  - by vm_compute.
  - by vm_compute.
  - repeat constructor; simpl; try done; lia.
  - simpl. lia.
  - lia.
Defined.
